(** * N-body simulator: the physics core, embedded in Rocq

    The engine of [n_body_simulator.py] and of the package
    [n_body_simulator/] (base_simulation.py, simulator_cpu.py,
    simulator_gpu.py) works on numpy arrays of floats.  Here the arrays are
    lists, an (N, 2) array is a list of pairs, and floats are the real
    numbers of the Standard Library: every statement below is about exact
    real arithmetic.  Shape errors that numpy raises on arrays of different
    lengths are outside the model; the engine keeps all its arrays at length
    [num_bodies], which is the predicate [wf] below. *)

From Stdlib Require Import Reals Lra Lia String List ZArith Bool Arith.
Import ListNotations.
Local Open Scope R_scope.

(** ** Array primitives *)

Module Np.

  (** A row of an (N, 2) array. *)
Abbreviation vec2 := (R * R)%type.

  (** [np.sum] of a one-dimensional array. *)
Definition sum (a : list R) : R := fold_right Rplus 0 a.

  (** [a[:, 0]] and [a[:, 1]]. *)
Definition col0 (a : list vec2) : list R := map fst a.
Definition col1 (a : list vec2) : list R := map snd a.

  (** An elementwise binary operation on two arrays of one shape. *)
Definition zip_with {A B C : Type} (f : A -> B -> C)
      (a : list A) (b : list B) : list C :=
    map (fun p => f (fst p) (snd p)) (combine a b).

  (** [a[i] = v]; a list keeps its length (the index is in range in every
      use the engine makes of it). *)
Fixpoint set_item {A : Type} (i : nat) (v : A) (a : list A) : list A :=
    match a, i with
    | [], _ => []
    | _ :: t, O => v :: t
    | h :: t, S i' => h :: set_item i' v t
    end.

  (** [for i in range(n): body]. *)
Definition for_range {St : Type} (n : nat) (body : nat -> St -> St)
      (s : St) : St :=
    fold_left (fun acc i => body i acc) (seq 0 n) s.

  (** [for j in range(lo, hi): body]. *)
Definition for_range_from {St : Type} (lo hi : nat)
      (body : nat -> St -> St) (s : St) : St :=
    fold_left (fun acc j => body j acc) (seq lo (hi - lo)) s.

  (** Comparisons of floats, as booleans. *)
Definition gtb (x y : R) : bool := if Rgt_dec x y then true else false.
Definition ltb (x y : R) : bool := if Rlt_dec x y then true else false.

  (** [a[mask] = f(a[mask])] for a boolean mask. *)
Definition masked_update {A : Type} (mask : list bool) (f : A -> A)
      (a : list A) : list A :=
    zip_with (fun (m : bool) x => if m then f x else x) mask a.

  (** [np.where(mask)[0]]: the indices at which the mask holds, ascending. *)
Definition where_true (mask : list bool) : list nat :=
    filter (fun i => nth i mask false) (seq 0 (length mask)).

  (** [np.sum] of a single float (a zero-dimensional array) is that float. *)
Definition sum0 (x : R) : R := x.

  (** [x ** (-1.5)]. *)
Definition pow_neg_1_5 (x : R) : R := Rpower x (-1.5).

  (** [x % m] on floats: the remainder has the sign of [m]. *)
Definition fmod (x m : R) : R := x - m * IZR (Int_part (x / m)).

  (** [int(x)]: truncation toward zero. *)
Definition py_int (x : R) : Z :=
    if Rle_dec 0 x then Int_part x else (- Int_part (- x))%Z.

End Np.

Import Np.

(** ** The engine state *)

(** The attributes of an [NBodySimulation] object.  [colors] holds the
    (r, g, b) arguments given to [QColor]. *)
Record state : Type := mkState {
  G : R;
  dt : R;
  softening : R;
  boundary : R;
  num_bodies : nat;
  positions : list vec2;
  velocities : list vec2;
  masses : list R;
  colors : list (Z * Z * Z);
  trails : list (list vec2);
  max_trail_length : nat;
  accelerations : list vec2;
  kinetic_energy : R;
  potential_energy : R
}.

(** All per-body arrays have length [num_bodies]. *)
Definition wf (s : state) : Prop :=
  length (positions s) = num_bodies s /\
  length (velocities s) = num_bodies s /\
  length (masses s) = num_bodies s /\
  length (trails s) = num_bodies s /\
  length (accelerations s) = num_bodies s.

(** The random generator, as the values it delivers: [uniform k] is the
    float returned by the [k]-th draw of [np.random.uniform] in a call,
    [randint k] the integer returned by the [k]-th [np.random.randint]. *)
Record random_source : Type := mkRandom {
  uniform : nat -> R;
  randint : nat -> nat
}.

(** ** n_body_simulator.py: class NBodySimulation *)

Module Standalone.

Definition reset (rnd : random_source) (num : option nat) (s : state)
      : state :=
    let n := match num with Some k => k | None => num_bodies s end in
    let positions' :=
      map (fun i => (uniform rnd (2 * i), uniform rnd (2 * i + 1))) (seq 0 n) in
    let velocities' :=
      map (fun i => (uniform rnd (2 * n + 2 * i),
                     uniform rnd (2 * n + 2 * i + 1))) (seq 0 n) in
    let base_masses := map (fun i => uniform rnd (4 * n + i)) (seq 0 n) in
    let masses' :=
      for_range (Nat.min 3 n)
        (fun i bm => set_item (randint rnd i) (uniform rnd (5 * n + i)) bm)
        base_masses in
    let colors' :=
      map (fun mass =>
             if gtb mass 5
             then (Z.min 255 (py_int (200 + mass * 2.5)),
                   Z.max 0 (py_int (255 - mass * 10)),
                   Z.max 0 (py_int (100 - mass * 5)))
             else (py_int (100 + mass * 20),
                   py_int (100 + mass * 20),
                   Z.min 255 (py_int (150 + mass * 20))))
          masses' in
    mkState (G s) (dt s) (softening s) (boundary s) n
            positions' velocities' masses' colors'
            (map (fun _ => []) (seq 0 n))
            50
            (map (fun _ => (0, 0)) (seq 0 n))
            0 0.

(** [__init__(num_bodies, dt, softening, boundary)]: the four parameters
    are stored, G is 6.67, and [reset(num_bodies)] creates the rest. *)
Definition init (rnd : random_source) (num_bodies : nat)
    (dt softening boundary : R) : state :=
    reset rnd (Some num_bodies)
          (mkState 6.67 dt softening boundary 0 [] [] [] [] [] 0 [] 0 0).

Definition calculate_energy (s : state) : state :=
    let v_squared := map (fun v => fst v ^ 2 + snd v ^ 2) (velocities s) in
    let ke := 0.5 * sum (zip_with Rmult (masses s) v_squared) in
    let pe :=
      for_range (num_bodies s) (fun i pe =>
        for_range_from (i + 1) (num_bodies s) (fun j pe =>
          let dx := fst (nth i (positions s) (0, 0))
                    - fst (nth j (positions s) (0, 0)) in
          let dy := snd (nth i (positions s) (0, 0))
                    - snd (nth j (positions s) (0, 0)) in
          let r := sqrt (dx ^ 2 + dy ^ 2 + softening s ^ 2) in
          pe - G s * nth i (masses s) 0 * nth j (masses s) 0 / r) pe) 0 in
    mkState (G s) (dt s) (softening s) (boundary s) (num_bodies s)
            (positions s) (velocities s) (masses s) (colors s) (trails s)
            (max_trail_length s) (accelerations s) ke pe.

Definition update (s : state) : state :=
    let acc0 := map (fun _ => (0, 0)) (accelerations s) in
    let acc :=
      for_range (num_bodies s) (fun i acc =>
        let dx := map (fun x => x - fst (nth i (positions s) (0, 0)))
                      (col0 (positions s)) in
        let dy := map (fun y => y - snd (nth i (positions s) (0, 0)))
                      (col1 (positions s)) in
        let inv_r3 :=
          set_item i 0
            (zip_with (fun dx dy => pow_neg_1_5 (dx ^ 2 + dy ^ 2 + softening s ^ 2))
                      dx dy) in
        let ax := zip_with Rmult
                    (zip_with Rmult (map (Rmult (G s)) dx) inv_r3) (masses s) in
        let ay := zip_with Rmult
                    (zip_with Rmult (map (Rmult (G s)) dy) inv_r3) (masses s) in
        set_item i (fst (nth i acc (0, 0)) + sum ax,
                    snd (nth i acc (0, 0)) + sum ay) acc) acc0 in
    let vel := zip_with (fun v a => (fst v + fst a * dt s, snd v + snd a * dt s))
                        (velocities s) acc in
    let pos := zip_with (fun p v => (fst p + fst v * dt s, snd p + snd v * dt s))
                        (positions s) vel in
    let trails' :=
      for_range (num_bodies s) (fun i tr =>
        let t := nth i tr [] ++ [nth i pos (0, 0)] in
        set_item i (if (max_trail_length s <? length t)%nat then tl t else t) tr)
        (trails s) in
    calculate_energy
      (mkState (G s) (dt s) (softening s) (boundary s) (num_bodies s)
               pos vel (masses s) (colors s) trails'
               (max_trail_length s) acc
               (kinetic_energy s) (potential_energy s)).

  (** The replacement of the bodies that went too far, in "open" mode: the
      body of the loop over [np.where(too_far)[0]], with [k] the number of
      floats drawn so far. *)
Fixpoint replace_too_far (rnd : random_source) (k : nat) (idxs : list nat)
      (b : R) (pos vel : list vec2) (tr : list (list vec2))
      : list vec2 * list vec2 * list (list vec2) :=
    match idxs with
    | [] => (pos, vel, tr)
    | i :: rest =>
        let angle := uniform rnd k in
        let radius := b / 2 * 0.9 in
        let pos' := set_item i (cos angle * radius, sin angle * radius) pos in
        let vel' := set_item i (- cos angle * uniform rnd (k + 1),
                                - sin angle * uniform rnd (k + 2)) vel in
        replace_too_far rnd (k + 3) rest b pos' vel' (set_item i [] tr)
    end.

Definition apply_boundary_conditions (rnd : random_source)
      (condition : string) (s : state) : state :=
    let b := boundary s in
    if String.eqb condition "bounce"%string then
      let beyond_right := map (fun x => gtb x (b / 2)) (col0 (positions s)) in
      let beyond_left := map (fun x => ltb x (- b / 2)) (col0 (positions s)) in
      let pos1 := masked_update beyond_right
                    (fun p => (b - fst p, snd p)) (positions s) in
      let vel1 := masked_update beyond_right
                    (fun v => (fst v * -0.9, snd v)) (velocities s) in
      let pos2 := masked_update beyond_left
                    (fun p => (- b - fst p, snd p)) pos1 in
      let vel2 := masked_update beyond_left
                    (fun v => (fst v * -0.9, snd v)) vel1 in
      let beyond_top := map (fun y => gtb y (b / 2)) (col1 pos2) in
      let beyond_bottom := map (fun y => ltb y (- b / 2)) (col1 pos2) in
      let pos3 := masked_update beyond_top
                    (fun p => (fst p, b - snd p)) pos2 in
      let vel3 := masked_update beyond_top
                    (fun v => (fst v, snd v * -0.9)) vel2 in
      let pos4 := masked_update beyond_bottom
                    (fun p => (fst p, - b - snd p)) pos3 in
      let vel4 := masked_update beyond_bottom
                    (fun v => (fst v, snd v * -0.9)) vel3 in
      mkState (G s) (dt s) (softening s) b (num_bodies s)
              pos4 vel4 (masses s) (colors s) (trails s)
              (max_trail_length s) (accelerations s)
              (kinetic_energy s) (potential_energy s)
    else if String.eqb condition "periodic"%string then
      let pos' := map (fun p => (fmod (fst p + b / 2) b - b / 2,
                                 fmod (snd p + b / 2) b - b / 2))
                      (positions s) in
      mkState (G s) (dt s) (softening s) b (num_bodies s)
              pos' (velocities s) (masses s) (colors s) (trails s)
              (max_trail_length s) (accelerations s)
              (kinetic_energy s) (potential_energy s)
    else if String.eqb condition "open"%string then
      let too_far :=
        map (fun p => gtb (sqrt (fst p ^ 2 + snd p ^ 2)) (b * 2))
            (positions s) in
      let '(pos', vel', tr') :=
        replace_too_far rnd 0 (where_true too_far) b
                        (positions s) (velocities s) (trails s) in
      mkState (G s) (dt s) (softening s) b (num_bodies s)
              pos' vel' (masses s) (colors s) tr'
              (max_trail_length s) (accelerations s)
              (kinetic_energy s) (potential_energy s)
    else s.

  (** [while len(trail) > value: trail.pop(0)]. *)
Fixpoint pop_while_longer {A : Type} (value : nat) (trail : list A)
      : list A :=
    match trail with
    | [] => []
    | _ :: rest =>
        if (value <? length trail)%nat then pop_while_longer value rest
        else trail
    end.

  (** [MainWindow.update_trail_length], the setter of the trail cap. *)
Definition update_trail_length (value : nat) (s : state) : state :=
    let trails' :=
      for_range (num_bodies s) (fun i tr =>
        set_item i (pop_while_longer value (nth i tr [])) tr) (trails s) in
    mkState (G s) (dt s) (softening s) (boundary s) (num_bodies s)
            (positions s) (velocities s) (masses s) (colors s) trails'
            value (accelerations s)
            (kinetic_energy s) (potential_energy s).

End Standalone.

(** ** The force contract, as the specification words it

    a_i = G * sum over j <> i of m_j * (r_j - r_i) / (|r_j - r_i|^2 + softening^2)^1.5,
    over the bodies 0 .. N-1 of the position array. *)

Definition softened_dist2 (softening : R) (ri rj : vec2) : R :=
  (fst rj - fst ri) ^ 2 + (snd rj - snd ri) ^ 2 + softening ^ 2.

Definition others (n i : nat) : list nat :=
  filter (fun j => negb (j =? i)%nat) (seq 0 n).

Definition force_contract (positions : list vec2) (masses : list R)
    (G softening : R) (i : nat) : vec2 :=
  let ri := nth i positions (0, 0) in
  let term (proj : vec2 -> R) (j : nat) :=
    let rj := nth j positions (0, 0) in
    nth j masses 0 * (proj rj - proj ri)
    / Rpower (softened_dist2 softening ri rj) 1.5 in
  (G * sum (map (term fst) (others (length positions) i)),
   G * sum (map (term snd) (others (length positions) i))).

(** ** n_body_simulator/base_simulation.py: class BaseNBodySimulation *)

Module Base.

Definition reset (rnd : random_source) (num : option nat) (s : state)
      : state :=
    let n := match num with Some k => k | None => num_bodies s end in
    let positions' :=
      map (fun i => (uniform rnd (2 * i), uniform rnd (2 * i + 1))) (seq 0 n) in
    let velocities' :=
      map (fun i => (uniform rnd (2 * n + 2 * i),
                     uniform rnd (2 * n + 2 * i + 1))) (seq 0 n) in
    let base_masses := map (fun i => uniform rnd (4 * n + i)) (seq 0 n) in
    let masses' :=
      for_range (Nat.min 3 n)
        (fun i bm => set_item (randint rnd i) (uniform rnd (5 * n + i)) bm)
        base_masses in
    let colors' :=
      map (fun mass =>
             if gtb mass 5
             then (Z.min 255 (py_int (200 + mass * 2.5)),
                   Z.max 0 (py_int (255 - mass * 10)),
                   Z.max 0 (py_int (100 - mass * 5)))
             else (py_int (100 + mass * 20),
                   py_int (100 + mass * 20),
                   Z.min 255 (py_int (150 + mass * 20))))
          masses' in
    mkState (G s) (dt s) (softening s) (boundary s) n
            positions' velocities' masses' colors'
            (map (fun _ => []) (seq 0 n))
            50
            (map (fun _ => (0, 0)) (seq 0 n))
            0 0.

  (** The second bounce of the repository: the velocity changes sign, the
      position stays. *)
Definition apply_boundary_conditions (s : state) : state :=
    let vel :=
      for_range (num_bodies s) (fun i vel =>
        let x := fst (nth i (positions s) (0, 0)) in
        let y := snd (nth i (positions s) (0, 0)) in
        let vel1 :=
          if ltb x (- boundary s / 2) || gtb x (boundary s / 2)
          then set_item i (fst (nth i vel (0, 0)) * -1, snd (nth i vel (0, 0))) vel
          else vel in
        if ltb y (- boundary s / 2) || gtb y (boundary s / 2)
        then set_item i (fst (nth i vel1 (0, 0)), snd (nth i vel1 (0, 0)) * -1) vel1
        else vel1) (velocities s) in
    mkState (G s) (dt s) (softening s) (boundary s) (num_bodies s)
            (positions s) vel (masses s) (colors s) (trails s)
            (max_trail_length s) (accelerations s)
            (kinetic_energy s) (potential_energy s).

Definition calculate_energy (s : state) : state :=
    let v_squared := map (fun v => fst v ^ 2 + snd v ^ 2) (velocities s) in
    let ke := 0.5 * sum (zip_with Rmult (masses s) v_squared) in
    let pe :=
      for_range (num_bodies s) (fun i pe =>
        for_range_from (i + 1) (num_bodies s) (fun j pe =>
          let dx := fst (nth i (positions s) (0, 0))
                    - fst (nth j (positions s) (0, 0)) in
          let dy := snd (nth i (positions s) (0, 0))
                    - snd (nth j (positions s) (0, 0)) in
          let r := sqrt (dx ^ 2 + dy ^ 2 + softening s ^ 2) in
          pe - G s * nth i (masses s) 0 * nth j (masses s) 0 / r) pe) 0 in
    mkState (G s) (dt s) (softening s) (boundary s) (num_bodies s)
            (positions s) (velocities s) (masses s) (colors s) (trails s)
            (max_trail_length s) (accelerations s) ke pe.

  (** Returns the two arrays [ax], [ay] of the contributions of every body
      to the acceleration of body [i]. *)
Definition calculate_acceleration (s : state) (i : nat)
      : list R * list R :=
    let dx := map (fun x => x - fst (nth i (positions s) (0, 0)))
                  (col0 (positions s)) in
    let dy := map (fun y => y - snd (nth i (positions s) (0, 0)))
                  (col1 (positions s)) in
    let inv_r3 :=
      set_item i 0
        (zip_with (fun dx dy => pow_neg_1_5 (dx ^ 2 + dy ^ 2 + softening s ^ 2))
                  dx dy) in
    let ax := zip_with Rmult
                (zip_with Rmult (map (Rmult (G s)) dx) inv_r3) (masses s) in
    let ay := zip_with Rmult
                (zip_with Rmult (map (Rmult (G s)) dy) inv_r3) (masses s) in
    (ax, ay).

  (** Modelled from the spec: [calculate_acceleration_helper], the function
      that simulator_cpu.py and simulator_gpu.py import from
      base_simulation.py and call on (positions, masses, G, softening, i);
      no source file defines it.  The specification's force backend
      ([computeAccelerations(positions, masses, G, softening) -> accelerations],
      section 4.2) gives, for body [i], the net acceleration of the force
      contract; the helper returns that pair. *)
Definition calculate_acceleration_helper
      (args : list vec2 * list R * R * R * nat) : vec2 :=
    let '(positions, masses, G, softening, i) := args in
    force_contract positions masses G softening i.

End Base.

(** ** n_body_simulator/simulator_cpu.py: class NBodySimulation *)

Module SimulatorCpu.

Definition update (s : state) : state :=
    let acc0 := map (fun _ => (0, 0)) (accelerations s) in
    let results :=
      map Base.calculate_acceleration_helper
          (map (fun i => (positions s, masses s, G s, softening s, i))
               (seq 0 (num_bodies s))) in
    let acc :=
      fold_left (fun a (ir : nat * vec2) => set_item (fst ir) (snd ir) a)
                (combine (seq 0 (length results)) results) acc0 in
    let vel := zip_with (fun v a => (fst v + fst a * dt s, snd v + snd a * dt s))
                        (velocities s) acc in
    let pos := zip_with (fun p v => (fst p + fst v * dt s, snd p + snd v * dt s))
                        (positions s) vel in
    let trails' :=
      for_range (num_bodies s) (fun i tr =>
        let t := nth i tr [] ++ [nth i pos (0, 0)] in
        set_item i (if (max_trail_length s <? length t)%nat then tl t else t) tr)
        (trails s) in
    Base.calculate_energy
      (mkState (G s) (dt s) (softening s) (boundary s) (num_bodies s)
               pos vel (masses s) (colors s) trails'
               (max_trail_length s) acc
               (kinetic_energy s) (potential_energy s)).

Definition calculate_acceleration (s : state) (i : nat) : vec2 :=
    let '(ax, ay) := Base.calculate_acceleration s i in
    (sum ax, sum ay).

Definition is_gpu (s : state) : bool := false.

End SimulatorCpu.

(** ** n_body_simulator/simulator_gpu.py: class NBodySimulation *)

Module SimulatorGpu.

Definition update (s : state) : state :=
    let acc0 := map (fun _ => (0, 0)) (accelerations s) in
    let acc :=
      for_range (num_bodies s) (fun i acc =>
        let '(ax, ay) :=
          Base.calculate_acceleration_helper
            (positions s, masses s, G s, softening s, i) in
        set_item i (fst (nth i acc (0, 0)) + sum0 ax,
                    snd (nth i acc (0, 0)) + sum0 ay) acc) acc0 in
    let vel := zip_with (fun v a => (fst v + fst a * dt s, snd v + snd a * dt s))
                        (velocities s) acc in
    let pos := zip_with (fun p v => (fst p + fst v * dt s, snd p + snd v * dt s))
                        (positions s) vel in
    let trails' :=
      for_range (num_bodies s) (fun i tr =>
        let t := nth i tr [] ++ [nth i pos (0, 0)] in
        set_item i (if (max_trail_length s <? length t)%nat then tl t else t) tr)
        (trails s) in
    Base.calculate_energy
      (mkState (G s) (dt s) (softening s) (boundary s) (num_bodies s)
               pos vel (masses s) (colors s) trails'
               (max_trail_length s) acc
               (kinetic_energy s) (potential_energy s)).

Definition is_gpu (s : state) : bool := true.

End SimulatorGpu.

(** ** Quantities the statements are about *)

(** The contribution of body [j] to the acceleration of body [i], as the
    engine computes it: [G * dx * inv_r3 * m_j], with [inv_r3] zeroed at
    [j = i]. *)
Definition pair_accel (s : state) (i j : nat) : vec2 :=
  let ri := nth i (positions s) (0, 0) in
  let rj := nth j (positions s) (0, 0) in
  let inv_r3 :=
    if (j =? i)%nat then 0
    else pow_neg_1_5 (softened_dist2 (softening s) ri rj) in
  (G s * (fst rj - fst ri) * inv_r3 * nth j (masses s) 0,
   G s * (snd rj - snd ri) * inv_r3 * nth j (masses s) 0).

(** The denominators of the force law and of the potential energy for the
    pair (i, j): the code computes [inv_r3] as the power -1.5 of
    dx^2 + dy^2 + softening^2, that is one over its power 1.5, and divides
    the potential term by the square root [r] of the same sum (with dx, dy
    taken from j to i). *)
Definition accel_denominator (s : state) (i j : nat) : R :=
  Rpower (softened_dist2 (softening s) (nth i (positions s) (0, 0))
                         (nth j (positions s) (0, 0))) 1.5.

Definition potential_denominator (s : state) (i j : nat) : R :=
  let dx := fst (nth i (positions s) (0, 0))
            - fst (nth j (positions s) (0, 0)) in
  let dy := snd (nth i (positions s) (0, 0))
            - snd (nth j (positions s) (0, 0)) in
  sqrt (dx ^ 2 + dy ^ 2 + softening s ^ 2).

(** Total momentum, sum of m_i * v_i. *)
Definition total_momentum (s : state) : vec2 :=
  (sum (zip_with Rmult (masses s) (col0 (velocities s))),
   sum (zip_with Rmult (masses s) (col1 (velocities s)))).

(** Mass-weighted position, sum of m_i * r_i, and the center of mass. *)
Definition mass_moment (s : state) : vec2 :=
  (sum (zip_with Rmult (masses s) (col0 (positions s))),
   sum (zip_with Rmult (masses s) (col1 (positions s)))).

Definition center_of_mass (s : state) : vec2 :=
  (fst (mass_moment s) / sum (masses s),
   snd (mass_moment s) / sum (masses s)).

(** [n] calls of a method in a row. *)
Fixpoint repeat_call (n : nat) (f : state -> state) (s : state) : state :=
  match n with
  | O => s
  | S n' => f (repeat_call n' f s)
  end.

(** What every [update] of the repository does once the accelerations
    [acc] are known: integration, trails, energies. *)
Definition integrate (s : state) (acc : list vec2) : state :=
  let vel := zip_with (fun v a => (fst v + fst a * dt s, snd v + snd a * dt s))
                      (velocities s) acc in
  let pos := zip_with (fun p v => (fst p + fst v * dt s, snd p + snd v * dt s))
                      (positions s) vel in
  let trails' :=
    for_range (num_bodies s) (fun i tr =>
      let t := nth i tr [] ++ [nth i pos (0, 0)] in
      set_item i (if (max_trail_length s <? length t)%nat then tl t else t) tr)
      (trails s) in
  Standalone.calculate_energy
    (mkState (G s) (dt s) (softening s) (boundary s) (num_bodies s)
             pos vel (masses s) (colors s) trails'
             (max_trail_length s) acc
             (kinetic_energy s) (potential_energy s)).

(** Body [i] went from [s] to [s'] by one semi-implicit Euler step: the
    new velocity is the old one plus acceleration times dt, and the new
    position is the old one plus the NEW velocity times dt. *)
Definition semi_implicit_at (s s' : state) (i : nat) : Prop :=
  let a := nth i (accelerations s') (0, 0) in
  let v := nth i (velocities s) (0, 0) in
  let v' := nth i (velocities s') (0, 0) in
  let p := nth i (positions s) (0, 0) in
  let p' := nth i (positions s') (0, 0) in
  v' = (fst v + fst a * dt s, snd v + snd a * dt s) /\
  p' = (fst p + fst v' * dt s, snd p + snd v' * dt s).

(** Every trail is within the cap. *)
Definition trail_bounded (s : state) : Prop :=
  Forall (fun t : list vec2 => (length t <= max_trail_length s)%nat) (trails s).

(** What one step does to the trail of a body whose new position is [p]:
    append, then drop the oldest entry if the cap is exceeded. *)
Definition push_trail (cap : nat) (trail : list vec2) (p : vec2)
    : list vec2 :=
  let t := trail ++ [p] in
  if (cap <? length t)%nat then tl t else t.

(** ** The calls a driver can make on an engine *)

Inductive call : Type :=
| Reset (rnd : random_source) (num : option nat)
| Update
| UpdateCpu
| UpdateGpu
| ApplyBoundary (rnd : random_source) (condition : string)
| ApplyBoundaryBase
| SetTrailLength (value : nat)
| SetDt (value : R)
| SetG (value : R)
| SetSoftening (value : R).

Definition run (c : call) (s : state) : state :=
  match c with
  | Reset rnd num => Standalone.reset rnd num s
  | Update => Standalone.update s
  | UpdateCpu => SimulatorCpu.update s
  | UpdateGpu => SimulatorGpu.update s
  | ApplyBoundary rnd condition =>
      Standalone.apply_boundary_conditions rnd condition s
  | ApplyBoundaryBase => Base.apply_boundary_conditions s
  | SetTrailLength value => Standalone.update_trail_length value s
  | SetDt value =>
      mkState (G s) value (softening s) (boundary s) (num_bodies s)
              (positions s) (velocities s) (masses s) (colors s) (trails s)
              (max_trail_length s) (accelerations s)
              (kinetic_energy s) (potential_energy s)
  | SetG value =>
      mkState value (dt s) (softening s) (boundary s) (num_bodies s)
              (positions s) (velocities s) (masses s) (colors s) (trails s)
              (max_trail_length s) (accelerations s)
              (kinetic_energy s) (potential_energy s)
  | SetSoftening value =>
      mkState (G s) (dt s) value (boundary s) (num_bodies s)
              (positions s) (velocities s) (masses s) (colors s) (trails s)
              (max_trail_length s) (accelerations s)
              (kinetic_energy s) (potential_energy s)
  end.

(** The states an engine can be in: built by the constructor, then driven
    by any sequence of calls. *)
Inductive reachable : state -> Prop :=
| reach_init (rnd : random_source) (n : nat) (dt softening boundary : R) :
    reachable (Standalone.init rnd n dt softening boundary)
| reach_call (c : call) (s : state) :
    reachable s -> reachable (run c s).

(** ** States used as concrete inputs *)

(** Two bodies of mass 1 on the x axis, with opposite velocities. *)
Definition two_body : state :=
  mkState 6.67 0.01 0.1 200 2
          [(-1, 0); (1, 0)] [(0, 0.5); (0, -0.5)] [1; 1]
          [(120, 120, 170)%Z; (120, 120, 170)%Z]
          [[]; []] 50 [(0, 0); (0, 0)] 0 0.

(** A generator whose draws lie in the ranges [reset] asks for when it
    creates two bodies. *)
Definition sample_source : random_source :=
  mkRandom (fun k => if (k <? 4)%nat then 10
                     else if (k <? 8)%nat then 0.25
                     else if (k <? 10)%nat then 1 else 15)
           (fun k => (k mod 2)%nat).

(** [two_body] after the trail cap was lowered to 5. *)
Definition two_body_cap5 : state :=
  Standalone.update_trail_length 5 two_body.

(** One body just past the right and the bottom wall of a domain of
    boundary 200, moving outward on both axes. *)
Definition corner_body : state :=
  mkState 6.67 0.01 0.1 200 1
          [(101, -102)] [(1, -2)] [1] [(120, 120, 170)%Z]
          [[]] 50 [(0, 0)] 0 0.

(** One body that overshot the right wall by more than the boundary. *)
Definition overshoot_body : state :=
  mkState 6.67 0.01 0.1 200 1
          [(301, 0)] [(1, 0)] [1] [(120, 120, 170)%Z]
          [[]] 50 [(0, 0)] 0 0.

(** Two bodies at the same point, with the default softening 0.1. *)
Definition coincident_pair : state :=
  mkState 6.67 0.01 0.1 200 2
          [(0, 0); (0, 0)] [(0, 0); (0, 0)] [1; 1]
          [(120, 120, 170)%Z; (120, 120, 170)%Z]
          [[]; []] 50 [(0, 0); (0, 0)] 0 0.

(** One body far outside a domain of boundary 200, and a generator that
    delivers the angle pi/4 and then the two magnitudes 0.1 and 0.4. *)
Definition far_body : state :=
  mkState 6.67 0.01 0.1 200 1
          [(1000, 0)] [(1, 0)] [1] [(120, 120, 170)%Z]
          [[(999, 0); (1000, 0)]] 50 [(0, 0)] 0 0.

Definition skewed_source : random_source :=
  mkRandom (fun k => match k with
                     | O => PI / 4
                     | S O => 0.1
                     | S (S O) => 0.4
                     | _ => 0.25
                     end)
           (fun _ => 0%nat).

(** ** The view and the tick: class SimulationWidget

    The attributes of the widget that its event handlers change, and the
    handlers themselves; both copies of the class (n_body_simulator.py and
    gui/simulation_wiget.py) have the same handlers. *)
Record view : Type := mkView {
  scale_factor : R;
  offset_x : R;
  offset_y : R;
  show_trails : bool;
  show_vectors : bool;
  paused : bool;
  last_mouse_pos : option vec2;
  dragging : bool
}.

Module Widget.

(** The drawing settings set by [__init__]. *)
Definition init : view := mkView 1.0 0 0 true false false None false.

(** [left] says whether the button of the event is the left one, [pos] is
    [event.position()]. *)
Definition mousePressEvent (left : bool) (pos : vec2) (w : view) : view :=
    if left
    then mkView (scale_factor w) (offset_x w) (offset_y w) (show_trails w)
                (show_vectors w) (paused w) (Some pos) true
    else w.

Definition mouseReleaseEvent (left : bool) (w : view) : view :=
    if left
    then mkView (scale_factor w) (offset_x w) (offset_y w) (show_trails w)
                (show_vectors w) (paused w) (last_mouse_pos w) false
    else w.

Definition mouseMoveEvent (pos : vec2) (w : view) : view :=
    match dragging w, last_mouse_pos w with
    | true, Some last =>
        let delta := (fst pos - fst last, snd pos - snd last) in
        mkView (scale_factor w) (offset_x w + fst delta)
               (offset_y w + snd delta) (show_trails w)
               (show_vectors w) (paused w) (Some pos) (dragging w)
    | _, _ => w
    end.

(** [angle_delta_y] is [event.angleDelta().y()]. *)
Definition wheelEvent (angle_delta_y : Z) (w : view) : view :=
    let zoom_factor := 1.1 in
    let sf := if (angle_delta_y >? 0)%Z
              then scale_factor w / zoom_factor
              else scale_factor w * zoom_factor in
    mkView (Rmax 0.1 (Rmin 10.0 sf)) (offset_x w) (offset_y w)
           (show_trails w) (show_vectors w) (paused w)
           (last_mouse_pos w) (dragging w).

Definition toggle_pause (w : view) : view :=
    mkView (scale_factor w) (offset_x w) (offset_y w) (show_trails w)
           (show_vectors w) (negb (paused w)) (last_mouse_pos w) (dragging w).

Definition toggle_trails (w : view) : view :=
    mkView (scale_factor w) (offset_x w) (offset_y w) (negb (show_trails w))
           (show_vectors w) (paused w) (last_mouse_pos w) (dragging w).

Definition toggle_vectors (w : view) : view :=
    mkView (scale_factor w) (offset_x w) (offset_y w) (show_trails w)
           (negb (show_vectors w)) (paused w) (last_mouse_pos w) (dragging w).

Definition reset_view (w : view) : view :=
    mkView 1.0 0 0 (show_trails w) (show_vectors w) (paused w)
           (last_mouse_pos w) (dragging w).

(** The conversion of simulation coordinates to screen coordinates in
    [paintEvent], for a widget of the given width and height showing a
    domain of the given boundary. *)
Definition to_screen (width height boundary : R) (w : view) (p : vec2)
    : vec2 :=
    let scale := Rmin width height / (boundary * scale_factor w) in
    let center_x := width / 2 + offset_x w in
    let center_y := height / 2 + offset_y w in
    (center_x + fst p * scale, center_y - snd p * scale).

(** [update_simulation] of n_body_simulator.py, the slot of the timer: one
    step and one boundary application with the default condition, unless
    paused. *)
Definition update_simulation (rnd : random_source) (w : view) (s : state)
    : state :=
    if negb (paused w)
    then for_range 1 (fun _ s =>
           Standalone.apply_boundary_conditions rnd "bounce"
             (Standalone.update s)) s
    else s.

(** [reset_simulation], the slot of the Reset button ("Reset the
    simulation with current settings"): [self.simulation.reset()]. *)
Definition reset_simulation (rnd : random_source) (s : state) : state :=
    Standalone.reset rnd None s.

End Widget.

(** ** Quantities for the further properties *)

(** The positions body [i] takes in the first [n] steps from [s], oldest
    first. *)
Definition history (s : state) (i n : nat) : list vec2 :=
  map (fun k => nth i (positions (repeat_call k Standalone.update s)) (0, 0))
      (seq 1 n).

(** The number of masses of at least 10. *)
Definition count_heavy (l : list R) : nat :=
  length (filter (fun m => if Rle_dec 10 m then true else false) l).

(** A channel triple that [QColor] accepts. *)
Definition valid_color (c : Z * Z * Z) : Prop :=
  let '(r, g, b) := c in
  (0 <= r <= 255 /\ 0 <= g <= 255 /\ 0 <= b <= 255)%Z.

(** Every body lies in the square [-boundary/2, boundary/2] on both axes. *)
Definition in_domain (s : state) : Prop :=
  Forall (fun p : vec2 =>
            - boundary s / 2 <= fst p <= boundary s / 2
            /\ - boundary s / 2 <= snd p <= boundary s / 2)
         (positions s).

(** The draws of [reset] for [n] bodies lie in the ranges that [reset]
    asks the generator for. *)
Definition reset_draws_in_range (rnd : random_source) (n : nat) : Prop :=
  (forall i, (i < n)%nat -> 0.5 <= uniform rnd (4 * n + i) < 2.0)
  /\ (forall i, (i < Nat.min 3 n)%nat ->
        10 <= uniform rnd (5 * n + i) < 20
        /\ (randint rnd i < n)%nat).

(** [s] with every body moved by the vector [c]. *)
Definition translate (c : vec2) (s : state) : state :=
  mkState (G s) (dt s) (softening s) (boundary s) (num_bodies s)
          (map (fun p => (fst p + fst c, snd p + snd c)) (positions s))
          (velocities s) (masses s) (colors s) (trails s)
          (max_trail_length s) (accelerations s)
          (kinetic_energy s) (potential_energy s).

(** The sum over the unique pairs i < j of G * m_i * m_j / r_ij. *)
Definition pair_potential_sum (s : state) : R :=
  sum (map (fun i =>
              sum (map (fun j => G s * nth i (masses s) 0 * nth j (masses s) 0
                                 / potential_denominator s i j)
                       (seq (i + 1) (num_bodies s - (i + 1)))))
           (seq 0 (num_bodies s))).

(** One body with boundary 200, on the right of the right wall by 30. *)
Definition wall_body : state :=
  mkState 6.67 0.01 0.1 200 1
          [(130, 20)] [(2, -1)] [1] [(120, 120, 170)%Z]
          [[]] 50 [(0, 0)] 0 0.

(** Two bodies 0.1 apart, with the default softening 0.1. *)
Definition close_pair : state :=
  mkState 6.67 0.01 0.1 200 2
          [(0, 0); (0.1, 0)] [(0, 0); (0, 0)] [1; 1]
          [(120, 120, 170)%Z; (120, 120, 170)%Z]
          [[]; []] 50 [(0, 0); (0, 0)] 0 0.

(** [two_body] after some steps: the first body has six trail entries, the
    second one. *)
Definition trailing_pair : state :=
  mkState 6.67 0.01 0.1 200 2
          [(-1, 0); (1, 0)] [(0, 0.5); (0, -0.5)] [1; 1]
          [(120, 120, 170)%Z; (120, 120, 170)%Z]
          [[(0, 0); (1, 1); (2, 2); (3, 3); (4, 4); (5, 5)]; [(9, 9)]]
          50 [(0, 0); (0, 0)] 0 0.

(** * Facts about the array primitives *)

Lemma nth_map_in {A B : Type} (f : A -> B) (a : list A) (j : nat) (da : A)
    (d : B) :
  (j < length a)%nat -> nth j (map f a) d = f (nth j a da).
Proof.
  intros Hj. rewrite (nth_indep _ d (f da)) by (rewrite length_map; exact Hj).
  apply map_nth.
Qed.

Section ArrayFacts.

Context {A : Type}.

Lemma set_item_length (i : nat) (v : A) (a : list A) :
    length (set_item i v a) = length a.
  Proof.
    revert i; induction a as [|h t IH]; intros [|i]; simpl; auto.
  Qed.

Lemma nth_set_item_eq (i : nat) (v d : A) (a : list A) :
    (i < length a)%nat -> nth i (set_item i v a) d = v.
  Proof.
    revert i; induction a as [|h t IH]; intros [|i] Hi; simpl in *;
      try lia; auto.
    apply IH; lia.
  Qed.

Lemma nth_set_item_neq (i j : nat) (v d : A) (a : list A) :
    i <> j -> nth j (set_item i v a) d = nth j a d.
  Proof.
    revert i j; induction a as [|h t IH]; intros [|i] [|j] Hij; simpl;
      auto; try congruence.
  Qed.

Lemma for_range_S {St : Type} (n : nat) (body : nat -> St -> St) (s : St) :
    for_range (S n) body s = body n (for_range n body s).
  Proof.
    unfold for_range. rewrite seq_S, fold_left_app. reflexivity.
  Qed.

  (** A loop that rewrites slot [i] from its own old content touches every
      slot below [n] once and no other. *)
Lemma for_range_set_item_length (f : nat -> A -> A) (d : A) (n : nat)
      (a : list A) :
    length (for_range n (fun i acc => set_item i (f i (nth i acc d)) acc) a)
    = length a.
  Proof.
    induction n as [|n IH].
    - reflexivity.
    - rewrite for_range_S, set_item_length. exact IH.
  Qed.

Lemma for_range_set_item_nth (f : nat -> A -> A) (d : A) (n : nat)
      (a : list A) (j : nat) :
    (n <= length a)%nat ->
    nth j (for_range n (fun i acc => set_item i (f i (nth i acc d)) acc) a) d
    = if (j <? n)%nat then f j (nth j a d) else nth j a d.
  Proof.
    induction n as [|n IH]; intros Hn.
    - reflexivity.
    - rewrite for_range_S.
      destruct (Nat.eq_dec n j) as [->|Hne].
      + rewrite nth_set_item_eq
          by (rewrite for_range_set_item_length; lia).
        rewrite IH by lia.
        rewrite (proj2 (Nat.ltb_ge j j)) by lia.
        rewrite (proj2 (Nat.ltb_lt j (S j))) by lia.
        reflexivity.
      + rewrite nth_set_item_neq by exact Hne.
        rewrite IH by lia.
        destruct (j <? n)%nat eqn:E1, (j <? S n)%nat eqn:E2;
          try reflexivity.
        * apply Nat.ltb_lt in E1. apply Nat.ltb_ge in E2. lia.
        * apply Nat.ltb_ge in E1. apply Nat.ltb_lt in E2. lia.
  Qed.

Lemma for_range_set_item_map (f : nat -> A -> A) (d : A) (a : list A) :
    for_range (length a) (fun i acc => set_item i (f i (nth i acc d)) acc) a
    = map (fun i => f i (nth i a d)) (seq 0 (length a)).
  Proof.
    apply (nth_ext _ _ d (f 0%nat (nth 0 a d))).
    - rewrite for_range_set_item_length, length_map, length_seq. reflexivity.
    - intros j Hj. rewrite for_range_set_item_length in Hj.
      rewrite for_range_set_item_nth by lia.
      rewrite (proj2 (Nat.ltb_lt j (length a))) by exact Hj.
      rewrite (nth_map_in _ _ _ 0%nat) by (rewrite length_seq; exact Hj).
      rewrite seq_nth by exact Hj. reflexivity.
  Qed.

End ArrayFacts.

Lemma zip_with_length {A B C : Type} (f : A -> B -> C) (a : list A)
    (b : list B) :
  length (zip_with f a b) = Nat.min (length a) (length b).
Proof.
  unfold zip_with. rewrite length_map, length_combine. reflexivity.
Qed.

Lemma nth_zip_with {A B C : Type} (f : A -> B -> C) (a : list A)
    (b : list B) (j : nat) (da : A) (db : B) (d : C) :
  (j < length a)%nat -> (j < length b)%nat ->
  nth j (zip_with f a b) d = f (nth j a da) (nth j b db).
Proof.
  revert b j; induction a as [|x a IH]; intros [|y b] [|j] Ha Hb;
    simpl in *; try lia; auto.
  apply IH; lia.
Qed.

(** ** Sums *)

Lemma sum_app (a b : list R) : sum (a ++ b) = sum a + sum b.
Proof.
  induction a as [|x a IH]; simpl.
  - lra.
  - rewrite IH. lra.
Qed.

Lemma sum_map_seq (a : list R) :
  sum a = sum (map (fun j => nth j a 0) (seq 0 (length a))).
Proof.
  induction a as [|x a IH]; simpl.
  - reflexivity.
  - rewrite <- seq_shift, map_map. simpl. rewrite <- IH. reflexivity.
Qed.

Lemma sum_map_ext {I : Type} (f g : I -> R) (l : list I) :
  (forall j, In j l -> f j = g j) -> sum (map f l) = sum (map g l).
Proof.
  intros H. rewrite (map_ext_in f g l H). reflexivity.
Qed.

Lemma sum_map_scal {I : Type} (c : R) (f : I -> R) (l : list I) :
  sum (map (fun j => c * f j) l) = c * sum (map f l).
Proof.
  induction l as [|x l IH]; simpl.
  - lra.
  - rewrite IH. lra.
Qed.

Lemma sum_map_plus {I : Type} (f g : I -> R) (l : list I) :
  sum (map (fun j => f j + g j) l) = sum (map f l) + sum (map g l).
Proof.
  induction l as [|x l IH]; simpl.
  - lra.
  - rewrite IH. lra.
Qed.

Lemma sum_map_filter {I : Type} (p : I -> bool) (f : I -> R) (l : list I) :
  (forall j, In j l -> p j = false -> f j = 0) ->
  sum (map f l) = sum (map f (filter p l)).
Proof.
  induction l as [|x l IH]; intros H; simpl.
  - reflexivity.
  - destruct (p x) eqn:E; simpl.
    + rewrite IH; [reflexivity|]. intros j Hj. apply H. right; exact Hj.
    + rewrite (H x (or_introl eq_refl) E), IH; [lra|].
      intros j Hj. apply H. right; exact Hj.
Qed.

(** A double sum of an antisymmetric table vanishes. *)
Lemma sum_antisymmetric {I : Type} (f : I -> I -> R) (l : list I) :
  (forall i j, f i j = - f j i) ->
  sum (map (fun i => sum (map (fun j => f i j) l)) l) = 0.
Proof.
  intros Hanti. induction l as [|a l IH]; simpl.
  - reflexivity.
  - rewrite (sum_map_plus (fun i => f i a)
                          (fun i => sum (map (fun j => f i j) l)) l).
    rewrite IH.
    rewrite (sum_map_ext (fun i => f i a) (fun i => -1 * f a i) l)
      by (intros j _; rewrite (Hanti j a); lra).
    rewrite sum_map_scal.
    change (map (f a) l) with (map (fun j => f a j) l).
    pose proof (Hanti a a). lra.
Qed.

(** * The force computation *)

Create Rewrite HintDb len.
#[local] Hint Rewrite @zip_with_length @length_map @set_item_length
  @length_seq Nat.min_id : len.

Ltac len :=
  unfold col0, col1, masked_update; autorewrite with len; try lia.

Lemma softened_dist2_sym (e : R) (p q : vec2) :
  softened_dist2 e p q = softened_dist2 e q p.
Proof. unfold softened_dist2. ring. Qed.

Lemma pow_neg_1_5_inv (x : R) : pow_neg_1_5 x = / Rpower x 1.5.
Proof.
  unfold pow_neg_1_5. replace (-1.5) with (- (1.5)) by lra.
  apply Rpower_Ropp.
Qed.

Section Row.

Variable s : state.
Variable i : nat.
Hypothesis Hwf : wf s.
Hypothesis Hi : (i < num_bodies s)%nat.

Let ax := fst (Base.calculate_acceleration s i).
Let ay := snd (Base.calculate_acceleration s i).

Lemma row_length : length ax = num_bodies s /\ length ay = num_bodies s.
  Proof using Hwf.
    clear Hi. destruct Hwf as (Hp & Hv & Hm & Ht & Ha).
    unfold ax, ay, Base.calculate_acceleration; simpl.
    split; len.
  Qed.

Lemma row_nth (j : nat) :
    (j < num_bodies s)%nat ->
    (nth j ax 0, nth j ay 0) = pair_accel s i j.
  Proof using Hwf.
    clear Hi. intros Hj. destruct Hwf as (Hp & Hv & Hm & Ht & Ha).
    unfold ax, ay, Base.calculate_acceleration, pair_accel; simpl.
    rewrite !(nth_zip_with Rmult _ _ j 0 0) by len.
    rewrite !(nth_map_in (Rmult (G s)) _ j 0) by len.
    rewrite !(nth_map_in (fun x => x - _) _ j 0) by len.
    unfold col0, col1.
    rewrite !(nth_map_in _ (positions s) j (0, 0)) by lia.
    destruct (Nat.eqb_spec j i) as [->|Hne].
    - rewrite nth_set_item_eq by len. reflexivity.
    - rewrite nth_set_item_neq by congruence.
      rewrite (nth_zip_with _ _ _ j 0 0) by len.
      rewrite !(nth_map_in (fun x => x - _) _ j 0) by len.
      rewrite !(nth_map_in _ (positions s) j (0, 0)) by lia.
      reflexivity.
  Qed.

Lemma row_self : nth i ax 0 = 0 /\ nth i ay 0 = 0.
  Proof using Hwf Hi.
    pose proof (row_nth i Hi) as H. unfold pair_accel in H.
    rewrite Nat.eqb_refl in H. injection H as H1 H2.
    rewrite H1, H2. split; ring.
  Qed.

Lemma row_sum :
    (sum ax, sum ay)
    = force_contract (positions s) (masses s) (G s) (softening s) i.
  Proof using Hwf Hi.
    pose proof row_length as [Hlx Hly].
    destruct Hwf as (Hp & Hv & Hm & Ht & Ha).
    unfold force_contract, others. rewrite Hp.
    rewrite (sum_map_seq ax), (sum_map_seq ay), Hlx, Hly.
    rewrite (sum_map_filter (fun j => negb (j =? i)%nat)
               (fun j => nth j ax 0)).
    2:{ intros j Hj Hneg. apply negb_false_iff, Nat.eqb_eq in Hneg.
        subst j. apply row_self. }
    rewrite (sum_map_filter (fun j => negb (j =? i)%nat)
               (fun j => nth j ay 0)).
    2:{ intros j Hj Hneg. apply negb_false_iff, Nat.eqb_eq in Hneg.
        subst j. apply row_self. }
    rewrite <- !sum_map_scal.
    f_equal; apply sum_map_ext; intros j Hj;
      apply filter_In in Hj; destruct Hj as [Hj Hneq];
      apply in_seq in Hj; apply negb_true_iff in Hneq;
      assert (Hjn : (j < num_bodies s)%nat) by lia;
      pose proof (row_nth j Hjn) as H; unfold pair_accel in H;
      rewrite Hneq in H; injection H as H1 H2;
      rewrite ?H1, ?H2, pow_neg_1_5_inv; unfold Rdiv; ring.
  Qed.

End Row.

(** The accelerations that [update] of n_body_simulator.py leaves in the
    state: body [i] gets the sums of its row. *)
Lemma standalone_update_accelerations (s : state) :
  wf s ->
  accelerations (Standalone.update s)
  = map (fun i => (0 + sum (fst (Base.calculate_acceleration s i)),
                   0 + sum (snd (Base.calculate_acceleration s i))))
        (seq 0 (num_bodies s)).
Proof.
  intros (Hp & Hv & Hm & Ht & Ha).
  set (acc0 := map (fun _ : vec2 => (0, 0)) (accelerations s)).
  set (F := fun (i : nat) (a : vec2) =>
              (fst a + sum (fst (Base.calculate_acceleration s i)),
               snd a + sum (snd (Base.calculate_acceleration s i)))).
  change (accelerations (Standalone.update s))
    with (for_range (num_bodies s)
            (fun i acc => set_item i (F i (nth i acc (0, 0))) acc) acc0).
  assert (Hl : length acc0 = num_bodies s) by (unfold acc0; len).
  rewrite <- Hl, for_range_set_item_map.
  apply map_ext_in. intros i Hi. apply in_seq in Hi.
  unfold acc0, F. rewrite (nth_map_in _ _ _ (0, 0)) by lia. reflexivity.
Qed.

Lemma set_item_app {A : Type} (pre : list A) (v x : A) (post : list A) :
  set_item (length pre) v (pre ++ x :: post) = pre ++ v :: post.
Proof.
  induction pre as [|h pre IH]; simpl.
  - reflexivity.
  - rewrite IH. reflexivity.
Qed.

(** [for i, acc in enumerate(results): a[i] = acc] overwrites the whole of
    an array as long as [results]. *)
Lemma enumerate_assign {A : Type} (rs : list A) :
  forall (k : nat) (pre mid : list A),
    length pre = k -> length mid = length rs ->
    fold_left (fun a (ir : nat * A) => set_item (fst ir) (snd ir) a)
              (combine (seq k (length rs)) rs) (pre ++ mid)
    = pre ++ rs.
Proof.
  induction rs as [|r rs IH]; intros k pre mid Hk Hmid.
  - destruct mid; [reflexivity | discriminate].
  - destruct mid as [|m mid]; [discriminate|].
    simpl. rewrite <- Hk, set_item_app.
    change (pre ++ r :: mid) with (pre ++ [r] ++ mid).
    change (pre ++ r :: rs) with (pre ++ [r] ++ rs).
    rewrite !app_assoc. apply IH.
    + rewrite length_app. simpl. lia.
    + simpl in Hmid. lia.
Qed.

Lemma cpu_update_accelerations (s : state) :
  wf s ->
  accelerations (SimulatorCpu.update s)
  = map (force_contract (positions s) (masses s) (G s) (softening s))
        (seq 0 (num_bodies s)).
Proof.
  intros (Hp & Hv & Hm & Ht & Ha).
  set (results := map Base.calculate_acceleration_helper
                    (map (fun i => (positions s, masses s, G s, softening s, i))
                         (seq 0 (num_bodies s)))).
  set (acc0 := map (fun _ : vec2 => (0, 0)) (accelerations s)).
  change (accelerations (SimulatorCpu.update s))
    with (fold_left (fun a (ir : nat * vec2) => set_item (fst ir) (snd ir) a)
                    (combine (seq 0 (length results)) results) ([] ++ acc0)).
  rewrite enumerate_assign.
  - unfold results. rewrite map_map. reflexivity.
  - reflexivity.
  - unfold acc0, results. len.
Qed.

Lemma gpu_update_accelerations (s : state) :
  wf s ->
  accelerations (SimulatorGpu.update s)
  = map (fun i =>
           (0 + fst (force_contract (positions s) (masses s) (G s) (softening s) i),
            0 + snd (force_contract (positions s) (masses s) (G s) (softening s) i)))
        (seq 0 (num_bodies s)).
Proof.
  intros (Hp & Hv & Hm & Ht & Ha).
  set (acc0 := map (fun _ : vec2 => (0, 0)) (accelerations s)).
  set (F := fun (i : nat) (a : vec2) =>
              (fst a + fst (force_contract (positions s) (masses s) (G s)
                                           (softening s) i),
               snd a + snd (force_contract (positions s) (masses s) (G s)
                                           (softening s) i))).
  change (accelerations (SimulatorGpu.update s))
    with (for_range (num_bodies s)
            (fun i acc => set_item i (F i (nth i acc (0, 0))) acc) acc0).
  assert (Hl : length acc0 = num_bodies s) by (unfold acc0; len).
  rewrite <- Hl, for_range_set_item_map.
  apply map_ext_in. intros i Hi. apply in_seq in Hi.
  unfold acc0, F. rewrite (nth_map_in _ _ _ (0, 0)) by lia. reflexivity.
Qed.

(** All three backends leave the same accelerations. *)
Lemma backends_accelerations (s : state) :
  wf s ->
  accelerations (Standalone.update s) = accelerations (SimulatorCpu.update s)
  /\ accelerations (SimulatorGpu.update s)
     = accelerations (SimulatorCpu.update s).
Proof.
  intros Hwf.
  rewrite standalone_update_accelerations, cpu_update_accelerations,
    gpu_update_accelerations by exact Hwf.
  split; apply map_ext_in; intros i Hi; apply in_seq in Hi.
  - rewrite <- (row_sum s i Hwf) by lia. f_equal; ring.
  - rewrite (surjective_pairing (force_contract _ _ _ _ i)) at 3.
    f_equal; ring.
Qed.

Lemma standalone_update_integrate (s : state) :
  Standalone.update s = integrate s (accelerations (Standalone.update s)).
Proof. reflexivity. Qed.

Lemma cpu_update_integrate (s : state) :
  SimulatorCpu.update s = integrate s (accelerations (SimulatorCpu.update s)).
Proof. reflexivity. Qed.

Lemma gpu_update_integrate (s : state) :
  SimulatorGpu.update s = integrate s (accelerations (SimulatorGpu.update s)).
Proof. reflexivity. Qed.

Lemma two_body_wf : wf two_body.
Proof. repeat split. Qed.

(** C1: for every body i of a state whose arrays have length N, the
    acceleration that the force computation yields (the row sums of
    [calculate_acceleration] in base_simulation.py, their totals in
    simulator_cpu.py, and the array that [update] of n_body_simulator.py
    fills) is G * sum over j <> i of
    m_j * (r_j - r_i) / (|r_j - r_i|^2 + softening^2)^1.5, and the entry
    j = i of each row is exactly zero; positions, masses, G and softening
    are arbitrary. *)
Theorem force_backend_contract (s : state) (i : nat) :
  wf s -> (i < num_bodies s)%nat ->
  nth i (accelerations (Standalone.update s)) (0, 0)
    = force_contract (positions s) (masses s) (G s) (softening s) i
  /\ (sum (fst (Base.calculate_acceleration s i)),
      sum (snd (Base.calculate_acceleration s i)))
    = force_contract (positions s) (masses s) (G s) (softening s) i
  /\ SimulatorCpu.calculate_acceleration s i
    = force_contract (positions s) (masses s) (G s) (softening s) i
  /\ nth i (fst (Base.calculate_acceleration s i)) 0 = 0
  /\ nth i (snd (Base.calculate_acceleration s i)) 0 = 0.
Proof.
  intros Hwf Hi.
  pose proof (row_sum s i Hwf Hi) as Hrow.
  pose proof (row_self s i Hwf Hi) as [Hx Hy].
  repeat split; try assumption.
  - rewrite standalone_update_accelerations by exact Hwf.
    rewrite (nth_map_in _ _ _ 0%nat) by (rewrite length_seq; exact Hi).
    rewrite seq_nth by exact Hi. simpl (0 + i)%nat.
    rewrite <- Hrow. f_equal; ring.
Qed.

Lemma force_backend_contract_witness :
  wf two_body /\ (0 < num_bodies two_body)%nat /\
  nth 0 (accelerations (Standalone.update two_body)) (0, 0)
  = force_contract (positions two_body) (masses two_body) (G two_body)
                   (softening two_body) 0.
Proof.
  assert (Hwf : wf two_body) by (repeat split).
  assert (Hi : (0 < num_bodies two_body)%nat) by (simpl; lia).
  split; [exact Hwf|]. split; [exact Hi|].
  exact (proj1 (force_backend_contract two_body 0 Hwf Hi)).
Defined.

(** C9: on a state whose arrays have length N the loop of
    simulator_gpu.py, the pool of simulator_cpu.py and the inline loop of
    n_body_simulator.py fill the same acceleration array, hence return the
    same state, in real arithmetic.  The two package backends call
    [calculate_acceleration_helper], which is modelled from the force
    contract. *)
Theorem backend_equivalence (s : state) :
  wf s ->
  accelerations (SimulatorGpu.update s) = accelerations (SimulatorCpu.update s)
  /\ accelerations (Standalone.update s)
     = accelerations (SimulatorCpu.update s)
  /\ SimulatorGpu.update s = SimulatorCpu.update s
  /\ Standalone.update s = SimulatorCpu.update s.
Proof.
  intros Hwf. destruct (backends_accelerations s Hwf) as [Hs Hg].
  repeat split; try assumption.
  - rewrite gpu_update_integrate, cpu_update_integrate, Hg. reflexivity.
  - rewrite standalone_update_integrate, cpu_update_integrate, Hs.
    reflexivity.
Qed.

Lemma backend_equivalence_witness :
  wf two_body /\
  accelerations (SimulatorGpu.update two_body)
  = accelerations (SimulatorCpu.update two_body).
Proof.
  assert (Hwf : wf two_body) by (repeat split).
  split; [exact Hwf|].
  exact (proj1 (backend_equivalence two_body Hwf)).
Defined.

(** * Integration *)

Lemma integrate_accelerations (s : state) (acc : list vec2) :
  accelerations (integrate s acc) = acc.
Proof. reflexivity. Qed.

Lemma integrate_semi_implicit (s : state) (acc : list vec2) (i : nat) :
  wf s -> length acc = num_bodies s -> (i < num_bodies s)%nat ->
  semi_implicit_at s (integrate s acc) i.
Proof.
  intros (Hp & Hv & Hm & Ht & Ha) Hacc Hi.
  unfold semi_implicit_at.
  change (velocities (integrate s acc))
    with (zip_with (fun v a => (fst v + fst a * dt s, snd v + snd a * dt s))
                   (velocities s) acc).
  change (positions (integrate s acc))
    with (zip_with (fun p v => (fst p + fst v * dt s, snd p + snd v * dt s))
                   (positions s)
                   (zip_with (fun v a => (fst v + fst a * dt s,
                                          snd v + snd a * dt s))
                             (velocities s) acc)).
  rewrite integrate_accelerations. cbv zeta.
  split.
  - rewrite (nth_zip_with _ (velocities s) _ i (0, 0) (0, 0)) by lia.
    reflexivity.
  - rewrite (nth_zip_with _ (positions s) _ i (0, 0) (0, 0)) by len.
    reflexivity.
Qed.

Lemma update_accelerations_length (s : state) :
  wf s ->
  length (accelerations (Standalone.update s)) = num_bodies s
  /\ length (accelerations (SimulatorCpu.update s)) = num_bodies s
  /\ length (accelerations (SimulatorGpu.update s)) = num_bodies s.
Proof.
  intros Hwf. destruct (backends_accelerations s Hwf) as [Hs Hg].
  rewrite Hs, Hg, cpu_update_accelerations by exact Hwf.
  repeat split; len.
Qed.

(** C2: one step is a semi-implicit Euler step for every body i: the
    velocity becomes velocity + acceleration * dt, and then the position
    becomes position + (new velocity) * dt; the position update reads the
    updated velocity.  This holds for [update] of n_body_simulator.py, of
    simulator_cpu.py and of simulator_gpu.py. *)
Theorem update_semi_implicit_euler (s : state) (i : nat) :
  wf s -> (i < num_bodies s)%nat ->
  semi_implicit_at s (Standalone.update s) i
  /\ semi_implicit_at s (SimulatorCpu.update s) i
  /\ semi_implicit_at s (SimulatorGpu.update s) i.
Proof.
  intros Hwf Hi.
  destruct (update_accelerations_length s Hwf) as (Ls & Lc & Lg).
  rewrite standalone_update_integrate, cpu_update_integrate,
    gpu_update_integrate.
  repeat split; apply integrate_semi_implicit; assumption.
Qed.

Lemma update_semi_implicit_euler_witness :
  wf two_body /\ (1 < num_bodies two_body)%nat /\
  semi_implicit_at two_body (Standalone.update two_body) 1.
Proof.
  assert (Hwf : wf two_body) by (repeat split).
  assert (Hi : (1 < num_bodies two_body)%nat) by (simpl; lia).
  split; [exact Hwf|]. split; [exact Hi|].
  exact (proj1 (update_semi_implicit_euler two_body 1 Hwf Hi)).
Defined.

(** * Lifecycle *)

Lemma for_range_invariant {St : Type} (P : St -> Prop) (n : nat)
    (body : nat -> St -> St) (s : St) :
  (forall i st, (i < n)%nat -> P st -> P (body i st)) ->
  P s -> P (for_range n body s).
Proof.
  induction n as [|n IH]; intros Hbody Hs.
  - exact Hs.
  - rewrite for_range_S. apply Hbody; [lia|].
    apply IH; [|exact Hs]. intros i st Hi. apply Hbody. lia.
Qed.

Lemma reset_wf (rnd : random_source) (num : option nat) (s : state) :
  wf (Standalone.reset rnd num s).
Proof.
  unfold wf, Standalone.reset; cbn [positions velocities masses trails
    accelerations num_bodies].
  repeat split; len.
  apply (for_range_invariant (fun bm : list R =>
           length bm = match num with Some k => k | None => num_bodies s end)).
  - intros i bm _ H. rewrite set_item_length. exact H.
  - len.
Qed.

Lemma base_reset_eq (rnd : random_source) (num : option nat) (s : state) :
  Base.reset rnd num s = Standalone.reset rnd num s.
Proof. reflexivity. Qed.

Lemma reset_trails_empty (rnd : random_source) (num : option nat)
    (s : state) :
  Forall (fun t => t = []) (trails (Standalone.reset rnd num s)).
Proof.
  unfold Standalone.reset; cbn [trails].
  apply Forall_forall. intros t Ht. apply in_map_iff in Ht.
  destruct Ht as (i & <- & _). reflexivity.
Qed.

(** What [reset] of n_body_simulator.py and of base_simulation.py does
    to the whole state: it rebuilds positions, velocities, masses, colors,
    trails (all empty), accelerations (all zero) and energies (zero) at
    the requested size, keeps G, dt, softening and boundary, and sets
    max_trail_length to 50 whatever it was. *)
Theorem reset_keeps_parameters (rnd : random_source) (num : option nat)
    (s : state) :
  let s' := Standalone.reset rnd num s in
  Base.reset rnd num s = s'
  /\ G s' = G s /\ dt s' = dt s /\ softening s' = softening s
  /\ boundary s' = boundary s
  /\ max_trail_length s' = 50%nat
  /\ num_bodies s' = match num with Some k => k | None => num_bodies s end
  /\ wf s'
  /\ length (colors s') = num_bodies s'
  /\ Forall (fun t => t = []) (trails s')
  /\ Forall (fun a => a = (0, 0)) (accelerations s')
  /\ kinetic_energy s' = 0 /\ potential_energy s' = 0.
Proof.
  intros s'. pose proof (reset_wf rnd num s) as Hwf.
  repeat split; try apply Hwf; try reflexivity.
  - destruct Hwf as (_ & _ & Hm & _). unfold s', Standalone.reset in *.
    cbn [colors masses num_bodies] in *. rewrite length_map. exact Hm.
  - unfold s', Standalone.reset; cbn [trails].
    apply Forall_forall. intros t Ht. apply in_map_iff in Ht.
    destruct Ht as (i & <- & _). reflexivity.
  - unfold s', Standalone.reset; cbn [accelerations].
    apply Forall_forall. intros a Ha. apply in_map_iff in Ha.
    destruct Ha as (i & <- & _). reflexivity.
Qed.

(** With the cap lowered to 5, [reset] does not leave all five parameters
    as they were; the cap is 50 afterwards. *)
Lemma reset_overwrites_trail_cap :
  let s := two_body_cap5 in
  let s' := Standalone.reset sample_source (Some 2%nat) s in
  ~ (G s' = G s /\ dt s' = dt s /\ softening s' = softening s
     /\ boundary s' = boundary s
     /\ max_trail_length s' = max_trail_length s).
Proof.
  intros s s' (_ & _ & _ & _ & H). discriminate H.
Qed.

(** C3 at a concrete input: an engine whose trail cap the caller lowered
    to 5 (two bodies).  After [reset], called with a number of bodies or,
    as the Reset button does, without, G, dt, softening and boundary are
    those before the call, as C3 says, but max_trail_length is 50 and no
    longer 5: [reset] of n_body_simulator.py and of base_simulation.py
    assigns the cap anew, so the cap does not persist. *)
Theorem reset_forgets_trail_cap :
  let s := two_body_cap5 in
  let by_number := Standalone.reset sample_source (Some 2%nat) s in
  let by_button := Widget.reset_simulation sample_source s in
  max_trail_length s = 5%nat
  /\ max_trail_length by_number = 50%nat
  /\ max_trail_length by_button = 50%nat
  /\ max_trail_length (Base.reset sample_source (Some 2%nat) s) = 50%nat
  /\ (G by_number = G s /\ dt by_number = dt s
      /\ softening by_number = softening s
      /\ boundary by_number = boundary s)
  /\ (G by_button = G s /\ dt by_button = dt s
      /\ softening by_button = softening s
      /\ boundary by_button = boundary s)
  /\ max_trail_length by_number <> max_trail_length s
  /\ max_trail_length by_button <> max_trail_length s.
Proof.
  cbv zeta. repeat split; try reflexivity; intros H; discriminate H.
Qed.

(** * Trails *)

Lemma push_trail_bounded (cap : nat) (t : list vec2) (p : vec2) :
  (length t <= cap)%nat -> (length (push_trail cap t p) <= cap)%nat.
Proof.
  intros Ht. unfold push_trail.
  destruct (Nat.ltb_spec cap (length (t ++ [p]))) as [Hgt|Hle].
  - destruct t as [|x t]; simpl in *.
    + lia.
    + rewrite length_app in *. simpl in *. lia.
  - exact Hle.
Qed.

Lemma push_trail_growth (cap : nat) (t : list vec2) (p : vec2) :
  (length (push_trail cap t p) <= S (length t))%nat.
Proof.
  unfold push_trail.
  destruct (cap <? length (t ++ [p]))%nat.
  - destruct t as [|x t]; simpl; [lia|].
    rewrite length_app. simpl. lia.
  - rewrite length_app. simpl. lia.
Qed.

(** When the cap is exceeded, the entry that goes is the oldest one and
    the new position is the last entry. *)
Lemma push_trail_fifo (cap : nat) (x : vec2) (t : list vec2) (p : vec2) :
  (length (x :: t) <= cap)%nat ->
  push_trail cap (x :: t) p
  = if (length (x :: t) =? cap)%nat then t ++ [p] else x :: t ++ [p].
Proof.
  intros Ht. unfold push_trail.
  change ((x :: t) ++ [p]) with (x :: (t ++ [p])).
  change (length (x :: t ++ [p])) with (S (length (t ++ [p]))).
  change (length (x :: t)) with (S (length t)) in *.
  rewrite length_app. change (length [p]) with 1%nat.
  destruct (Nat.ltb_spec cap (S (length t + 1))),
           (Nat.eqb_spec (S (length t)) cap); try reflexivity; lia.
Qed.

Lemma pop_while_longer_length {A : Type} (value : nat) (t : list A) :
  (length (Standalone.pop_while_longer value t) <= value)%nat.
Proof.
  induction t as [|x t IH]; simpl.
  - lia.
  - destruct (Nat.ltb_spec value (S (length t))).
    + exact IH.
    + simpl. lia.
Qed.

(** Trimming drops entries from the front only. *)
Lemma pop_while_longer_suffix {A : Type} (value : nat) (t : list A) :
  Standalone.pop_while_longer value t = skipn (length t - value) t.
Proof.
  induction t as [|x t IH].
  - reflexivity.
  - cbn [Standalone.pop_while_longer length].
    destruct (Nat.ltb_spec value (S (length t))).
    + rewrite IH. replace (S (length t) - value)%nat
        with (S (length t - value)) by lia. reflexivity.
    + replace (S (length t) - value)%nat with 0%nat by lia. reflexivity.
Qed.

(** The cap at work on short trails: below the cap a trail grows, at the
    cap the first entry leaves, and the setter trims from the front. *)
Example push_trail_below_cap :
  push_trail 3 [(0, 0); (1, 1)] (2, 2) = [(0, 0); (1, 1); (2, 2)].
Proof. reflexivity. Qed.

Example push_trail_at_cap :
  push_trail 2 [(0, 0); (1, 1)] (2, 2) = [(1, 1); (2, 2)].
Proof. reflexivity. Qed.

Example push_trail_cap_zero : push_trail 0 [] (2, 2) = [].
Proof. reflexivity. Qed.

Example pop_while_longer_trims :
  Standalone.pop_while_longer 2 [(0, 0); (1, 1); (2, 2); (3, 3)]
  = [(2, 2); (3, 3)].
Proof. reflexivity. Qed.

Example where_true_indices :
  where_true [false; true; true; false; true] = [1; 2; 4]%nat.
Proof. reflexivity. Qed.

Lemma integrate_trails (s : state) (acc : list vec2) :
  wf s ->
  trails (integrate s acc)
  = map (fun i => push_trail (max_trail_length s) (nth i (trails s) [])
                             (nth i (positions (integrate s acc)) (0, 0)))
        (seq 0 (num_bodies s)).
Proof.
  intros (Hp & Hv & Hm & Ht & Ha).
  set (pos := positions (integrate s acc)).
  change (trails (integrate s acc))
    with (for_range (num_bodies s)
            (fun i tr =>
               set_item i ((fun i t => push_trail (max_trail_length s) t
                                                  (nth i pos (0, 0)))
                             i (nth i tr [])) tr)
            (trails s)).
  rewrite <- Ht.
  apply (for_range_set_item_map
           (fun i t => push_trail (max_trail_length s) t (nth i pos (0, 0)))
           [] (trails s)).
Qed.

Lemma integrate_wf (s : state) (acc : list vec2) :
  wf s -> length acc = num_bodies s -> wf (integrate s acc).
Proof.
  intros Hwf Hacc. pose proof (integrate_trails s acc Hwf) as Htr.
  destruct Hwf as (Hp & Hv & Hm & Ht & Ha).
  unfold wf. rewrite Htr.
  unfold integrate, Standalone.calculate_energy;
    cbn [positions velocities masses accelerations num_bodies].
  repeat split; len.
Qed.

Lemma integrate_trail_bounded (s : state) (acc : list vec2) :
  wf s -> trail_bounded s -> trail_bounded (integrate s acc).
Proof.
  intros Hwf Hb. unfold trail_bounded.
  rewrite integrate_trails by exact Hwf.
  change (max_trail_length (integrate s acc)) with (max_trail_length s).
  apply Forall_forall. intros t Ht. apply in_map_iff in Ht.
  destruct Ht as (i & <- & Hi). apply in_seq in Hi.
  apply push_trail_bounded.
  destruct Hwf as (_ & _ & _ & Hlen & _).
  unfold trail_bounded in Hb. rewrite Forall_forall in Hb.
  apply Hb, nth_In. lia.
Qed.

Lemma update_trail_length_trails (value : nat) (s : state) :
  wf s ->
  trails (Standalone.update_trail_length value s)
  = map (fun i => Standalone.pop_while_longer value (nth i (trails s) []))
        (seq 0 (num_bodies s)).
Proof.
  intros (Hp & Hv & Hm & Ht & Ha).
  change (trails (Standalone.update_trail_length value s))
    with (for_range (num_bodies s)
            (fun i tr =>
               set_item i ((fun (_ : nat) t =>
                              Standalone.pop_while_longer value t)
                             i (nth i tr [])) tr)
            (trails s)).
  rewrite <- Ht.
  apply (for_range_set_item_map
           (fun (_ : nat) t => Standalone.pop_while_longer value t)
           [] (trails s)).
Qed.

Lemma update_trail_length_wf (value : nat) (s : state) :
  wf s -> wf (Standalone.update_trail_length value s).
Proof.
  intros Hwf. pose proof (update_trail_length_trails value s Hwf) as Htr.
  destruct Hwf as (Hp & Hv & Hm & Ht & Ha).
  unfold wf. rewrite Htr.
  unfold Standalone.update_trail_length;
    cbn [positions velocities masses accelerations num_bodies].
  repeat split; len.
Qed.

Lemma update_trail_length_bounded (value : nat) (s : state) :
  wf s -> trail_bounded (Standalone.update_trail_length value s).
Proof.
  intros Hwf. unfold trail_bounded.
  rewrite update_trail_length_trails by exact Hwf.
  apply Forall_forall. intros t Ht. apply in_map_iff in Ht.
  destruct Ht as (i & <- & _).
  apply pop_while_longer_length.
Qed.

(** * Boundary conditions *)

Lemma nth_masked_update {A : Type} (mask : list bool) (f : A -> A)
    (a : list A) (i : nat) (d : A) :
  (i < length mask)%nat -> (i < length a)%nat ->
  nth i (masked_update mask f a) d
  = if nth i mask false then f (nth i a d) else nth i a d.
Proof.
  intros Hm Ha. unfold masked_update.
  apply (nth_zip_with (fun (m : bool) x => if m then f x else x)); assumption.
Qed.

Lemma masked_update_length {A : Type} (mask : list bool) (f : A -> A)
    (a : list A) :
  length mask = length a -> length (masked_update mask f a) = length a.
Proof.
  intros H. unfold masked_update. rewrite zip_with_length. lia.
Qed.

Lemma Forall_set_item {A : Type} (P : A -> Prop) (i : nat) (v : A)
    (a : list A) :
  Forall P a -> P v -> Forall P (set_item i v a).
Proof.
  intros Ha Hv. revert i.
  induction Ha as [|x a Hx Ha IH]; intros [|i]; simpl; auto.
Qed.

Lemma replace_too_far_lengths (rnd : random_source) (b : R)
    (idxs : list nat) :
  forall (k : nat) (pos vel : list vec2) (tr : list (list vec2)),
    let r := Standalone.replace_too_far rnd k idxs b pos vel tr in
    length (fst (fst r)) = length pos
    /\ length (snd (fst r)) = length vel
    /\ length (snd r) = length tr.
Proof.
  induction idxs as [|i idxs IH]; intros k pos vel tr; simpl.
  - auto.
  - specialize (IH (k + 3)%nat
      (set_item i (cos (uniform rnd k) * (b / 2 * 0.9),
                   sin (uniform rnd k) * (b / 2 * 0.9)) pos)
      (set_item i (- cos (uniform rnd k) * uniform rnd (k + 1),
                   - sin (uniform rnd k) * uniform rnd (k + 2)) vel)
      (set_item i [] tr)).
    simpl in IH. rewrite !set_item_length in IH. exact IH.
Qed.

Lemma replace_too_far_trails (rnd : random_source) (b : R)
    (P : list vec2 -> Prop) (idxs : list nat) :
  P [] ->
  forall (k : nat) (pos vel : list vec2) (tr : list (list vec2)),
    Forall P tr ->
    Forall P (snd (Standalone.replace_too_far rnd k idxs b pos vel tr)).
Proof.
  intros Hnil. induction idxs as [|i idxs IH]; intros k pos vel tr Htr; simpl.
  - exact Htr.
  - apply IH. apply Forall_set_item; assumption.
Qed.

Ltac by_condition condition :=
  unfold Standalone.apply_boundary_conditions;
  destruct (String.eqb condition "bounce");
  [ | destruct (String.eqb condition "periodic");
      [ | destruct (String.eqb condition "open") ] ].

Lemma apply_boundary_wf (rnd : random_source) (condition : string)
    (s : state) :
  wf s -> wf (Standalone.apply_boundary_conditions rnd condition s).
Proof.
  intros Hwf. pose proof Hwf as (Hp & Hv & Hm & Ht & Ha).
  by_condition condition.
  - unfold wf; cbn [positions velocities masses trails accelerations
      num_bodies].
    repeat split; try assumption;
      repeat (rewrite masked_update_length; len).
  - unfold wf; cbn [positions velocities masses trails accelerations
      num_bodies].
    repeat split; try assumption. len.
  - pose proof (replace_too_far_lengths rnd (boundary s)
      (where_true (map (fun p => gtb (sqrt (fst p ^ 2 + snd p ^ 2))
                                     (boundary s * 2)) (positions s)))
      0 (positions s) (velocities s) (trails s)) as H.
    destruct (Standalone.replace_too_far _ _ _ _ _ _ _) as [[pos' vel'] tr'].
    simpl in H. destruct H as (H1 & H2 & H3).
    unfold wf; cbn [positions velocities masses trails accelerations
      num_bodies].
    repeat split; congruence.
  - exact Hwf.
Qed.

Lemma apply_boundary_trail_bounded (rnd : random_source) (condition : string)
    (s : state) :
  trail_bounded s ->
  trail_bounded (Standalone.apply_boundary_conditions rnd condition s).
Proof.
  intros Hb. by_condition condition; try exact Hb.
  pose proof (replace_too_far_trails rnd (boundary s)
    (fun t => (length t <= max_trail_length s)%nat)
    (where_true (map (fun p => gtb (sqrt (fst p ^ 2 + snd p ^ 2))
                                   (boundary s * 2)) (positions s)))
    (Nat.le_0_l _) 0 (positions s) (velocities s) (trails s) Hb) as H.
  destruct (Standalone.replace_too_far _ _ _ _ _ _ _) as [[pos' vel'] tr'].
  exact H.
Qed.

Lemma base_apply_boundary_wf (s : state) :
  wf s -> wf (Base.apply_boundary_conditions s).
Proof.
  intros (Hp & Hv & Hm & Ht & Ha).
  unfold wf, Base.apply_boundary_conditions;
    cbn [positions velocities masses trails accelerations num_bodies].
  repeat split; try assumption.
  apply (for_range_invariant
           (fun vel : list vec2 => length vel = num_bodies s));
    [|exact Hv].
  intros i vel _ Hvel.
  repeat match goal with
         | |- context [if ?c then _ else _] => destruct c
         end; rewrite ?set_item_length; exact Hvel.
Qed.

(** Every call keeps the arrays at length N and the trails within the
    cap. *)
Lemma run_invariant (c : call) (s : state) :
  wf s /\ trail_bounded s -> wf (run c s) /\ trail_bounded (run c s).
Proof.
  intros [Hwf Hb].
  destruct (update_accelerations_length s Hwf) as (Ls & Lc & Lg).
  destruct c; cbn [run].
  - split; [apply reset_wf|].
    apply (Forall_impl _ (P := fun t => t = [])).
    + intros t ->. apply Nat.le_0_l.
    + apply reset_trails_empty.
  - rewrite standalone_update_integrate.
    split; [apply integrate_wf | apply integrate_trail_bounded]; assumption.
  - rewrite cpu_update_integrate.
    split; [apply integrate_wf | apply integrate_trail_bounded]; assumption.
  - rewrite gpu_update_integrate.
    split; [apply integrate_wf | apply integrate_trail_bounded]; assumption.
  - split; [apply apply_boundary_wf | apply apply_boundary_trail_bounded];
      assumption.
  - split; [apply base_apply_boundary_wf; exact Hwf | exact Hb].
  - split; [apply update_trail_length_wf | apply update_trail_length_bounded];
      assumption.
  - split; assumption.
  - split; assumption.
  - split; assumption.
Qed.

Lemma integrate_trail_nth (s : state) (acc : list vec2) (i : nat) :
  wf s -> (i < num_bodies s)%nat ->
  nth i (trails (integrate s acc)) []
  = push_trail (max_trail_length s) (nth i (trails s) [])
               (nth i (positions (integrate s acc)) (0, 0)).
Proof.
  intros Hwf Hi. rewrite integrate_trails by exact Hwf.
  rewrite (nth_map_in _ _ _ 0%nat) by (rewrite length_seq; exact Hi).
  rewrite seq_nth by exact Hi. reflexivity.
Qed.

Lemma reachable_invariant (s : state) :
  reachable s -> wf s /\ trail_bounded s.
Proof.
  induction 1 as [rnd n dt0 e b | c s Hs IH].
  - split; [apply reset_wf|].
    apply (Forall_impl _ (P := fun t => t = [])).
    + intros t ->. apply Nat.le_0_l.
    + apply reset_trails_empty.
  - apply run_invariant. exact IH.
Qed.

(** C4: in every state an engine can reach, every trail is within
    max_trail_length, and this survives every further call.  One step, by
    [update] of n_body_simulator.py, of simulator_cpu.py or of
    simulator_gpu.py, appends the body's new position to its trail and, if
    the length then exceeds the cap, removes one entry, the first
    (oldest), so a trail grows by at most one entry per step.  The setter
    of the cap trims at once, dropping from the front. *)
Theorem trail_cap_invariant (s : state) :
  reachable s ->
  trail_bounded s
  /\ (forall c, trail_bounded (run c s))
  /\ (forall (update : state -> state) i,
        update = Standalone.update \/ update = SimulatorCpu.update
        \/ update = SimulatorGpu.update ->
        (i < num_bodies s)%nat ->
        let s' := update s in
        let t := nth i (trails s) [] ++ [nth i (positions s') (0, 0)] in
        nth i (trails s') []
          = (if (max_trail_length s <? length t)%nat then tl t else t)
        /\ (length (nth i (trails s') [])
            <= S (length (nth i (trails s) [])))%nat
        /\ (length (nth i (trails s') []) <= max_trail_length s)%nat)
  /\ (forall value,
        let s' := Standalone.update_trail_length value s in
        max_trail_length s' = value
        /\ trail_bounded s'
        /\ forall i, (i < num_bodies s)%nat ->
             nth i (trails s') []
             = skipn (length (nth i (trails s) []) - value)
                     (nth i (trails s) [])).
Proof.
  intros Hr. destruct (reachable_invariant s Hr) as [Hwf Hb].
  split; [exact Hb|]. split; [|split].
  - intros c. apply run_invariant. split; assumption.
  - intros update i Hu Hi s' t.
    assert (Hold : (length (nth i (trails s) []) <= max_trail_length s)%nat).
    { unfold trail_bounded in Hb. rewrite Forall_forall in Hb.
      apply Hb, nth_In. destruct Hwf as (_ & _ & _ & Ht & _). lia. }
    assert (E : nth i (trails s') []
                = push_trail (max_trail_length s) (nth i (trails s) [])
                             (nth i (positions s') (0, 0))).
    { unfold s'. destruct Hu as [-> | [-> | ->]].
      - rewrite standalone_update_integrate.
        apply integrate_trail_nth; assumption.
      - rewrite cpu_update_integrate.
        apply integrate_trail_nth; assumption.
      - rewrite gpu_update_integrate.
        apply integrate_trail_nth; assumption. }
    split; [exact E|]. rewrite E. split.
    + apply push_trail_growth.
    + apply push_trail_bounded. exact Hold.
  - intros value s'. split; [reflexivity|].
    split; [apply update_trail_length_bounded; exact Hwf|].
    intros i Hi. unfold s'.
    rewrite update_trail_length_trails by exact Hwf.
    rewrite (nth_map_in _ _ _ 0%nat) by (rewrite length_seq; exact Hi).
    rewrite seq_nth by exact Hi. apply pop_while_longer_suffix.
Qed.

Lemma trail_cap_invariant_witness :
  let s := run Update (Standalone.init sample_source 2 0.01 0.1 200) in
  reachable s /\ trail_bounded s.
Proof.
  intros s.
  assert (Hr : reachable s) by (apply reach_call, reach_init).
  split; [exact Hr|].
  exact (proj1 (trail_cap_invariant s Hr)).
Defined.

(** ** Bounce *)

Lemma bounce_nth (rnd : random_source) (s : state) (i : nat) :
  wf s -> (i < num_bodies s)%nat ->
  let b := boundary s in
  let s' := Standalone.apply_boundary_conditions rnd "bounce" s in
  let p := nth i (positions s) (0, 0) in
  let v := nth i (velocities s) (0, 0) in
  let x1 := if gtb (fst p) (b / 2) then b - fst p else fst p in
  let y1 := if gtb (snd p) (b / 2) then b - snd p else snd p in
  let vx1 := if gtb (fst p) (b / 2) then fst v * -0.9 else fst v in
  let vy1 := if gtb (snd p) (b / 2) then snd v * -0.9 else snd v in
  nth i (positions s') (0, 0)
    = (if ltb (fst p) (- b / 2) then - b - x1 else x1,
       if ltb (snd p) (- b / 2) then - b - y1 else y1)
  /\ nth i (velocities s') (0, 0)
    = (if ltb (fst p) (- b / 2) then vx1 * -0.9 else vx1,
       if ltb (snd p) (- b / 2) then vy1 * -0.9 else vy1).
Proof.
  intros (Hp & Hv & Hm & Ht & Ha) Hi b s' p v x1 y1 vx1 vy1.
  unfold s', Standalone.apply_boundary_conditions.
  cbn [String.eqb Ascii.eqb Bool.eqb positions velocities].
  fold b.
  repeat (rewrite nth_masked_update by len).
  unfold col0, col1.
  repeat (rewrite (nth_map_in _ _ i 0 false) by len).
  repeat (rewrite (nth_map_in _ _ i (0, 0) 0) by len).
  repeat (rewrite nth_masked_update by len).
  repeat (rewrite (nth_map_in _ _ i 0 false) by len).
  repeat (rewrite (nth_map_in _ _ i (0, 0) 0) by len).
  fold p v. unfold x1, y1, vx1, vy1.
  destruct (gtb (fst p) (b / 2)), (ltb (fst p) (- b / 2));
    cbn [fst snd];
    destruct (gtb (snd p) (b / 2)), (ltb (snd p) (- b / 2));
    cbn [fst snd]; split; apply injective_projections; reflexivity.
Qed.

(** C5: bounce mode of n_body_simulator.py, for a body i and each axis on
    its own, with boundary >= 0: a coordinate above +boundary/2 becomes
    boundary - coordinate and the velocity on that axis is negated and
    scaled by 0.9; a coordinate below -boundary/2 becomes
    -boundary - coordinate with the same velocity treatment; a coordinate
    within [-boundary/2, boundary/2] keeps its position and velocity.  The
    six statements hold together, so both axes can bounce in one call. *)
Theorem bounce_per_axis (rnd : random_source) (s : state) (i : nat) :
  wf s -> (i < num_bodies s)%nat -> 0 <= boundary s ->
  let b := boundary s in
  let s' := Standalone.apply_boundary_conditions rnd "bounce" s in
  let p := nth i (positions s) (0, 0) in
  let v := nth i (velocities s) (0, 0) in
  let p' := nth i (positions s') (0, 0) in
  let v' := nth i (velocities s') (0, 0) in
  (fst p > b / 2 -> fst p' = b - fst p /\ fst v' = - (0.9 * fst v))
  /\ (fst p < - b / 2 -> fst p' = - b - fst p /\ fst v' = - (0.9 * fst v))
  /\ (- b / 2 <= fst p <= b / 2 -> fst p' = fst p /\ fst v' = fst v)
  /\ (snd p > b / 2 -> snd p' = b - snd p /\ snd v' = - (0.9 * snd v))
  /\ (snd p < - b / 2 -> snd p' = - b - snd p /\ snd v' = - (0.9 * snd v))
  /\ (- b / 2 <= snd p <= b / 2 -> snd p' = snd p /\ snd v' = snd v).
Proof.
  intros Hwf Hi Hb b s' p v p' v'.
  destruct (bounce_nth rnd s i Hwf Hi) as [Ep Ev].
  fold b s' p v in Ep, Ev. fold p' in Ep. fold v' in Ev.
  rewrite Ep, Ev. cbn [fst snd]. unfold gtb, ltb. fold b in Hb.
  destruct (Rgt_dec (fst p) (b / 2)), (Rlt_dec (fst p) (- b / 2)),
           (Rgt_dec (snd p) (b / 2)), (Rlt_dec (snd p) (- b / 2));
    repeat split; intros; lra.
Qed.

Lemma bounce_per_axis_witness :
  let s := corner_body in
  let s' := Standalone.apply_boundary_conditions sample_source "bounce" s in
  wf s /\ (0 < num_bodies s)%nat /\ 0 <= boundary s
  /\ fst (nth 0 (positions s') (0, 0))
     = boundary s - fst (nth 0 (positions s) (0, 0))
  /\ snd (nth 0 (velocities s') (0, 0))
     = - (0.9 * snd (nth 0 (velocities s) (0, 0))).
Proof.
  intros s s'.
  assert (Hwf : wf s) by (repeat split).
  assert (Hi : (0 < num_bodies s)%nat) by (simpl; lia).
  assert (Hb : 0 <= boundary s) by (simpl; lra).
  destruct (bounce_per_axis sample_source s 0 Hwf Hi Hb)
    as (Hx & _ & _ & _ & Hy & _).
  split; [exact Hwf|]. split; [exact Hi|]. split; [exact Hb|].
  split.
  - apply Hx. simpl. lra.
  - apply Hy. simpl. lra.
Defined.

(** C10: one bounce does not always bring a body back: with boundary >= 0,
    a body whose coordinate on an axis is above 3*boundary/2 is reflected
    to boundary - coordinate, which is below -boundary/2, outside the
    domain. *)
Theorem bounce_overshoot_stays_outside (rnd : random_source) (s : state)
    (i : nat) :
  wf s -> (i < num_bodies s)%nat -> 0 <= boundary s ->
  let b := boundary s in
  let s' := Standalone.apply_boundary_conditions rnd "bounce" s in
  let p := nth i (positions s) (0, 0) in
  let p' := nth i (positions s') (0, 0) in
  (fst p > 3 * b / 2 -> fst p' = b - fst p /\ fst p' < - b / 2)
  /\ (snd p > 3 * b / 2 -> snd p' = b - snd p /\ snd p' < - b / 2).
Proof.
  intros Hwf Hi Hb b s' p p'.
  destruct (bounce_nth rnd s i Hwf Hi) as [Ep _].
  fold b s' p in Ep. fold p' in Ep.
  rewrite Ep. cbn [fst snd]. unfold gtb, ltb. fold b in Hb.
  destruct (Rgt_dec (fst p) (b / 2)), (Rlt_dec (fst p) (- b / 2)),
           (Rgt_dec (snd p) (b / 2)), (Rlt_dec (snd p) (- b / 2));
    repeat split; intros; lra.
Qed.

Lemma bounce_overshoot_stays_outside_witness :
  let s := overshoot_body in
  let s' := Standalone.apply_boundary_conditions sample_source "bounce" s in
  wf s /\ (0 < num_bodies s)%nat /\ 0 <= boundary s
  /\ fst (nth 0 (positions s) (0, 0)) > 3 * boundary s / 2
  /\ fst (nth 0 (positions s') (0, 0)) < - boundary s / 2.
Proof.
  intros s s'.
  assert (Hwf : wf s) by (repeat split).
  assert (Hi : (0 < num_bodies s)%nat) by (simpl; lia).
  assert (Hb : 0 <= boundary s) by (simpl; lra).
  assert (Hx : fst (nth 0 (positions s) (0, 0)) > 3 * boundary s / 2)
    by (simpl; lra).
  split; [exact Hwf|]. split; [exact Hi|]. split; [exact Hb|].
  split; [exact Hx|].
  exact (proj2 (proj1 (bounce_overshoot_stays_outside sample_source s 0
                         Hwf Hi Hb) Hx)).
Defined.

(** * Softening *)

Lemma Rpower_1_5 (x : R) : 0 < x -> Rpower x 1.5 = x * sqrt x.
Proof.
  intros Hx. replace 1.5 with (1 + / 2) by lra.
  rewrite Rpower_plus, Rpower_1, Rpower_sqrt by exact Hx. reflexivity.
Qed.

Lemma softened_dist2_lower (e : R) (p q : vec2) :
  e ^ 2 <= softened_dist2 e p q.
Proof.
  unfold softened_dist2.
  pose proof (pow2_ge_0 (fst q - fst p)).
  pose proof (pow2_ge_0 (snd q - snd p)). lra.
Qed.

Lemma sqrt_softened_lower (e x : R) : 0 < e -> e ^ 2 <= x -> e <= sqrt x.
Proof.
  intros He Hx.
  rewrite <- (sqrt_pow2 e) at 1 by lra.
  apply sqrt_le_1_alt. exact Hx.
Qed.

(** The code's [inv_r3] is one over the denominator of the force law. *)
Lemma inv_r3_denominator (s : state) (i j : nat) :
  pow_neg_1_5 (softened_dist2 (softening s) (nth i (positions s) (0, 0))
                              (nth j (positions s) (0, 0)))
  = / accel_denominator s i j.
Proof. apply pow_neg_1_5_inv. Qed.

(** The potential energy that [calculate_energy] stores divides by
    [potential_denominator]. *)
Lemma potential_energy_denominators (s : state) :
  potential_energy (Standalone.calculate_energy s)
  = for_range (num_bodies s) (fun i pe =>
      for_range_from (i + 1) (num_bodies s) (fun j pe =>
        pe - G s * nth i (masses s) 0 * nth j (masses s) 0
             / potential_denominator s i j) pe) 0.
Proof. reflexivity. Qed.

(** The bounds alone: with softening > 0, for any two bodies i, j
    (equal or coincident ones included) the sum dx^2 + dy^2 + softening^2
    is at least softening^2 > 0, the denominator of the force law (its
    power 1.5) is at least softening^3 > 0, and the denominator of the
    potential energy (its square root) is at least softening > 0: no
    division by zero, no root or power of a negative number. *)
Theorem softened_denominators (s : state) (i j : nat) :
  0 < softening s ->
  let e := softening s in
  let base := softened_dist2 e (nth i (positions s) (0, 0))
                             (nth j (positions s) (0, 0)) in
  e ^ 2 <= base /\ 0 < base
  /\ e ^ 3 <= accel_denominator s i j /\ 0 < accel_denominator s i j
  /\ e <= potential_denominator s i j /\ 0 < potential_denominator s i j.
Proof.
  intros He e base. fold e in He.
  assert (Hb : e ^ 2 <= base) by apply softened_dist2_lower.
  assert (He2 : 0 < e ^ 2) by (apply pow_lt; exact He).
  assert (Hpos : 0 < base) by lra.
  assert (Hs : e <= sqrt base) by (apply sqrt_softened_lower; assumption).
  assert (Ha : e ^ 3 <= accel_denominator s i j).
  { unfold accel_denominator. fold e base. rewrite Rpower_1_5 by exact Hpos.
    replace (e ^ 3) with (e ^ 2 * e) by ring.
    apply Rmult_le_compat; lra. }
  assert (Hp : e <= potential_denominator s i j).
  { unfold potential_denominator. fold e. cbv zeta.
    apply sqrt_softened_lower; [exact He|].
    pose proof (pow2_ge_0 (fst (nth i (positions s) (0, 0))
                           - fst (nth j (positions s) (0, 0)))).
    pose proof (pow2_ge_0 (snd (nth i (positions s) (0, 0))
                           - snd (nth j (positions s) (0, 0)))).
    lra. }
  assert (He3 : 0 < e ^ 3) by (apply pow_lt; exact He).
  repeat split; lra.
Qed.

Lemma softened_denominators_witness :
  0 < softening coincident_pair
  /\ softening coincident_pair ^ 3 <= accel_denominator coincident_pair 0 1
  /\ softening coincident_pair <= potential_denominator coincident_pair 0 1.
Proof.
  assert (He : 0 < softening coincident_pair) by (simpl; lra).
  destruct (softened_denominators coincident_pair 0 1 He)
    as (_ & _ & Ha & _ & Hp & _).
  split; [exact He|]. split; [exact Ha | exact Hp].
Defined.

(** For two coincident bodies and softening 0.1 > 0 the denominator of
    the force law is 0.001, below softening^2 = 0.01. *)
Lemma accel_denominator_below_softening_squared :
  ~ (0 < softening coincident_pair ->
     softening coincident_pair ^ 2 <= accel_denominator coincident_pair 0 1
     /\ softening coincident_pair
        <= potential_denominator coincident_pair 0 1).
Proof.
  intros H.
  assert (He : 0 < softening coincident_pair) by (simpl; lra).
  destruct (H He) as [Ha _]. revert Ha.
  unfold accel_denominator, softened_dist2, coincident_pair.
  cbn [softening positions nth fst snd].
  replace ((0 - 0) ^ 2 + (0 - 0) ^ 2 + 0.1 ^ 2) with (0.1 * 0.1) by ring.
  rewrite Rpower_1_5 by lra.
  rewrite sqrt_square by lra. lra.
Qed.

(** * Momentum and center of mass *)

Lemma sum_zip_seq (a b : list R) (n : nat) :
  length a = n -> length b = n ->
  sum (zip_with Rmult a b)
  = sum (map (fun i => nth i a 0 * nth i b 0) (seq 0 n)).
Proof.
  intros Ha Hb.
  rewrite (sum_map_seq (zip_with Rmult a b)), zip_with_length, Ha, Hb,
    Nat.min_id.
  apply sum_map_ext. intros i Hi. apply in_seq in Hi.
  apply nth_zip_with; lia.
Qed.

(** Newton's third law for the pair terms: m_i * a_ij = - m_j * a_ji. *)
Lemma pair_accel_third_law (s : state) (i j : nat) :
  nth i (masses s) 0 * fst (pair_accel s i j)
  = - (nth j (masses s) 0 * fst (pair_accel s j i))
  /\ nth i (masses s) 0 * snd (pair_accel s i j)
     = - (nth j (masses s) 0 * snd (pair_accel s j i)).
Proof.
  unfold pair_accel. cbn [fst snd]. rewrite (Nat.eqb_sym j i).
  rewrite (softened_dist2_sym _ (nth j (positions s) (0, 0))).
  destruct (i =? j)%nat; split; ring.
Qed.

Lemma row_sum_pairs (s : state) (i : nat) :
  wf s -> (i < num_bodies s)%nat ->
  sum (fst (Base.calculate_acceleration s i))
  = sum (map (fun j => fst (pair_accel s i j)) (seq 0 (num_bodies s)))
  /\ sum (snd (Base.calculate_acceleration s i))
     = sum (map (fun j => snd (pair_accel s i j)) (seq 0 (num_bodies s))).
Proof.
  intros Hwf Hi. destruct (row_length s i Hwf) as [Lx Ly].
  rewrite (sum_map_seq (fst _)), (sum_map_seq (snd _)), Lx, Ly.
  split; apply sum_map_ext; intros j Hj; apply in_seq in Hj;
    rewrite <- (row_nth s i Hwf j) by lia; reflexivity.
Qed.

(** The mass-weighted accelerations of one step add up to zero. *)
Lemma weighted_accelerations_cancel (s : state) :
  wf s ->
  sum (zip_with Rmult (masses s) (col0 (accelerations (Standalone.update s))))
  = 0
  /\ sum (zip_with Rmult (masses s)
                   (col1 (accelerations (Standalone.update s)))) = 0.
Proof.
  intros Hwf. pose proof Hwf as (Hp & Hv & Hm & Ht & Ha).
  rewrite standalone_update_accelerations by exact Hwf.
  rewrite !(sum_zip_seq _ _ (num_bodies s)) by len.
  split.
  - etransitivity;
      [| apply (sum_antisymmetric
                  (fun i j => nth i (masses s) 0 * fst (pair_accel s i j))
                  (seq 0 (num_bodies s)));
         intros i j; apply pair_accel_third_law ].
    apply sum_map_ext. intros i Hi. apply in_seq in Hi.
    rewrite sum_map_scal. unfold col0.
    rewrite (nth_map_in fst _ i (0, 0)) by len.
    rewrite (nth_map_in _ _ i 0%nat) by len.
    rewrite seq_nth by lia. cbn [fst Nat.add].
    rewrite (proj1 (row_sum_pairs s i Hwf ltac:(lia))). ring.
  - etransitivity;
      [| apply (sum_antisymmetric
                  (fun i j => nth i (masses s) 0 * snd (pair_accel s i j))
                  (seq 0 (num_bodies s)));
         intros i j; apply pair_accel_third_law ].
    apply sum_map_ext. intros i Hi. apply in_seq in Hi.
    rewrite sum_map_scal. unfold col1.
    rewrite (nth_map_in snd _ i (0, 0)) by len.
    rewrite (nth_map_in _ _ i 0%nat) by len.
    rewrite seq_nth by lia. cbn [snd Nat.add].
    rewrite (proj2 (row_sum_pairs s i Hwf ltac:(lia))). ring.
Qed.

Lemma integrate_momentum (s : state) (acc : list vec2) :
  wf s -> length acc = num_bodies s ->
  total_momentum (integrate s acc)
  = (fst (total_momentum s)
     + dt s * sum (zip_with Rmult (masses s) (col0 acc)),
     snd (total_momentum s)
     + dt s * sum (zip_with Rmult (masses s) (col1 acc))).
Proof.
  intros (Hp & Hv & Hm & Ht & Ha) Hacc.
  unfold total_momentum.
  change (masses (integrate s acc)) with (masses s).
  change (velocities (integrate s acc))
    with (zip_with (fun v a => (fst v + fst a * dt s, snd v + snd a * dt s))
                   (velocities s) acc).
  cbn [fst snd].
  rewrite !(sum_zip_seq _ _ (num_bodies s)) by len.
  rewrite <- !sum_map_scal, <- !sum_map_plus.
  f_equal; apply sum_map_ext; intros i Hi; apply in_seq in Hi;
    unfold col0, col1;
    rewrite !(nth_map_in _ _ i (0, 0)) by len;
    rewrite (nth_zip_with _ _ _ i (0, 0) (0, 0)) by lia;
    cbn [fst snd]; ring.
Qed.

Lemma integrate_mass_moment (s : state) (acc : list vec2) :
  wf s -> length acc = num_bodies s ->
  mass_moment (integrate s acc)
  = (fst (mass_moment s) + dt s * fst (total_momentum (integrate s acc)),
     snd (mass_moment s) + dt s * snd (total_momentum (integrate s acc))).
Proof.
  intros (Hp & Hv & Hm & Ht & Ha) Hacc.
  unfold mass_moment, total_momentum.
  change (masses (integrate s acc)) with (masses s).
  set (vel := velocities (integrate s acc)).
  assert (Lv : length vel = num_bodies s).
  { unfold vel, integrate, Standalone.calculate_energy.
    cbn [velocities]. len. }
  change (positions (integrate s acc))
    with (zip_with (fun p v => (fst p + fst v * dt s, snd p + snd v * dt s))
                   (positions s) vel).
  cbn [fst snd].
  rewrite !(sum_zip_seq _ _ (num_bodies s)) by len.
  rewrite <- !sum_map_scal, <- !sum_map_plus.
  f_equal; apply sum_map_ext; intros i Hi; apply in_seq in Hi;
    unfold col0, col1;
    rewrite !(nth_map_in _ _ i (0, 0)) by len;
    rewrite (nth_zip_with _ _ _ i (0, 0) (0, 0)) by lia;
    cbn [fst snd]; ring.
Qed.

(** One step keeps the total momentum. *)
Lemma update_momentum (s : state) :
  wf s -> total_momentum (Standalone.update s) = total_momentum s.
Proof.
  intros Hwf.
  destruct (update_accelerations_length s Hwf) as (Ls & _ & _).
  destruct (weighted_accelerations_cancel s Hwf) as [Hx Hy].
  rewrite standalone_update_integrate.
  rewrite integrate_momentum by assumption.
  rewrite Hx, Hy. rewrite (surjective_pairing (total_momentum s)) at 3.
  f_equal; ring.
Qed.

Lemma update_mass_moment (s : state) :
  wf s ->
  mass_moment (Standalone.update s)
  = (fst (mass_moment s) + dt s * fst (total_momentum s),
     snd (mass_moment s) + dt s * snd (total_momentum s)).
Proof.
  intros Hwf.
  destruct (update_accelerations_length s Hwf) as (Ls & _ & _).
  rewrite <- (update_momentum s Hwf).
  rewrite standalone_update_integrate at 1.
  rewrite integrate_mass_moment by assumption.
  rewrite <- standalone_update_integrate. reflexivity.
Qed.

Lemma update_wf (s : state) : wf s -> wf (Standalone.update s).
Proof.
  intros Hwf.
  destruct (update_accelerations_length s Hwf) as (Ls & _ & _).
  rewrite standalone_update_integrate. apply integrate_wf; assumption.
Qed.

Lemma repeat_update_invariants (s : state) (n : nat) :
  wf s ->
  let s' := repeat_call n Standalone.update s in
  wf s' /\ masses s' = masses s /\ dt s' = dt s
  /\ total_momentum s' = total_momentum s.
Proof.
  intros Hwf. induction n as [|n (Hw & Hm & Hd & Hmom)]; cbn [repeat_call].
  - repeat split; try apply Hwf; reflexivity.
  - split; [apply update_wf; exact Hw|].
    split; [exact Hm|]. split; [exact Hd|].
    rewrite update_momentum by exact Hw. exact Hmom.
Qed.

Lemma zero_momentum_moment_fixed (s : state) (n : nat) :
  wf s -> total_momentum s = (0, 0) ->
  mass_moment (repeat_call n Standalone.update s) = mass_moment s.
Proof.
  intros Hwf Hz. induction n as [|n IH]; cbn [repeat_call].
  - reflexivity.
  - destruct (repeat_update_invariants s n Hwf) as (Hw & _ & _ & Hmom).
    rewrite update_mass_moment by exact Hw.
    rewrite Hmom, Hz, IH. cbn [fst snd].
    rewrite (surjective_pairing (mass_moment s)) at 3.
    f_equal; ring.
Qed.

Lemma zero_momentum_center_fixed (s : state) (n : nat) :
  wf s -> total_momentum s = (0, 0) ->
  center_of_mass (repeat_call n Standalone.update s) = center_of_mass s.
Proof.
  intros Hwf Hz. unfold center_of_mass.
  rewrite zero_momentum_moment_fixed by assumption.
  destruct (repeat_update_invariants s n Hwf) as (_ & Hm & _).
  rewrite Hm. reflexivity.
Qed.

Lemma two_body_zero_momentum (s : state) :
  wf s -> num_bodies s = 2%nat ->
  nth 0 (masses s) 0 = nth 1 (masses s) 0 ->
  nth 0 (velocities s) (0, 0)
  = (- fst (nth 1 (velocities s) (0, 0)), - snd (nth 1 (velocities s) (0, 0))) ->
  total_momentum s = (0, 0).
Proof.
  intros (Hp & Hv & Hm & Ht & Ha) Hn Hmass Hvel.
  unfold total_momentum. rewrite Hn in *.
  destruct (masses s) as [|m0 [|m1 [|? ?]]]; try discriminate.
  destruct (velocities s) as [|v0 [|v1 [|? ?]]]; try discriminate.
  cbn in Hmass, Hvel |- *. subst m0 v0. cbn [fst snd].
  f_equal; ring.
Qed.

(** C7: the pair terms of the softened force obey Newton's third law
    (m_i * a_ij = - m_j * a_ji), so one step keeps the total momentum sum
    of m_i * v_i; with zero total momentum the center of mass is the same
    after any number of steps; two bodies of equal mass with opposite
    velocities are such a system.  Real arithmetic. *)
Theorem center_of_mass_stationary (s : state) :
  wf s ->
  (forall i j,
     nth i (masses s) 0 * fst (pair_accel s i j)
     = - (nth j (masses s) 0 * fst (pair_accel s j i))
     /\ nth i (masses s) 0 * snd (pair_accel s i j)
        = - (nth j (masses s) 0 * snd (pair_accel s j i)))
  /\ total_momentum (Standalone.update s) = total_momentum s
  /\ (total_momentum s = (0, 0) ->
      forall n, center_of_mass (repeat_call n Standalone.update s)
                = center_of_mass s)
  /\ (num_bodies s = 2%nat ->
      nth 0 (masses s) 0 = nth 1 (masses s) 0 ->
      nth 0 (velocities s) (0, 0)
      = (- fst (nth 1 (velocities s) (0, 0)),
         - snd (nth 1 (velocities s) (0, 0))) ->
      forall n, center_of_mass (repeat_call n Standalone.update s)
                = center_of_mass s).
Proof.
  intros Hwf. split; [|split; [|split]].
  - intros i j. apply pair_accel_third_law.
  - apply update_momentum. exact Hwf.
  - intros Hz n. apply zero_momentum_center_fixed; assumption.
  - intros Hn Hm Hv n. apply zero_momentum_center_fixed; [exact Hwf|].
    apply two_body_zero_momentum; assumption.
Qed.

Lemma center_of_mass_stationary_witness :
  wf two_body
  /\ center_of_mass (repeat_call 1000 Standalone.update two_body)
     = center_of_mass two_body.
Proof.
  assert (Hwf : wf two_body) by (repeat split).
  split; [exact Hwf|].
  apply (center_of_mass_stationary two_body Hwf).
  - reflexivity.
  - reflexivity.
  - simpl. f_equal; lra.
Defined.

(** ** Open boundary *)

Lemma cos_PI4_pos : 0 < cos (PI / 4).
Proof.
  rewrite cos_PI4. apply Rdiv_lt_0_compat; [lra|].
  apply sqrt_lt_R0. lra.
Qed.

Lemma sqrt_gt (x y : R) : 0 <= y -> y * y < x -> sqrt x > y.
Proof.
  intros Hy H.
  assert (H0 : 0 <= y * y) by (apply Rmult_le_pos; exact Hy).
  pose proof (sqrt_lt_1_alt (y * y) x (conj H0 H)) as Hs.
  rewrite sqrt_square in Hs by exact Hy. lra.
Qed.

Lemma far_body_too_far :
  gtb (sqrt (1000 ^ 2 + 0 ^ 2)) (200 * 2) = true.
Proof.
  unfold gtb. destruct (Rgt_dec _ _) as [_|Hn]; [reflexivity|].
  exfalso. apply Hn. apply sqrt_gt; lra.
Qed.

Lemma far_body_replaced :
  let s' := Standalone.apply_boundary_conditions skewed_source "open"
                                                 far_body in
  positions s' = [(cos (PI / 4) * (200 / 2 * 0.9),
                   sin (PI / 4) * (200 / 2 * 0.9))]
  /\ velocities s' = [(- cos (PI / 4) * 0.1, - sin (PI / 4) * 0.4)]
  /\ trails s' = [[]].
Proof.
  unfold Standalone.apply_boundary_conditions.
  change (String.eqb "open" "bounce") with false.
  change (String.eqb "open" "periodic") with false.
  change (String.eqb "open" "open") with true.
  cbn [far_body boundary positions velocities trails map fst snd].
  rewrite far_body_too_far.
  cbn. repeat split.
Qed.

(** C6 at a concrete input: the body at distance 1000 > 2 * 200 is put on
    the circle of radius 90 at the angle pi/4, its trail is emptied, and
    its velocity has the components -cos(pi/4) * 0.1 and
    -sin(pi/4) * 0.4, drawn with two separate magnitudes: that velocity is
    no multiple of the position, so it does not point at the origin. *)
Theorem open_velocity_misses_origin :
  let s' := Standalone.apply_boundary_conditions skewed_source "open"
                                                 far_body in
  let p' := nth 0 (positions s') (0, 0) in
  let v' := nth 0 (velocities s') (0, 0) in
  sqrt (fst (nth 0 (positions far_body) (0, 0)) ^ 2
        + snd (nth 0 (positions far_body) (0, 0)) ^ 2)
    > boundary far_body * 2
  /\ fst p' ^ 2 + snd p' ^ 2 = (0.9 * boundary far_body / 2) ^ 2
  /\ nth 0 (trails s') [] = []
  /\ ~ (exists k : R, v' = (- k * fst p', - k * snd p')).
Proof.
  intros s' p' v'.
  destruct far_body_replaced as (Hp & Hv & Ht).
  fold s' in Hp, Hv, Ht. unfold p', v'. rewrite Hp, Hv, Ht.
  cbn [nth fst snd far_body positions boundary].
  pose proof cos_PI4_pos as Hc. pose proof sin_cos_PI4 as Hsc.
  pose proof (sin2_cos2 (PI / 4)) as H1. unfold Rsqr in H1.
  repeat split.
  - apply sqrt_gt; lra.
  - rewrite Hsc in *. nra.
  - intros [k Hk]. injection Hk as Hx Hy. rewrite Hsc in *. nra.
Qed.

Lemma where_true_In (mask : list bool) (i : nat) :
  In i (where_true mask) <-> (i < length mask)%nat /\ nth i mask false = true.
Proof.
  unfold where_true. rewrite filter_In, in_seq. split.
  - intros [H1 H2]. split; [lia | exact H2].
  - intros [H1 H2]. split; [lia | exact H2].
Qed.

Lemma where_true_NoDup (mask : list bool) : NoDup (where_true mask).
Proof. apply NoDup_filter, seq_NoDup. Qed.

(** The loop over the far bodies leaves every other body alone. *)
Lemma replace_too_far_other (rnd : random_source) (b : R) (i : nat)
    (idxs : list nat) :
  ~ In i idxs ->
  forall (k : nat) (pos vel : list vec2) (tr : list (list vec2)),
    let r := Standalone.replace_too_far rnd k idxs b pos vel tr in
    nth i (fst (fst r)) (0, 0) = nth i pos (0, 0)
    /\ nth i (snd (fst r)) (0, 0) = nth i vel (0, 0)
    /\ nth i (snd r) [] = nth i tr [].
Proof.
  induction idxs as [|i0 idxs IH]; intros Hnot k pos vel tr;
    cbn [Standalone.replace_too_far].
  - cbn. auto.
  - assert (Hne : i0 <> i) by (intros ->; apply Hnot; left; reflexivity).
    assert (Hrest : ~ In i idxs) by (intros H; apply Hnot; right; exact H).
    cbv zeta. cbv zeta in IH.
    destruct (IH Hrest (k + 3)%nat
      (set_item i0 (cos (uniform rnd k) * (b / 2 * 0.9),
                    sin (uniform rnd k) * (b / 2 * 0.9)) pos)
      (set_item i0 (- cos (uniform rnd k) * uniform rnd (k + 1),
                    - sin (uniform rnd k) * uniform rnd (k + 2)) vel)
      (set_item i0 [] tr)) as (H1 & H2 & H3).
    rewrite H1, H2, H3, !nth_set_item_neq by exact Hne. auto.
Qed.

(** A far body gets a point of the circle, a velocity whose two components
    carry magnitudes drawn separately, and an empty trail. *)
Lemma replace_too_far_self (rnd : random_source) (b : R) (i : nat)
    (idxs : list nat) :
  NoDup idxs -> In i idxs ->
  forall (k : nat) (pos vel : list vec2) (tr : list (list vec2)),
    (i < length pos)%nat -> (i < length vel)%nat -> (i < length tr)%nat ->
    let r := Standalone.replace_too_far rnd k idxs b pos vel tr in
    exists k' : nat,
      nth i (fst (fst r)) (0, 0)
        = (cos (uniform rnd k') * (b / 2 * 0.9),
           sin (uniform rnd k') * (b / 2 * 0.9))
      /\ nth i (snd (fst r)) (0, 0)
        = (- cos (uniform rnd k') * uniform rnd (k' + 1),
           - sin (uniform rnd k') * uniform rnd (k' + 2))
      /\ nth i (snd r) [] = [].
Proof.
  induction idxs as [|i0 idxs IH]; intros Hnd Hin k pos vel tr Lp Lv Lt;
    cbn [Standalone.replace_too_far].
  - destruct Hin.
  - inversion Hnd as [|? ? Hnot Hnd']; subst.
    cbv zeta. cbv zeta in IH.
    destruct Hin as [->|Hin].
    + exists k.
      destruct (replace_too_far_other rnd b i idxs Hnot (k + 3)%nat
        (set_item i (cos (uniform rnd k) * (b / 2 * 0.9),
                     sin (uniform rnd k) * (b / 2 * 0.9)) pos)
        (set_item i (- cos (uniform rnd k) * uniform rnd (k + 1),
                     - sin (uniform rnd k) * uniform rnd (k + 2)) vel)
        (set_item i [] tr)) as (H1 & H2 & H3).
      rewrite H1, H2, H3, !nth_set_item_eq by assumption. auto.
    + apply (IH Hnd' Hin); rewrite set_item_length; assumption.
Qed.

(** What "open" mode does to body i, for any state and any generator. *)
Lemma open_boundary_body (rnd : random_source) (s : state) (i : nat) :
  wf s -> (i < num_bodies s)%nat ->
  let b := boundary s in
  let s' := Standalone.apply_boundary_conditions rnd "open" s in
  let p := nth i (positions s) (0, 0) in
  (sqrt (fst p ^ 2 + snd p ^ 2) <= b * 2 ->
     nth i (positions s') (0, 0) = p
     /\ nth i (velocities s') (0, 0) = nth i (velocities s) (0, 0)
     /\ nth i (trails s') [] = nth i (trails s) [])
  /\ (sqrt (fst p ^ 2 + snd p ^ 2) > b * 2 ->
      exists k : nat,
        nth i (positions s') (0, 0)
          = (cos (uniform rnd k) * (b / 2 * 0.9),
             sin (uniform rnd k) * (b / 2 * 0.9))
        /\ nth i (velocities s') (0, 0)
          = (- cos (uniform rnd k) * uniform rnd (k + 1),
             - sin (uniform rnd k) * uniform rnd (k + 2))
        /\ nth i (trails s') [] = []).
Proof.
  intros (Hp & Hv & Hm & Ht & Ha) Hi b s' p.
  set (too_far := map (fun q : vec2 => gtb (sqrt (fst q ^ 2 + snd q ^ 2))
                                           (b * 2)) (positions s)).
  assert (Hmask : nth i too_far false
                  = gtb (sqrt (fst p ^ 2 + snd p ^ 2)) (b * 2)).
  { unfold too_far. rewrite (nth_map_in _ _ i (0, 0)) by lia. reflexivity. }
  assert (Hs' : s' = let '(pos', vel', tr') :=
                       Standalone.replace_too_far rnd 0 (where_true too_far) b
                         (positions s) (velocities s) (trails s) in
                     mkState (G s) (dt s) (softening s) b (num_bodies s)
                             pos' vel' (masses s) (colors s) tr'
                             (max_trail_length s) (accelerations s)
                             (kinetic_energy s) (potential_energy s))
    by reflexivity.
  split; intros Hfar.
  - assert (Hnot : ~ In i (where_true too_far)).
    { rewrite where_true_In, Hmask. unfold gtb.
      destruct (Rgt_dec _ _); [lra | intros [_ H]; discriminate]. }
    pose proof (replace_too_far_other rnd b i _ Hnot 0%nat
                  (positions s) (velocities s) (trails s)) as H.
    rewrite Hs'.
    destruct (Standalone.replace_too_far _ _ _ _ _ _ _) as [[pos' vel'] tr'].
    exact H.
  - assert (Hin : In i (where_true too_far)).
    { rewrite where_true_In, Hmask. unfold gtb, too_far.
      rewrite length_map.
      destruct (Rgt_dec _ _); [split; [lia | reflexivity] | lra]. }
    pose proof (replace_too_far_self rnd b i _ (where_true_NoDup too_far)
                  Hin 0%nat (positions s) (velocities s) (trails s)
                  ltac:(lia) ltac:(lia) ltac:(lia)) as H.
    rewrite Hs'.
    destruct (Standalone.replace_too_far _ _ _ _ _ _ _) as [[pos' vel'] tr'].
    exact H.
Qed.

(** The parts of C6 that hold for every state and every generator whose
    magnitudes lie in [0.1, 0.5): a body within 2 * boundary is untouched;
    a body beyond it lands on the circle of radius 0.9 * boundary / 2, its
    trail is empty, the length of its velocity is in [0.1, 0.5) and, for
    boundary > 0, its velocity has a negative component along its
    position. *)
Lemma open_boundary_far_body (rnd : random_source) (s : state) (i : nat) :
  wf s -> (i < num_bodies s)%nat ->
  (forall k, 0.1 <= uniform rnd (k + 1) < 0.5
             /\ 0.1 <= uniform rnd (k + 2) < 0.5) ->
  let b := boundary s in
  let s' := Standalone.apply_boundary_conditions rnd "open" s in
  let p := nth i (positions s) (0, 0) in
  let p' := nth i (positions s') (0, 0) in
  let v' := nth i (velocities s') (0, 0) in
  sqrt (fst p ^ 2 + snd p ^ 2) > b * 2 ->
  fst p' ^ 2 + snd p' ^ 2 = (0.9 * b / 2) ^ 2
  /\ nth i (trails s') [] = []
  /\ 0.1 ^ 2 <= fst v' ^ 2 + snd v' ^ 2 < 0.5 ^ 2
  /\ (0 < b -> fst v' * fst p' + snd v' * snd p' < 0).
Proof.
  intros Hwf Hi Hu b s' p p' v' Hfar.
  destruct (proj2 (open_boundary_body rnd s i Hwf Hi) Hfar)
    as (k & Ep & Ev & Et).
  fold s' in Ep, Ev, Et. fold b in Ep. unfold p', v'.
  rewrite Ep, Ev, Et. cbn [fst snd].
  destruct (Hu k) as [[U1 U1'] [U2 U2']].
  set (c := cos (uniform rnd k)). set (d := sin (uniform rnd k)).
  set (u1 := uniform rnd (k + 1)) in *. set (u2 := uniform rnd (k + 2)) in *.
  assert (H1 : d * d + c * c = 1) by apply (sin2_cos2 (uniform rnd k)).
  assert (Hc : 0 <= c * c) by apply Rle_0_sqr.
  assert (Hd : 0 <= d * d) by apply Rle_0_sqr.
  assert (L1 : 0.01 <= u1 * u1 < 0.25) by nra.
  assert (L2 : 0.01 <= u2 * u2 < 0.25) by nra.
  repeat split.
  - replace ((c * (b / 2 * 0.9)) ^ 2 + (d * (b / 2 * 0.9)) ^ 2)
      with ((d * d + c * c) * (0.9 * b / 2) ^ 2) by field.
    rewrite H1. ring.
  - replace ((- c * u1) ^ 2 + (- d * u2) ^ 2)
      with ((c * c) * (u1 * u1) + (d * d) * (u2 * u2)) by ring.
    nra.
  - replace ((- c * u1) ^ 2 + (- d * u2) ^ 2)
      with ((c * c) * (u1 * u1) + (d * d) * (u2 * u2)) by ring.
    destruct (Req_dec (c * c) 0) as [Z|NZ]; nra.
  - intros Hb.
    replace (- c * u1 * (c * (b / 2 * 0.9)) + - d * u2 * (d * (b / 2 * 0.9)))
      with (- (b / 2 * 0.9) * ((c * c) * u1 + (d * d) * u2)) by field.
    assert (0 < (c * c) * u1 + (d * d) * u2) by nra.
    nra.
Qed.

(** * Further properties of the engine *)

(** ** Periodic boundary *)

Lemma fmod_range (y b : R) : 0 < b -> 0 <= fmod y b < b.
Proof.
  intros Hb. unfold fmod.
  destruct (base_Int_part (y / b)) as [H1 H2].
  assert (Hy : y = b * (y / b)) by (field; lra).
  set (k := IZR (Int_part (y / b))) in *.
  split.
  - assert (b * k <= b * (y / b)) by (apply Rmult_le_compat_l; lra). lra.
  - assert (b * (y / b) < b * (k + 1)) by (apply Rmult_lt_compat_l; lra).
    lra.
Qed.

Lemma fmod_small (y b : R) : 0 < b -> 0 <= y < b -> fmod y b = y.
Proof.
  intros Hb [H0 H1]. unfold fmod.
  assert (Hq0 : 0 <= y / b).
  { apply Rmult_le_pos; [lra|]. apply Rlt_le, Rinv_0_lt_compat. exact Hb. }
  assert (Hq1 : y / b < 1).
  { apply (Rmult_lt_reg_r b); [exact Hb|].
    replace (y / b * b) with y by (field; lra). lra. }
  rewrite <- (Int_part_spec (y / b) 0) by (simpl; lra).
  simpl. ring.
Qed.

Lemma periodic_positions (rnd : random_source) (s : state) :
  positions (Standalone.apply_boundary_conditions rnd "periodic" s)
  = map (fun p => (fmod (fst p + boundary s / 2) (boundary s)
                   - boundary s / 2,
                   fmod (snd p + boundary s / 2) (boundary s)
                   - boundary s / 2))
        (positions s).
Proof. reflexivity. Qed.

Lemma periodic_nth (rnd : random_source) (s : state) (i : nat) :
  (i < length (positions s))%nat ->
  nth i (positions (Standalone.apply_boundary_conditions rnd "periodic" s))
      (0, 0)
  = (fmod (fst (nth i (positions s) (0, 0)) + boundary s / 2) (boundary s)
     - boundary s / 2,
     fmod (snd (nth i (positions s) (0, 0)) + boundary s / 2) (boundary s)
     - boundary s / 2).
Proof.
  intros Hi. rewrite periodic_positions.
  rewrite (nth_map_in _ _ i (0, 0)) by exact Hi. reflexivity.
Qed.

(** Periodic mode, boundary > 0: every coordinate of every body ends in
    [-boundary/2, boundary/2) and differs from the old one by a whole
    multiple of boundary; velocities and trails are not touched. *)
Theorem periodic_wraps_into_domain (rnd : random_source) (s : state)
    (i : nat) :
  0 < boundary s -> (i < length (positions s))%nat ->
  let b := boundary s in
  let s' := Standalone.apply_boundary_conditions rnd "periodic" s in
  let p := nth i (positions s) (0, 0) in
  let p' := nth i (positions s') (0, 0) in
  (- b / 2 <= fst p' < b / 2 /\ - b / 2 <= snd p' < b / 2)
  /\ (exists kx ky : Z,
        fst p' = fst p - b * IZR kx /\ snd p' = snd p - b * IZR ky)
  /\ velocities s' = velocities s
  /\ trails s' = trails s
  /\ length (positions s') = length (positions s).
Proof.
  intros Hb Hi b s' p p'. unfold p', s'.
  rewrite periodic_nth by exact Hi. fold b p. cbn [fst snd].
  pose proof (fmod_range (fst p + b / 2) b Hb) as Hx.
  pose proof (fmod_range (snd p + b / 2) b Hb) as Hy.
  split; [split; lra|]. split.
  - exists (Int_part ((fst p + b / 2) / b)),
           (Int_part ((snd p + b / 2) / b)).
    unfold fmod. split; ring.
  - repeat split. rewrite periodic_positions. apply length_map.
Qed.

Lemma periodic_wraps_into_domain_witness :
  let s' := Standalone.apply_boundary_conditions sample_source "periodic"
                                                 wall_body in
  0 < boundary wall_body
  /\ - boundary wall_body / 2 <= fst (nth 0 (positions s') (0, 0))
     < boundary wall_body / 2.
Proof.
  intros s'.
  assert (Hb : 0 < boundary wall_body) by (simpl; lra).
  assert (Hi : (0 < length (positions wall_body))%nat) by (simpl; lia).
  split; [exact Hb|].
  exact (proj1 (proj1 (periodic_wraps_into_domain sample_source wall_body 0
                         Hb Hi))).
Defined.

(** Periodic mode, boundary > 0, on each axis: a coordinate already in
    [-boundary/2, boundary/2) stays; a coordinate boundary/2 + d with
    0 <= d < boundary becomes -boundary/2 + d; a second application
    changes nothing. *)
Theorem periodic_fixes_domain (rnd rnd' : random_source) (s : state) :
  0 < boundary s ->
  let b := boundary s in
  let s' := Standalone.apply_boundary_conditions rnd "periodic" s in
  (forall i, (i < length (positions s))%nat ->
     let p := nth i (positions s) (0, 0) in
     let p' := nth i (positions s') (0, 0) in
     (- b / 2 <= fst p < b / 2 -> fst p' = fst p)
     /\ (- b / 2 <= snd p < b / 2 -> snd p' = snd p)
     /\ (forall d, 0 <= d < b -> fst p = b / 2 + d -> fst p' = - b / 2 + d)
     /\ (forall d, 0 <= d < b -> snd p = b / 2 + d -> snd p' = - b / 2 + d))
  /\ Standalone.apply_boundary_conditions rnd' "periodic" s' = s'.
Proof.
  intros Hb b s'. split.
  - intros i Hi p p'. unfold p', s'.
    rewrite periodic_nth by exact Hi. fold b p. cbn [fst snd].
    repeat split.
    + intros H. rewrite fmod_small by lra. lra.
    + intros H. rewrite fmod_small by lra. lra.
    + intros d Hd ->.
      replace (b / 2 + d + b / 2) with (d + b) by field.
      assert (E : fmod (d + b) b = d).
      { unfold fmod.
        rewrite <- (Int_part_spec ((d + b) / b) 1).
        - simpl. ring.
        - replace ((d + b) / b) with (d / b + 1) by (field; lra).
          assert (0 <= d / b).
          { apply Rmult_le_pos; [lra|].
            apply Rlt_le, Rinv_0_lt_compat. exact Hb. }
          assert (d / b < 1).
          { apply (Rmult_lt_reg_r b); [exact Hb|].
            replace (d / b * b) with d by (field; lra). lra. }
          simpl. lra. }
      rewrite E. lra.
    + intros d Hd ->.
      replace (b / 2 + d + b / 2) with (d + b) by field.
      assert (E : fmod (d + b) b = d).
      { unfold fmod.
        rewrite <- (Int_part_spec ((d + b) / b) 1).
        - simpl. ring.
        - replace ((d + b) / b) with (d / b + 1) by (field; lra).
          assert (0 <= d / b).
          { apply Rmult_le_pos; [lra|].
            apply Rlt_le, Rinv_0_lt_compat. exact Hb. }
          assert (d / b < 1).
          { apply (Rmult_lt_reg_r b); [exact Hb|].
            replace (d / b * b) with d by (field; lra). lra. }
          simpl. lra. }
      rewrite E. lra.
  - assert (Hpos : positions (Standalone.apply_boundary_conditions
                                rnd' "periodic" s') = positions s').
    { rewrite periodic_positions.
      change (boundary s') with b.
      rewrite <- (map_id (positions s')) at 2.
      apply map_ext_in. intros q Hq.
      unfold s' in Hq. rewrite periodic_positions in Hq.
      apply in_map_iff in Hq. destruct Hq as (p & <- & _).
      fold b. cbn [fst snd].
      pose proof (fmod_range (fst p + b / 2) b Hb).
      pose proof (fmod_range (snd p + b / 2) b Hb).
      rewrite (fmod_small (fmod (fst p + b / 2) b - b / 2 + b / 2) b),
        (fmod_small (fmod (snd p + b / 2) b - b / 2 + b / 2) b) by lra.
      f_equal; lra. }
    change (Standalone.apply_boundary_conditions rnd' "periodic" s')
      with (mkState (G s') (dt s') (softening s') (boundary s')
              (num_bodies s')
              (positions (Standalone.apply_boundary_conditions
                            rnd' "periodic" s'))
              (velocities s') (masses s') (colors s') (trails s')
              (max_trail_length s') (accelerations s')
              (kinetic_energy s') (potential_energy s')).
    rewrite Hpos. reflexivity.
Qed.

Lemma periodic_fixes_domain_witness :
  let s' := Standalone.apply_boundary_conditions sample_source "periodic"
                                                 wall_body in
  0 < boundary wall_body
  /\ fst (nth 0 (positions s') (0, 0)) = - boundary wall_body / 2 + 30
  /\ snd (nth 0 (positions s') (0, 0)) = 20.
Proof.
  intros s'.
  assert (Hb : 0 < boundary wall_body) by (simpl; lra).
  assert (Hi : (0 < length (positions wall_body))%nat) by (simpl; lia).
  destruct (proj1 (periodic_fixes_domain sample_source sample_source
                     wall_body Hb) 0%nat Hi) as (_ & Hy & Hx & _).
  split; [exact Hb|]. split.
  - apply Hx; simpl; lra.
  - apply Hy. simpl. lra.
Defined.

(** ** Bounce, continued *)

Lemma bounce_rebuild (rnd : random_source) (s : state) :
  Standalone.apply_boundary_conditions rnd "bounce" s
  = mkState (G s) (dt s) (softening s) (boundary s) (num_bodies s)
      (positions (Standalone.apply_boundary_conditions rnd "bounce" s))
      (velocities (Standalone.apply_boundary_conditions rnd "bounce" s))
      (masses s) (colors s) (trails s) (max_trail_length s)
      (accelerations s) (kinetic_energy s) (potential_energy s).
Proof. reflexivity. Qed.

Lemma in_domain_nth (s : state) (i : nat) :
  in_domain s -> (i < length (positions s))%nat ->
  - boundary s / 2 <= fst (nth i (positions s) (0, 0)) <= boundary s / 2
  /\ - boundary s / 2 <= snd (nth i (positions s) (0, 0)) <= boundary s / 2.
Proof.
  intros Hd Hi. unfold in_domain in Hd. rewrite Forall_forall in Hd.
  apply Hd, nth_In, Hi.
Qed.

Lemma bounce_in_domain_id (rnd : random_source) (s : state) :
  wf s -> in_domain s ->
  Standalone.apply_boundary_conditions rnd "bounce" s = s.
Proof.
  intros Hwf Hd.
  pose proof (apply_boundary_wf rnd "bounce" s Hwf) as Hwf'.
  destruct Hwf as (Hp & Hv & Hm & Ht & Ha).
  destruct Hwf' as (Hp' & Hv' & _).
  change (num_bodies (Standalone.apply_boundary_conditions rnd "bounce" s))
    with (num_bodies s) in Hp', Hv'.
  assert (E : forall i, (i < num_bodies s)%nat ->
            nth i (positions (Standalone.apply_boundary_conditions
                                rnd "bounce" s)) (0, 0)
            = nth i (positions s) (0, 0)
            /\ nth i (velocities (Standalone.apply_boundary_conditions
                                    rnd "bounce" s)) (0, 0)
               = nth i (velocities s) (0, 0)).
  { intros i Hi.
    destruct (bounce_nth rnd s i (conj Hp (conj Hv (conj Hm (conj Ht Ha))))
                Hi) as [Ep Ev].
    rewrite Ep, Ev.
    destruct (in_domain_nth s i Hd ltac:(lia)) as [Hx Hy].
    unfold gtb, ltb.
    destruct (Rgt_dec _ _), (Rlt_dec _ _), (Rgt_dec _ _), (Rlt_dec _ _);
      try lra.
    split; symmetry; apply surjective_pairing. }
  rewrite bounce_rebuild.
  replace (positions (Standalone.apply_boundary_conditions rnd "bounce" s))
    with (positions s).
  2:{ apply (nth_ext _ _ (0, 0) (0, 0)); [lia|].
      intros i Hi. symmetry. apply E. lia. }
  replace (velocities (Standalone.apply_boundary_conditions rnd "bounce" s))
    with (velocities s).
  2:{ apply (nth_ext _ _ (0, 0) (0, 0)); [lia|].
      intros i Hi. symmetry. apply E. lia. }
  destruct s; reflexivity.
Qed.

Lemma bounce_moderate_nth (rnd : random_source) (s : state) (i : nat) :
  wf s -> (i < num_bodies s)%nat -> 0 <= boundary s ->
  let b := boundary s in
  let p := nth i (positions s) (0, 0) in
  let p' := nth i (positions (Standalone.apply_boundary_conditions
                                rnd "bounce" s)) (0, 0) in
  (- (3 * b / 2) <= fst p <= 3 * b / 2 -> - b / 2 <= fst p' <= b / 2)
  /\ (- (3 * b / 2) <= snd p <= 3 * b / 2 -> - b / 2 <= snd p' <= b / 2).
Proof.
  intros Hwf Hi Hb b p p'.
  destruct (bounce_nth rnd s i Hwf Hi) as [Ep _].
  unfold p'. rewrite Ep. fold b p. cbn [fst snd]. unfold gtb, ltb.
  fold b in Hb.
  destruct (Rgt_dec (fst p) (b / 2)), (Rlt_dec (fst p) (- b / 2)),
           (Rgt_dec (snd p) (b / 2)), (Rlt_dec (snd p) (- b / 2));
    split; intros; lra.
Qed.

(** Bounce mode with boundary >= 0: if no coordinate is farther than
    3 * boundary / 2 from the origin, one application puts every body in
    the domain [-boundary/2, boundary/2] on both axes, and a second
    application changes nothing. *)
Theorem bounce_contains_moderate_overshoot (rnd rnd' : random_source)
    (s : state) :
  wf s -> 0 <= boundary s ->
  Forall (fun p : vec2 =>
            - (3 * boundary s / 2) <= fst p <= 3 * boundary s / 2
            /\ - (3 * boundary s / 2) <= snd p <= 3 * boundary s / 2)
         (positions s) ->
  let s' := Standalone.apply_boundary_conditions rnd "bounce" s in
  in_domain s'
  /\ Standalone.apply_boundary_conditions rnd' "bounce" s' = s'.
Proof.
  intros Hwf Hb Hall s'.
  pose proof (apply_boundary_wf rnd "bounce" s Hwf) as Hwf'. fold s' in Hwf'.
  assert (Hd : in_domain s').
  { unfold in_domain. apply Forall_forall. intros q Hq.
    apply (In_nth _ _ (0, 0)) in Hq. destruct Hq as (i & Hi & <-).
    destruct Hwf' as (Hp' & _).
    change (num_bodies s') with (num_bodies s) in Hp'.
    change (boundary s') with (boundary s).
    destruct (bounce_moderate_nth rnd s i Hwf ltac:(lia) Hb) as [Hx Hy].
    rewrite Forall_forall in Hall.
    destruct Hwf as (Hp & _).
    destruct (Hall (nth i (positions s) (0, 0))) as [Ax Ay];
      [apply nth_In; lia|].
    split; [apply Hx | apply Hy]; assumption. }
  split; [exact Hd|].
  apply bounce_in_domain_id; assumption.
Qed.

Lemma bounce_contains_moderate_overshoot_witness :
  let s' := Standalone.apply_boundary_conditions sample_source "bounce"
                                                 wall_body in
  wf wall_body /\ 0 <= boundary wall_body /\ in_domain s'.
Proof.
  intros s'.
  assert (Hwf : wf wall_body) by (repeat split).
  assert (Hb : 0 <= boundary wall_body) by (simpl; lra).
  assert (Hall : Forall (fun p : vec2 =>
            - (3 * boundary wall_body / 2) <= fst p
              <= 3 * boundary wall_body / 2
            /\ - (3 * boundary wall_body / 2) <= snd p
               <= 3 * boundary wall_body / 2)
         (positions wall_body)).
  { repeat constructor; simpl; lra. }
  split; [exact Hwf|]. split; [exact Hb|].
  exact (proj1 (bounce_contains_moderate_overshoot sample_source
                  sample_source wall_body Hwf Hb Hall)).
Defined.

(** Bounce mode with boundary >= 0 never speeds a body up: on each axis
    the new velocity is the old one or -0.9 times the old one; and a state
    with every body in the domain is returned as it is. *)
Theorem bounce_never_speeds_up (rnd : random_source) (s : state) :
  wf s -> 0 <= boundary s ->
  let s' := Standalone.apply_boundary_conditions rnd "bounce" s in
  (forall i, (i < num_bodies s)%nat ->
     let v := nth i (velocities s) (0, 0) in
     let v' := nth i (velocities s') (0, 0) in
     (fst v' = fst v \/ fst v' = -0.9 * fst v)
     /\ (snd v' = snd v \/ snd v' = -0.9 * snd v)
     /\ Rabs (fst v') <= Rabs (fst v) /\ Rabs (snd v') <= Rabs (snd v))
  /\ (in_domain s -> s' = s).
Proof.
  intros Hwf Hb s'. split.
  - intros i Hi v v'.
    destruct (bounce_nth rnd s i Hwf Hi) as [_ Ev].
    unfold v', s'. rewrite Ev. fold v. cbn [fst snd]. unfold gtb, ltb.
    set (b := boundary s) in *.
    set (p := nth i (positions s) (0, 0)).
    assert (A : forall x, Rabs (x * -0.9) <= Rabs x).
    { intros x. rewrite Rabs_mult.
      replace (Rabs (-0.9)) with 0.9
        by (rewrite Rabs_left; lra).
      pose proof (Rabs_pos x). lra. }
    destruct (Rgt_dec (fst p) (b / 2)), (Rlt_dec (fst p) (- b / 2)),
             (Rgt_dec (snd p) (b / 2)), (Rlt_dec (snd p) (- b / 2));
      try lra;
      (split; [ first [left; reflexivity | right; ring] |
       split; [ first [left; reflexivity | right; ring] |
       split; first [apply Rle_refl | apply A] ] ]).
  - intros Hd. apply bounce_in_domain_id; assumption.
Qed.

Lemma bounce_never_speeds_up_witness :
  let s' := Standalone.apply_boundary_conditions sample_source "bounce"
                                                 wall_body in
  wf wall_body /\ 0 <= boundary wall_body
  /\ Rabs (fst (nth 0 (velocities s') (0, 0)))
     <= Rabs (fst (nth 0 (velocities wall_body) (0, 0))).
Proof.
  intros s'.
  assert (Hwf : wf wall_body) by (repeat split).
  assert (Hb : 0 <= boundary wall_body) by (simpl; lra).
  assert (Hi : (0 < num_bodies wall_body)%nat) by (simpl; lia).
  split; [exact Hwf|]. split; [exact Hb|].
  exact (proj1 (proj2 (proj2 (proj1 (bounce_never_speeds_up sample_source
                                       wall_body Hwf Hb) 0%nat Hi)))).
Defined.

(** ** The velocity-flip bounce of base_simulation.py *)

(** A loop whose body rewrites slot [i] only, from the old content of that
    slot. *)
Lemma for_range_pointwise {A : Type} (body : nat -> list A -> list A)
    (f : nat -> A -> A) (d : A) :
  (forall i a, length (body i a) = length a) ->
  (forall i a j, (i < length a)%nat ->
     nth j (body i a) d = if (j =? i)%nat then f i (nth i a d) else nth j a d) ->
  forall n a,
    (n <= length a)%nat ->
    length (for_range n body a) = length a
    /\ forall j, nth j (for_range n body a) d
                 = if (j <? n)%nat then f j (nth j a d) else nth j a d.
Proof.
  intros Hlen Hnth. induction n as [|n IH]; intros a Hn.
  - split; reflexivity.
  - destruct (IH a ltac:(lia)) as [L N]. rewrite for_range_S. split.
    + rewrite Hlen. exact L.
    + intros j. rewrite Hnth by lia.
      destruct (Nat.eqb_spec j n) as [->|Hne].
      * rewrite N, (proj2 (Nat.ltb_ge n n)) by lia.
        rewrite (proj2 (Nat.ltb_lt n (S n))) by lia. reflexivity.
      * rewrite N.
        destruct (Nat.ltb_spec j n), (Nat.ltb_spec j (S n));
          try reflexivity; lia.
Qed.

Lemma set_item_same {A : Type} (i : nat) (a : list A) (d : A) :
  (i < length a)%nat -> set_item i (nth i a d) a = a.
Proof.
  revert i; induction a as [|h t IH]; intros [|i] Hi; simpl in *;
    try lia; auto.
  rewrite IH by lia. reflexivity.
Qed.

Lemma base_bounce_nth (s : state) (i : nat) :
  wf s -> (i < num_bodies s)%nat ->
  let b := boundary s in
  let p := nth i (positions s) (0, 0) in
  let v := nth i (velocities s) (0, 0) in
  nth i (velocities (Base.apply_boundary_conditions s)) (0, 0)
  = (if ltb (fst p) (- b / 2) || gtb (fst p) (b / 2)
     then fst v * -1 else fst v,
     if ltb (snd p) (- b / 2) || gtb (snd p) (b / 2)
     then snd v * -1 else snd v)
  /\ length (velocities (Base.apply_boundary_conditions s)) = num_bodies s.
Proof.
  intros (Hp & Hv & Hm & Ht & Ha) Hi b p v.
  set (body := fun (i : nat) (vel : list vec2) =>
        let x := fst (nth i (positions s) (0, 0)) in
        let y := snd (nth i (positions s) (0, 0)) in
        let vel1 :=
          if ltb x (- boundary s / 2) || gtb x (boundary s / 2)
          then set_item i (fst (nth i vel (0, 0)) * -1,
                           snd (nth i vel (0, 0))) vel
          else vel in
        if ltb y (- boundary s / 2) || gtb y (boundary s / 2)
        then set_item i (fst (nth i vel1 (0, 0)),
                         snd (nth i vel1 (0, 0)) * -1) vel1
        else vel1).
  set (f := fun (i : nat) (w : vec2) =>
        (if ltb (fst (nth i (positions s) (0, 0))) (- boundary s / 2)
            || gtb (fst (nth i (positions s) (0, 0))) (boundary s / 2)
         then fst w * -1 else fst w,
         if ltb (snd (nth i (positions s) (0, 0))) (- boundary s / 2)
            || gtb (snd (nth i (positions s) (0, 0))) (boundary s / 2)
         then snd w * -1 else snd w)).
  change (velocities (Base.apply_boundary_conditions s))
    with (for_range (num_bodies s) body (velocities s)).
  assert (Hlen : forall k a, length (body k a) = length a).
  { intros k a. unfold body. cbv zeta.
    destruct (_ || _), (_ || _); rewrite ?set_item_length; reflexivity. }
  assert (Hnth : forall k a j, (k < length a)%nat ->
            nth j (body k a) (0, 0)
            = if (j =? k)%nat then f k (nth k a (0, 0)) else nth j a (0, 0)).
  { intros k a j Hk. unfold body, f. cbv zeta.
    destruct (Nat.eqb_spec j k) as [->|Hne].
    - destruct (_ || _), (_ || _);
        rewrite ?nth_set_item_eq by (rewrite ?set_item_length; exact Hk);
        cbn [fst snd]; try reflexivity.
      apply surjective_pairing.
    - destruct (_ || _), (_ || _);
        rewrite ?nth_set_item_neq by congruence; reflexivity. }
  destruct (for_range_pointwise body f (0, 0) Hlen Hnth (num_bodies s)
              (velocities s) ltac:(lia)) as [L N].
  split; [|lia].
  rewrite N, (proj2 (Nat.ltb_lt i (num_bodies s))) by exact Hi.
  reflexivity.
Qed.

(** The bounce of base_simulation.py never moves a body: on each axis
    where the coordinate is outside [-boundary/2, boundary/2] the velocity
    changes sign, elsewhere it stays, so every body keeps its speed. *)
Theorem base_bounce_flips_velocity (s : state) (i : nat) :
  wf s -> (i < num_bodies s)%nat ->
  let b := boundary s in
  let s' := Base.apply_boundary_conditions s in
  let p := nth i (positions s) (0, 0) in
  let v := nth i (velocities s) (0, 0) in
  let v' := nth i (velocities s') (0, 0) in
  positions s' = positions s
  /\ (fst p < - b / 2 \/ fst p > b / 2 -> fst v' = - fst v)
  /\ (- b / 2 <= fst p <= b / 2 -> fst v' = fst v)
  /\ (snd p < - b / 2 \/ snd p > b / 2 -> snd v' = - snd v)
  /\ (- b / 2 <= snd p <= b / 2 -> snd v' = snd v)
  /\ fst v' ^ 2 + snd v' ^ 2 = fst v ^ 2 + snd v ^ 2.
Proof.
  intros Hwf Hi b s' p v v'.
  destruct (base_bounce_nth s i Hwf Hi) as [E _].
  unfold v', s'. rewrite E. fold b p v. cbn [fst snd]. unfold gtb, ltb.
  split; [reflexivity|].
  destruct (Rlt_dec (fst p) (- b / 2)), (Rgt_dec (fst p) (b / 2)),
           (Rlt_dec (snd p) (- b / 2)), (Rgt_dec (snd p) (b / 2));
    cbn [orb]; repeat split; intros; try lra; try ring.
Qed.

Lemma base_bounce_flips_velocity_witness :
  let s' := Base.apply_boundary_conditions wall_body in
  wf wall_body /\ (0 < num_bodies wall_body)%nat
  /\ positions s' = positions wall_body
  /\ fst (nth 0 (velocities s') (0, 0))
     = - fst (nth 0 (velocities wall_body) (0, 0)).
Proof.
  intros s'.
  assert (Hwf : wf wall_body) by (repeat split).
  assert (Hi : (0 < num_bodies wall_body)%nat) by (simpl; lia).
  destruct (base_bounce_flips_velocity wall_body 0 Hwf Hi)
    as (Hp & Hx & _).
  split; [exact Hwf|]. split; [exact Hi|]. split; [exact Hp|].
  apply Hx. right. simpl. lra.
Defined.

(** Applied twice in a row, the bounce of base_simulation.py gives the
    state back: a body that is outside the domain and is not brought back
    by the next step has its velocity flipped again. *)
Theorem base_bounce_twice (s : state) :
  wf s ->
  Base.apply_boundary_conditions (Base.apply_boundary_conditions s) = s.
Proof.
  intros Hwf.
  pose proof (base_apply_boundary_wf s Hwf) as Hwf'.
  set (s' := Base.apply_boundary_conditions s) in *.
  assert (Hv : velocities (Base.apply_boundary_conditions s') = velocities s).
  { apply (nth_ext _ _ (0, 0) (0, 0)).
    - destruct Hwf as (_ & L & _).
      destruct (base_apply_boundary_wf s' Hwf') as (_ & L2 & _).
      change (num_bodies (Base.apply_boundary_conditions s'))
        with (num_bodies s) in L2.
      rewrite L2, L. reflexivity.
    - intros i Hi.
      assert (Hi' : (i < num_bodies s)%nat).
      { destruct (base_apply_boundary_wf s' Hwf') as (_ & L2 & _).
        change (num_bodies (Base.apply_boundary_conditions s'))
          with (num_bodies s) in L2. lia. }
      destruct (base_bounce_nth s' i Hwf' Hi') as [E2 _].
      destruct (base_bounce_nth s i Hwf Hi') as [E1 _].
      rewrite E2. fold s' in E1.
      change (positions s') with (positions s).
      change (boundary s') with (boundary s).
      rewrite E1. cbn [fst snd].
      destruct (_ || _), (_ || _);
        apply injective_projections; cbn [fst snd]; ring. }
  change (Base.apply_boundary_conditions s')
    with (mkState (G s) (dt s) (softening s) (boundary s) (num_bodies s)
            (positions s) (velocities (Base.apply_boundary_conditions s'))
            (masses s) (colors s) (trails s) (max_trail_length s)
            (accelerations s) (kinetic_energy s) (potential_energy s)).
  rewrite Hv. destruct s; reflexivity.
Qed.

Lemma base_bounce_twice_witness :
  wf wall_body
  /\ Base.apply_boundary_conditions (Base.apply_boundary_conditions wall_body)
     = wall_body.
Proof.
  assert (Hwf : wf wall_body) by (repeat split).
  split; [exact Hwf|].
  exact (base_bounce_twice wall_body Hwf).
Defined.

(** ** Steps in special situations *)

Lemma integrate_lengths (s : state) (acc : list vec2) :
  wf s -> length acc = num_bodies s ->
  length (positions (integrate s acc)) = num_bodies s
  /\ length (velocities (integrate s acc)) = num_bodies s.
Proof.
  intros Hwf Hacc. destruct (integrate_wf s acc Hwf Hacc) as (Hp & Hv & _).
  split; assumption.
Qed.

(** With no acceleration or no time step the velocities stay. *)
Lemma integrate_velocities_fixed (s : state) (acc : list vec2) :
  wf s -> length acc = num_bodies s ->
  (forall i, (i < num_bodies s)%nat ->
     fst (nth i acc (0, 0)) * dt s = 0 /\ snd (nth i acc (0, 0)) * dt s = 0) ->
  velocities (integrate s acc) = velocities s.
Proof.
  intros Hwf Hacc Hz.
  destruct (integrate_lengths s acc Hwf Hacc) as [_ Lv].
  pose proof Hwf as (_ & Hv & _).
  apply (nth_ext _ _ (0, 0) (0, 0)); [lia|].
  intros i Hi. rewrite Lv in Hi.
  destruct (integrate_semi_implicit s acc i Hwf Hacc Hi) as [Ev _].
  rewrite integrate_accelerations in Ev. rewrite Ev.
  destruct (Hz i Hi) as [Zx Zy]. rewrite Zx, Zy.
  apply injective_projections; cbn [fst snd]; ring.
Qed.

Lemma lone_body_accelerations (s : state) :
  wf s -> num_bodies s = 1%nat ->
  accelerations (Standalone.update s) = [(0, 0)].
Proof.
  intros Hwf Hn.
  rewrite standalone_update_accelerations by exact Hwf.
  rewrite Hn. cbn [seq map].
  pose proof (row_sum s 0 Hwf ltac:(lia)) as Hrow.
  assert (Hx : sum (fst (Base.calculate_acceleration s 0))
               = fst (force_contract (positions s) (masses s) (G s)
                                     (softening s) 0))
    by (rewrite <- Hrow; reflexivity).
  assert (Hy : sum (snd (Base.calculate_acceleration s 0))
               = snd (force_contract (positions s) (masses s) (G s)
                                     (softening s) 0))
    by (rewrite <- Hrow; reflexivity).
  rewrite Hx, Hy.
  unfold force_contract, others.
  destruct Hwf as (Hp & _). rewrite Hp, Hn.
  cbn [seq filter Nat.eqb negb map sum fold_right fst snd].
  f_equal. f_equal; ring.
Qed.

Lemma lone_body_step (s : state) :
  wf s -> num_bodies s = 1%nat ->
  let p := nth 0 (positions s) (0, 0) in
  let v := nth 0 (velocities s) (0, 0) in
  velocities (Standalone.update s) = velocities s
  /\ nth 0 (positions (Standalone.update s)) (0, 0)
     = (fst p + fst v * dt s, snd p + snd v * dt s).
Proof.
  intros Hwf Hn p v.
  pose proof (lone_body_accelerations s Hwf Hn) as Hacc.
  destruct (update_accelerations_length s Hwf) as (Ls & _ & _).
  assert (Hv : velocities (Standalone.update s) = velocities s).
  { rewrite standalone_update_integrate.
    apply integrate_velocities_fixed; [exact Hwf | exact Ls |].
    intros i Hi. rewrite Hacc. assert (i = 0%nat) as -> by lia.
    cbn. split; ring. }
  split; [exact Hv|].
  destruct (integrate_semi_implicit s (accelerations (Standalone.update s)) 0
              Hwf Ls ltac:(lia)) as [_ Ep].
  rewrite <- standalone_update_integrate in Ep.
  rewrite Ep, Hv. reflexivity.
Qed.

(** A lone body feels no force: with one body every step leaves the
    acceleration at zero and the velocity as it is, so after n steps the
    body is at position + n * dt * velocity. *)
Theorem lone_body_moves_uniformly (s : state) (n : nat) :
  wf s -> num_bodies s = 1%nat ->
  let p := nth 0 (positions s) (0, 0) in
  let v := nth 0 (velocities s) (0, 0) in
  let s' := repeat_call n Standalone.update s in
  accelerations (Standalone.update s) = [(0, 0)]
  /\ velocities s' = velocities s
  /\ nth 0 (positions s') (0, 0)
     = (fst p + INR n * dt s * fst v, snd p + INR n * dt s * snd v).
Proof.
  intros Hwf Hn p v s'.
  split; [apply lone_body_accelerations; assumption|].
  unfold s'. clear s'. subst p v.
  induction n as [|n IH].
  - cbn [repeat_call]. split; [reflexivity|].
    cbn [INR]. apply injective_projections; cbn [fst snd]; ring.
  - destruct IH as [IHv IHp].
    destruct (repeat_update_invariants s n Hwf) as (Hw & _ & Hd & _).
    assert (Hn' : num_bodies (repeat_call n Standalone.update s) = 1%nat).
    { clear IHv IHp Hw Hd. induction n as [|k IHk]; [exact Hn|exact IHk]. }
    destruct (lone_body_step _ Hw Hn') as [Sv Sp].
    cbn [repeat_call]. split.
    + rewrite Sv. exact IHv.
    + rewrite Sp, IHp, IHv, Hd. rewrite S_INR.
      apply injective_projections; cbn [fst snd]; ring.
Qed.

Lemma lone_body_moves_uniformly_witness :
  wf wall_body /\ num_bodies wall_body = 1%nat
  /\ nth 0 (positions (repeat_call 100 Standalone.update wall_body)) (0, 0)
     = (fst (nth 0 (positions wall_body) (0, 0))
        + INR 100 * dt wall_body * fst (nth 0 (velocities wall_body) (0, 0)),
        snd (nth 0 (positions wall_body) (0, 0))
        + INR 100 * dt wall_body * snd (nth 0 (velocities wall_body) (0, 0))).
Proof.
  assert (Hwf : wf wall_body) by (repeat split).
  assert (Hn : num_bodies wall_body = 1%nat) by reflexivity.
  split; [exact Hwf|]. split; [exact Hn|].
  exact (proj2 (proj2 (lone_body_moves_uniformly wall_body 100 Hwf Hn))).
Defined.

(** A step with dt = 0 moves nothing: positions and velocities are those
    before the step (the accelerations and energies are still computed and
    every trail still takes a new entry). *)
Theorem zero_dt_step_keeps_motion (s : state) :
  wf s -> dt s = 0 ->
  positions (Standalone.update s) = positions s
  /\ velocities (Standalone.update s) = velocities s
  /\ forall i, (i < num_bodies s)%nat ->
       nth i (trails (Standalone.update s)) []
       = push_trail (max_trail_length s) (nth i (trails s) [])
                    (nth i (positions s) (0, 0)).
Proof.
  intros Hwf Hdt.
  destruct (update_accelerations_length s Hwf) as (Ls & _ & _).
  assert (Hv : velocities (Standalone.update s) = velocities s).
  { rewrite standalone_update_integrate.
    apply integrate_velocities_fixed; [exact Hwf | exact Ls |].
    intros i Hi. rewrite Hdt. split; ring. }
  assert (Hp : positions (Standalone.update s) = positions s).
  { pose proof (update_wf s Hwf) as (Lp & _).
    change (num_bodies (Standalone.update s)) with (num_bodies s) in Lp.
    pose proof Hwf as (Lp0 & _).
    apply (nth_ext _ _ (0, 0) (0, 0)); [lia|].
    intros i Hi. rewrite Lp in Hi.
    destruct (integrate_semi_implicit s (accelerations (Standalone.update s))
                i Hwf Ls Hi) as [_ Ep].
    rewrite <- standalone_update_integrate in Ep.
    rewrite Ep, Hdt.
    apply injective_projections; cbn [fst snd]; ring. }
  split; [exact Hp|]. split; [exact Hv|].
  intros i Hi.
  rewrite standalone_update_integrate at 1.
  rewrite integrate_trails by exact Hwf.
  rewrite (nth_map_in _ _ _ 0%nat) by (rewrite length_seq; exact Hi).
  rewrite seq_nth by exact Hi.
  rewrite <- standalone_update_integrate, Hp. reflexivity.
Qed.

Lemma zero_dt_step_keeps_motion_witness :
  let s := run (SetDt 0) two_body in
  wf s /\ dt s = 0 /\ positions (Standalone.update s) = positions s.
Proof.
  intros s.
  assert (Hwf : wf s) by (repeat split).
  assert (Hdt : dt s = 0) by reflexivity.
  split; [exact Hwf|]. split; [exact Hdt|].
  exact (proj1 (zero_dt_step_keeps_motion s Hwf Hdt)).
Defined.

(** ** Trails over many steps *)

Lemma tl_skipn_app {A : Type} (L : list A) (p : A) :
  forall k, (k <= length L)%nat ->
  tl (skipn k L ++ [p]) = skipn (S k) (L ++ [p]).
Proof.
  induction L as [|x L IH]; intros [|k] Hk; simpl in *; try lia;
    try reflexivity.
  apply IH. lia.
Qed.

Lemma push_trail_skipn (c : nat) (L : list vec2) (p : vec2) :
  push_trail c (skipn (length L - c) L) p
  = skipn (S (length L) - c) (L ++ [p]).
Proof.
  unfold push_trail.
  rewrite length_app, length_skipn. change (length [p]) with 1%nat.
  destruct (Nat.ltb_spec c (length L - (length L - c) + 1)) as [Hgt|Hle].
  - rewrite tl_skipn_app by lia. f_equal. lia.
  - replace (length L - c)%nat with 0%nat by lia.
    replace (S (length L) - c)%nat with 0%nat by lia. reflexivity.
Qed.

Lemma repeat_update_frame (s : state) (n : nat) :
  num_bodies (repeat_call n Standalone.update s) = num_bodies s
  /\ max_trail_length (repeat_call n Standalone.update s)
     = max_trail_length s.
Proof.
  induction n as [|n [IH1 IH2]]; cbn [repeat_call].
  - split; reflexivity.
  - split; [exact IH1 | exact IH2].
Qed.

Lemma history_S (s : state) (i n : nat) :
  history s i (S n)
  = history s i n
    ++ [nth i (positions (repeat_call (S n) Standalone.update s)) (0, 0)].
Proof.
  unfold history. rewrite seq_S, map_app. reflexivity.
Qed.

Lemma trail_after_steps (s : state) (i n : nat) :
  wf s -> (i < num_bodies s)%nat ->
  (length (nth i (trails s) []) <= max_trail_length s)%nat ->
  nth i (trails (repeat_call n Standalone.update s)) []
  = skipn (length (nth i (trails s) []) + n - max_trail_length s)
          (nth i (trails s) [] ++ history s i n).
Proof.
  intros Hwf Hi Hb. induction n as [|n IH].
  - cbn [repeat_call]. unfold history. cbn [seq map].
    rewrite app_nil_r.
    replace (length (nth i (trails s) []) + 0 - max_trail_length s)%nat
      with 0%nat by lia.
    reflexivity.
  - destruct (repeat_update_invariants s n Hwf) as (Hw & _).
    destruct (repeat_update_frame s n) as [Hn Hc].
    cbn [repeat_call].
    rewrite standalone_update_integrate at 1.
    rewrite integrate_trails by exact Hw.
    rewrite Hn, Hc.
    rewrite (nth_map_in _ _ _ 0%nat) by (rewrite length_seq; exact Hi).
    rewrite seq_nth by exact Hi. cbn [Nat.add].
    rewrite <- standalone_update_integrate.
    rewrite IH, history_S. cbn [repeat_call].
    set (L := nth i (trails s) [] ++ history s i n).
    assert (HL : length L = (length (nth i (trails s) []) + n)%nat).
    { unfold L, history. rewrite length_app, length_map, length_seq.
      reflexivity. }
    rewrite <- HL, push_trail_skipn, app_assoc. fold L.
    f_equal. lia.
Qed.

(** After n steps the trail of body i holds the newest max_trail_length
    entries of its old trail followed by the n positions the body took,
    oldest first: eviction is first in, first out over any number of
    steps.  From empty trails the length is min(n, max_trail_length). *)
Theorem trail_is_recent_history (s : state) (i n : nat) :
  wf s -> trail_bounded s -> (i < num_bodies s)%nat ->
  let cap := max_trail_length s in
  let old := nth i (trails s) [] in
  let t := nth i (trails (repeat_call n Standalone.update s)) [] in
  t = skipn (length old + n - cap) (old ++ history s i n)
  /\ length t = Nat.min (length old + n) cap
  /\ (old = [] -> t = skipn (n - cap) (history s i n)).
Proof.
  intros Hwf Hb Hi cap old t.
  assert (Hold : (length old <= cap)%nat).
  { unfold trail_bounded in Hb. rewrite Forall_forall in Hb.
    apply Hb, nth_In. destruct Hwf as (_ & _ & _ & Ht & _). lia. }
  assert (E : t = skipn (length old + n - cap) (old ++ history s i n))
    by (apply trail_after_steps; assumption).
  split; [exact E|]. split.
  - rewrite E, length_skipn, length_app. unfold history.
    rewrite length_map, length_seq. lia.
  - intros Hnil. rewrite E, Hnil. reflexivity.
Qed.

Lemma trail_is_recent_history_witness :
  wf two_body /\ trail_bounded two_body /\ (0 < num_bodies two_body)%nat
  /\ length (nth 0 (trails (repeat_call 60 Standalone.update two_body)) [])
     = 50%nat.
Proof.
  assert (Hwf : wf two_body) by (repeat split).
  assert (Hb : trail_bounded two_body)
    by (repeat constructor; simpl; lia).
  assert (Hi : (0 < num_bodies two_body)%nat) by (simpl; lia).
  split; [exact Hwf|]. split; [exact Hb|]. split; [exact Hi|].
  exact (proj1 (proj2 (trail_is_recent_history two_body 0 60 Hwf Hb Hi))).
Defined.

(** ** The setter of the trail cap *)

Lemma pop_while_longer_short {A : Type} (value : nat) (t : list A) :
  (length t <= value)%nat -> Standalone.pop_while_longer value t = t.
Proof.
  intros H. rewrite pop_while_longer_suffix.
  replace (length t - value)%nat with 0%nat by lia. reflexivity.
Qed.

Lemma pop_while_longer_twice {A : Type} (a b : nat) (t : list A) :
  Standalone.pop_while_longer b (Standalone.pop_while_longer a t)
  = Standalone.pop_while_longer (Nat.min a b) t.
Proof.
  rewrite !pop_while_longer_suffix, length_skipn, skipn_skipn.
  f_equal. lia.
Qed.

Lemma update_trail_length_nth (value : nat) (s : state) (i : nat) :
  wf s -> (i < num_bodies s)%nat ->
  nth i (trails (Standalone.update_trail_length value s)) []
  = Standalone.pop_while_longer value (nth i (trails s) []).
Proof.
  intros Hwf Hi. rewrite update_trail_length_trails by exact Hwf.
  rewrite (nth_map_in _ _ _ 0%nat) by (rewrite length_seq; exact Hi).
  rewrite seq_nth by exact Hi. reflexivity.
Qed.

(** Setting the trail cap: every trail keeps min(length, value) entries;
    a value no smaller than the current cap of bounded trails loses
    nothing; setting a and then b leaves the trails that setting
    min(a, b) leaves, with cap b. *)
Theorem update_trail_length_composes (a b : nat) (s : state) :
  wf s ->
  (forall i, (i < num_bodies s)%nat ->
     length (nth i (trails (Standalone.update_trail_length a s)) [])
     = Nat.min (length (nth i (trails s) [])) a)
  /\ (trail_bounded s -> (max_trail_length s <= a)%nat ->
      trails (Standalone.update_trail_length a s) = trails s)
  /\ trails (Standalone.update_trail_length b
               (Standalone.update_trail_length a s))
     = trails (Standalone.update_trail_length (Nat.min a b) s)
  /\ max_trail_length (Standalone.update_trail_length b
                         (Standalone.update_trail_length a s)) = b.
Proof.
  intros Hwf. pose proof (update_trail_length_wf a s Hwf) as Hwf'.
  split; [|split; [|split]].
  - intros i Hi. rewrite update_trail_length_nth by assumption.
    rewrite pop_while_longer_suffix, length_skipn. lia.
  - intros Hb Hle.
    pose proof Hwf as (_ & _ & _ & Ht & _).
    pose proof Hwf' as (_ & _ & _ & Ht' & _).
    change (num_bodies (Standalone.update_trail_length a s))
      with (num_bodies s) in Ht'.
    apply (nth_ext _ _ [] []); [lia|].
    intros i Hi. rewrite update_trail_length_nth by (try assumption; lia).
    apply pop_while_longer_short.
    unfold trail_bounded in Hb. rewrite Forall_forall in Hb.
    assert (length (nth i (trails s) []) <= max_trail_length s)%nat
      by (apply Hb, nth_In; lia).
    lia.
  - rewrite (update_trail_length_trails b _ Hwf').
    rewrite (update_trail_length_trails (Nat.min a b) s Hwf).
    change (num_bodies (Standalone.update_trail_length a s))
      with (num_bodies s).
    apply map_ext_in. intros i Hi. apply in_seq in Hi.
    rewrite update_trail_length_nth by (try assumption; lia).
    apply pop_while_longer_twice.
  - reflexivity.
Qed.

Lemma update_trail_length_composes_witness :
  wf trailing_pair
  /\ trails (Standalone.update_trail_length 3
               (Standalone.update_trail_length 5 trailing_pair))
     = trails (Standalone.update_trail_length (Nat.min 5 3) trailing_pair)
  /\ trails (Standalone.update_trail_length (Nat.min 5 3) trailing_pair)
     = [[(3, 3); (4, 4); (5, 5)]; [(9, 9)]]
  /\ length (nth 0 (trails (Standalone.update_trail_length 5 trailing_pair))
                  [])
     = 5%nat.
Proof.
  assert (Hwf : wf trailing_pair) by (repeat split).
  destruct (update_trail_length_composes 5 3 trailing_pair Hwf)
    as (Hlen & _ & Hcomp & _).
  split; [exact Hwf|]. split; [exact Hcomp|]. split; [reflexivity|].
  exact (Hlen 0%nat (Nat.lt_0_succ 1)).
Defined.

(** ** Energies *)

Lemma fold_left_minus {I : Type} (g : I -> R) (l : list I) :
  forall x, fold_left (fun acc j => acc - g j) l x = x - sum (map g l).
Proof.
  induction l as [|a l IH]; intros x; simpl.
  - ring.
  - rewrite IH. ring.
Qed.

Lemma fold_left_body_ext {St I : Type} (f g : St -> I -> St) (l : list I) :
  (forall a x, f a x = g a x) ->
  forall a, fold_left f l a = fold_left g l a.
Proof.
  intros H. induction l as [|x l IH]; intros a; simpl.
  - reflexivity.
  - rewrite H. apply IH.
Qed.

Lemma sum_map_nonneg {I : Type} (f : I -> R) (l : list I) :
  (forall j, In j l -> 0 <= f j) -> 0 <= sum (map f l).
Proof.
  induction l as [|x l IH]; intros H; simpl.
  - lra.
  - assert (0 <= f x) by (apply H; left; reflexivity).
    assert (0 <= sum (map f l)) by (apply IH; intros j Hj; apply H; right; exact Hj).
    lra.
Qed.

Lemma sum_zip_nonneg (a b : list R) :
  Forall (fun x => 0 <= x) a -> Forall (fun x => 0 <= x) b ->
  0 <= sum (zip_with Rmult a b).
Proof.
  intros Ha. revert b. induction Ha as [|x a Hx Ha IH]; intros b Hb.
  - simpl. lra.
  - destruct Hb as [|y b Hy Hb]; simpl; [lra|].
    specialize (IH b Hb). unfold zip_with in IH.
    assert (0 <= x * y) by (apply Rmult_le_pos; assumption). lra.
Qed.

Lemma potential_energy_pairs (s : state) :
  potential_energy (Standalone.calculate_energy s) = - pair_potential_sum s.
Proof.
  rewrite potential_energy_denominators.
  unfold for_range, for_range_from, pair_potential_sum.
  rewrite (fold_left_body_ext _
             (fun pe i =>
                pe - sum (map (fun j => G s * nth i (masses s) 0
                                        * nth j (masses s) 0
                                        / potential_denominator s i j)
                              (seq (i + 1) (num_bodies s - (i + 1)))))).
  - rewrite fold_left_minus. ring.
  - intros pe i. apply fold_left_minus.
Qed.

Lemma potential_denominator_pos (s : state) (i j : nat) :
  softening s <> 0 -> 0 < potential_denominator s i j.
Proof.
  intros He. unfold potential_denominator. cbv zeta.
  apply sqrt_lt_R0.
  pose proof (pow2_ge_0 (fst (nth i (positions s) (0, 0))
                         - fst (nth j (positions s) (0, 0)))).
  pose proof (pow2_ge_0 (snd (nth i (positions s) (0, 0))
                         - snd (nth j (positions s) (0, 0)))).
  assert (0 < softening s ^ 2).
  { replace (softening s ^ 2) with (Rsqr (softening s))
      by (unfold Rsqr; ring).
    apply Rsqr_pos_lt. exact He. }
  lra.
Qed.

(** [calculate_energy] (the same code in n_body_simulator.py and
    base_simulation.py) stores minus the sum over the unique pairs i < j
    of G * m_i * m_j / r_ij as potential energy; it reads no stored
    energy, so running it again changes nothing and the energies that
    [update] leaves are those of the state it returns.  With masses >= 0
    the kinetic energy is >= 0; with also G >= 0 and softening <> 0 the
    potential energy is <= 0. *)
Theorem energies_recomputed (s : state) :
  Base.calculate_energy s = Standalone.calculate_energy s
  /\ potential_energy (Standalone.calculate_energy s)
     = - pair_potential_sum s
  /\ Standalone.calculate_energy (Standalone.calculate_energy s)
     = Standalone.calculate_energy s
  /\ Standalone.calculate_energy (Standalone.update s) = Standalone.update s
  /\ (Forall (fun m => 0 <= m) (masses s) ->
      0 <= kinetic_energy (Standalone.calculate_energy s)
      /\ (0 <= G s -> softening s <> 0 -> wf s ->
          potential_energy (Standalone.calculate_energy s) <= 0)).
Proof.
  split; [reflexivity|]. split; [apply potential_energy_pairs|].
  split; [reflexivity|]. split; [reflexivity|].
  intros Hm. split.
  - change (kinetic_energy (Standalone.calculate_energy s))
      with (0.5 * sum (zip_with Rmult (masses s)
                         (map (fun v => fst v ^ 2 + snd v ^ 2)
                              (velocities s)))).
    assert (0 <= sum (zip_with Rmult (masses s)
                        (map (fun v => fst v ^ 2 + snd v ^ 2)
                             (velocities s)))).
    { apply sum_zip_nonneg; [exact Hm|].
      apply Forall_forall. intros x Hx. apply in_map_iff in Hx.
      destruct Hx as (v & <- & _).
      pose proof (pow2_ge_0 (fst v)). pose proof (pow2_ge_0 (snd v)). lra. }
    lra.
  - intros HG He (_ & _ & Lm & _).
    rewrite potential_energy_pairs.
    assert (0 <= pair_potential_sum s); [|lra].
    unfold pair_potential_sum.
    rewrite Forall_forall in Hm.
    apply sum_map_nonneg. intros i Hi. apply in_seq in Hi.
    apply sum_map_nonneg. intros j Hj. apply in_seq in Hj.
    assert (0 <= nth i (masses s) 0) by (apply Hm, nth_In; lia).
    assert (0 <= nth j (masses s) 0) by (apply Hm, nth_In; lia).
    pose proof (potential_denominator_pos s i j He).
    apply Rmult_le_pos.
    + apply Rmult_le_pos; [apply Rmult_le_pos|]; assumption.
    + apply Rlt_le, Rinv_0_lt_compat. assumption.
Qed.

Lemma energies_recomputed_witness :
  Forall (fun m => 0 <= m) (masses two_body)
  /\ 0 <= G two_body /\ softening two_body <> 0 /\ wf two_body
  /\ potential_energy (Standalone.calculate_energy two_body) <= 0.
Proof.
  assert (Hm : Forall (fun m => 0 <= m) (masses two_body))
    by (repeat constructor; simpl; lra).
  assert (HG : 0 <= G two_body) by (simpl; lra).
  assert (He : softening two_body <> 0) by (simpl; lra).
  assert (Hwf : wf two_body) by (repeat split).
  split; [exact Hm|]. split; [exact HG|]. split; [exact He|].
  split; [exact Hwf|].
  exact (proj2 (proj2 (proj2 (proj2 (proj2 (energies_recomputed two_body))))
                  Hm) HG He Hwf).
Defined.

(** ** What [reset] creates *)

Lemma count_heavy_set_item (i : nat) (v : R) (l : list R) :
  (count_heavy (set_item i v l) <= S (count_heavy l))%nat.
Proof.
  unfold count_heavy. revert i.
  induction l as [|x l IH]; intros [|i]; simpl.
  - lia.
  - lia.
  - destruct (Rle_dec 10 v), (Rle_dec 10 x); simpl; lia.
  - specialize (IH i). destruct (Rle_dec 10 x); simpl; lia.
Qed.

Lemma count_heavy_light (l : list R) :
  Forall (fun m => m < 10) l -> count_heavy l = 0%nat.
Proof.
  unfold count_heavy. induction 1 as [|x l Hx Hl IH]; simpl.
  - reflexivity.
  - destruct (Rle_dec 10 x); [lra | exact IH].
Qed.

Lemma count_heavy_In (x : R) (l : list R) :
  In x l -> 10 <= x -> (1 <= count_heavy l)%nat.
Proof.
  unfold count_heavy. intros Hin Hx.
  assert (H : In x (filter (fun m => if Rle_dec 10 m then true else false) l)).
  { apply filter_In. split; [exact Hin|].
    destruct (Rle_dec 10 x); [reflexivity | lra]. }
  destruct (filter _ l); [destruct H | simpl; lia].
Qed.

(** The masses after [k] rounds of the loop that makes a few bodies
    heavy. *)
Lemma reset_masses_rounds (rnd : random_source) (n k : nat) :
  reset_draws_in_range rnd n -> (k <= Nat.min 3 n)%nat ->
  let bm := for_range k
              (fun i bm => set_item (randint rnd i) (uniform rnd (5 * n + i)) bm)
              (map (fun i => uniform rnd (4 * n + i)) (seq 0 n)) in
  length bm = n
  /\ Forall (fun m => 0.5 <= m < 2.0 \/ 10 <= m < 20) bm
  /\ (count_heavy bm <= k)%nat
  /\ (1 <= k -> 1 <= count_heavy bm)%nat.
Proof.
  intros [Hbase Hheavy]. induction k as [|k IH]; intros Hk; cbv zeta.
  - cbn [for_range seq fold_left]. unfold for_range. cbn [seq fold_left].
    assert (F : Forall (fun m => 0.5 <= m < 2.0)
                  (map (fun i => uniform rnd (4 * n + i)) (seq 0 n))).
    { apply Forall_forall. intros m Hm. apply in_map_iff in Hm.
      destruct Hm as (i & <- & Hi). apply in_seq in Hi. apply Hbase. lia. }
    split; [len|]. split; [|split].
    + eapply Forall_impl; [|exact F]. intros m Hm. left. exact Hm.
    + rewrite count_heavy_light; [lia|].
      eapply Forall_impl; [|exact F]. intros m Hm. cbv beta in Hm. lra.
    + lia.
  - destruct (IH ltac:(lia)) as (L & F & C & _).
    rewrite for_range_S.
    destruct (Hheavy k ltac:(lia)) as [Hv Hidx].
    split; [rewrite set_item_length; exact L|]. split; [|split].
    + apply Forall_set_item; [exact F | right; exact Hv].
    + pose proof (count_heavy_set_item (randint rnd k)
                    (uniform rnd (5 * n + k))
                    (for_range k
                       (fun i bm => set_item (randint rnd i)
                                             (uniform rnd (5 * n + i)) bm)
                       (map (fun i => uniform rnd (4 * n + i)) (seq 0 n)))).
      lia.
    + intros _. apply (count_heavy_In (uniform rnd (5 * n + k))); [|lra].
      rewrite <- (nth_set_item_eq (randint rnd k) (uniform rnd (5 * n + k)) 0
                    (for_range k
                       (fun i bm => set_item (randint rnd i)
                                             (uniform rnd (5 * n + i)) bm)
                       (map (fun i => uniform rnd (4 * n + i)) (seq 0 n))))
        at 1 by lia.
      apply nth_In. rewrite set_item_length. lia.
Qed.

(** When the generator delivers values in the ranges [reset] asks for,
    the masses after [reset] are all positive (light ones in [0.5, 2),
    heavy ones in [10, 20)), at most min(3, N) of them are heavy, and for
    N >= 1 at least one is. *)
Theorem reset_masses (rnd : random_source) (num : option nat) (s : state) :
  let n := match num with Some k => k | None => num_bodies s end in
  reset_draws_in_range rnd n ->
  let s' := Standalone.reset rnd num s in
  Forall (fun m => 0 < m /\ (0.5 <= m < 2.0 \/ 10 <= m < 20)) (masses s')
  /\ (count_heavy (masses s') <= Nat.min 3 n)%nat
  /\ (1 <= n -> 1 <= count_heavy (masses s'))%nat.
Proof.
  intros n Hr s'.
  destruct (reset_masses_rounds rnd n (Nat.min 3 n) Hr (Nat.le_refl _))
    as (_ & F & C & C1).
  change (masses s')
    with (for_range (Nat.min 3 n)
            (fun i bm => set_item (randint rnd i) (uniform rnd (5 * n + i)) bm)
            (map (fun i => uniform rnd (4 * n + i)) (seq 0 n))).
  split; [|split].
  - eapply Forall_impl; [|exact F]. intros m Hm. cbv beta in Hm.
    split; [lra | exact Hm].
  - exact C.
  - intros Hn. apply C1. lia.
Qed.

Lemma sample_source_in_range : reset_draws_in_range sample_source 2.
Proof.
  split.
  - intros i Hi. destruct i as [|[|i]]; simpl; try lra. lia.
  - intros i Hi. destruct i as [|[|i]]; simpl in *; try lia;
      (split; [lra | lia]).
Defined.

Lemma reset_masses_witness :
  reset_draws_in_range sample_source 2
  /\ (count_heavy (masses (Standalone.reset sample_source (Some 2%nat)
                                             two_body)) <= 2)%nat.
Proof.
  split; [exact sample_source_in_range|].
  exact (proj1 (proj2 (reset_masses sample_source (Some 2%nat) two_body
                         sample_source_in_range))).
Defined.

Lemma Int_part_nonneg (x : R) : 0 <= x -> (0 <= Int_part x)%Z.
Proof.
  intros Hx. destruct (base_Int_part x) as [_ H].
  assert (IZR (-1) < IZR (Int_part x)) by (simpl; lra).
  apply lt_IZR in H0. lia.
Qed.

Lemma py_int_nonneg (x : R) : 0 <= x -> (0 <= py_int x)%Z.
Proof.
  intros Hx. unfold py_int. destruct (Rle_dec 0 x); [|lra].
  apply Int_part_nonneg. exact Hx.
Qed.

Lemma py_int_le (x : R) (k : Z) : (0 <= k)%Z -> x <= IZR k -> (py_int x <= k)%Z.
Proof.
  intros Hk Hx. unfold py_int. destruct (Rle_dec 0 x) as [H0|H0].
  - destruct (base_Int_part x) as [H _].
    apply le_IZR. lra.
  - assert (0 <= Int_part (- x))%Z by (apply Int_part_nonneg; lra). lia.
Qed.

(** The channels [reset] computes for a mass that is not negative. *)
Lemma reset_color_valid (mass : R) :
  0 <= mass ->
  valid_color
    (if gtb mass 5
     then (Z.min 255 (py_int (200 + mass * 2.5)),
           Z.max 0 (py_int (255 - mass * 10)),
           Z.max 0 (py_int (100 - mass * 5)))
     else (py_int (100 + mass * 20),
           py_int (100 + mass * 20),
           Z.min 255 (py_int (150 + mass * 20)))).
Proof.
  intros Hm. unfold gtb. destruct (Rgt_dec mass 5) as [H5|H5]; cbn.
  - pose proof (py_int_nonneg (200 + mass * 2.5) ltac:(lra)).
    pose proof (py_int_le (255 - mass * 10) 255 ltac:(lia) ltac:(simpl; lra)).
    pose proof (py_int_le (100 - mass * 5) 255 ltac:(lia) ltac:(simpl; lra)).
    lia.
  - pose proof (py_int_nonneg (100 + mass * 20) ltac:(lra)).
    pose proof (py_int_le (100 + mass * 20) 255 ltac:(lia) ltac:(simpl; lra)).
    pose proof (py_int_nonneg (150 + mass * 20) ltac:(lra)).
    lia.
Qed.

(** When the generator delivers values in the ranges [reset] asks for,
    every color [reset] builds has its three channels within 0..255,
    although only some of the channels are clamped in the code; a heavy
    body gets red >= 225 and a light one blue >= 160. *)
Theorem reset_colors_valid (rnd : random_source) (num : option nat)
    (s : state) :
  let n := match num with Some k => k | None => num_bodies s end in
  reset_draws_in_range rnd n ->
  let s' := Standalone.reset rnd num s in
  Forall valid_color (colors s')
  /\ forall i, (i < n)%nat ->
       let '(r, g, b) := nth i (colors s') (0, 0, 0)%Z in
       (10 <= nth i (masses s') 0 -> (225 <= r)%Z)
       /\ (nth i (masses s') 0 < 2.0 -> (160 <= b)%Z).
Proof.
  intros n Hr s'.
  destruct (reset_masses_rounds rnd n (Nat.min 3 n) Hr (Nat.le_refl _))
    as (L & F & _).
  set (color := fun mass : R =>
         if gtb mass 5
         then (Z.min 255 (py_int (200 + mass * 2.5)),
               Z.max 0 (py_int (255 - mass * 10)),
               Z.max 0 (py_int (100 - mass * 5)))
         else (py_int (100 + mass * 20),
               py_int (100 + mass * 20),
               Z.min 255 (py_int (150 + mass * 20)))).
  change (colors s') with (map color (masses s')).
  change (masses s')
    with (for_range (Nat.min 3 n)
            (fun i bm => set_item (randint rnd i) (uniform rnd (5 * n + i)) bm)
            (map (fun i => uniform rnd (4 * n + i)) (seq 0 n))) in *.
  split.
  - apply Forall_forall. intros c Hc. apply in_map_iff in Hc.
    destruct Hc as (m & <- & Hm).
    rewrite Forall_forall in F. specialize (F m Hm). cbv beta in F.
    apply reset_color_valid. lra.
  - intros i Hi.
    rewrite (nth_map_in color _ i 0) by lia.
    set (m := nth i _ 0).
    assert (Hm : 0.5 <= m < 2.0 \/ 10 <= m < 20).
    { rewrite Forall_forall in F. apply F. apply nth_In. lia. }
    unfold color, gtb. destruct (Rgt_dec m 5) as [H5|H5]; cbv iota beta.
    + split; [|intros; lra]. intros H10.
      assert (224 < Int_part (200 + m * 2.5))%Z.
      { apply lt_IZR. destruct (base_Int_part (200 + m * 2.5)) as [_ H].
        simpl. lra. }
      unfold py_int. destruct (Rle_dec 0 (200 + m * 2.5)); [lia | lra].
    + split; [intros; lra|]. intros _.
      assert (159 < Int_part (150 + m * 20))%Z.
      { apply lt_IZR. destruct (base_Int_part (150 + m * 20)) as [_ H].
        simpl. lra. }
      unfold py_int. destruct (Rle_dec 0 (150 + m * 20)); [lia | lra].
Qed.

Lemma reset_colors_valid_witness :
  reset_draws_in_range sample_source 2
  /\ Forall valid_color
       (colors (Standalone.reset sample_source (Some 2%nat) two_body)).
Proof.
  split; [exact sample_source_in_range|].
  exact (proj1 (reset_colors_valid sample_source (Some 2%nat) two_body
                  sample_source_in_range)).
Defined.

(** ** The force law *)

Lemma translate_wf (c : vec2) (s : state) : wf s -> wf (translate c s).
Proof.
  intros (Hp & Hv & Hm & Ht & Ha). unfold wf, translate;
    cbn [positions velocities masses trails accelerations num_bodies].
  repeat split; try assumption. len.
Qed.

Lemma pair_accel_translate (c : vec2) (s : state) (i j : nat) :
  (i < length (positions s))%nat -> (j < length (positions s))%nat ->
  pair_accel (translate c s) i j = pair_accel s i j.
Proof.
  intros Hi Hj. unfold pair_accel, translate.
  cbn [positions masses G softening].
  rewrite !(nth_map_in _ (positions s) _ (0, 0)) by assumption.
  set (pi := nth i (positions s) (0, 0)).
  set (pj := nth j (positions s) (0, 0)).
  replace (softened_dist2 (softening s)
             (fst pi + fst c, snd pi + snd c)
             (fst pj + fst c, snd pj + snd c))
    with (softened_dist2 (softening s) pi pj)
    by (unfold softened_dist2; cbn [fst snd]; ring).
  cbn [fst snd]. f_equal; ring.
Qed.

Lemma update_accelerations_pairs (s : state) (i : nat) :
  wf s -> (i < num_bodies s)%nat ->
  nth i (accelerations (Standalone.update s)) (0, 0)
  = (sum (map (fun j => fst (pair_accel s i j)) (seq 0 (num_bodies s))),
     sum (map (fun j => snd (pair_accel s i j)) (seq 0 (num_bodies s)))).
Proof.
  intros Hwf Hi.
  rewrite standalone_update_accelerations by exact Hwf.
  rewrite (nth_map_in _ _ _ 0%nat) by (rewrite length_seq; exact Hi).
  rewrite seq_nth by exact Hi. cbn [Nat.add].
  destruct (row_sum_pairs s i Hwf Hi) as [Hx Hy].
  rewrite Hx, Hy. f_equal; ring.
Qed.

(** The accelerations depend on the relative positions only: moving every
    body by the same vector changes no acceleration. *)
Theorem accelerations_translation_invariant (c : vec2) (s : state) :
  wf s ->
  accelerations (Standalone.update (translate c s))
  = accelerations (Standalone.update s).
Proof.
  intros Hwf. pose proof (translate_wf c s Hwf) as Hwf'.
  destruct (update_accelerations_length s Hwf) as (L & _).
  destruct (update_accelerations_length _ Hwf') as (L' & _).
  change (num_bodies (translate c s)) with (num_bodies s) in L'.
  apply (nth_ext _ _ (0, 0) (0, 0)); [lia|].
  intros i Hi. rewrite L' in Hi.
  rewrite !update_accelerations_pairs by assumption.
  change (num_bodies (translate c s)) with (num_bodies s).
  destruct Hwf as (Hp & _).
  f_equal; apply sum_map_ext; intros j Hj; apply in_seq in Hj;
    rewrite pair_accel_translate by lia; reflexivity.
Qed.

Lemma accelerations_translation_invariant_witness :
  wf two_body
  /\ accelerations (Standalone.update (translate (3, -4) two_body))
     = accelerations (Standalone.update two_body).
Proof.
  assert (Hwf : wf two_body) by (repeat split).
  split; [exact Hwf|].
  exact (accelerations_translation_invariant (3, -4) two_body Hwf).
Defined.

Lemma Rabs_sum_map_le {I : Type} (f : I -> R) (g : I -> R) (l : list I) :
  (forall j, In j l -> Rabs (f j) <= g j) ->
  Rabs (sum (map f l)) <= sum (map g l).
Proof.
  induction l as [|x l IH]; intros H; simpl.
  - rewrite Rabs_R0. lra.
  - pose proof (Rabs_triang (f x) (sum (map f l))).
    assert (Rabs (f x) <= g x) by (apply H; left; reflexivity).
    assert (Rabs (sum (map f l)) <= sum (map g l))
      by (apply IH; intros j Hj; apply H; right; exact Hj).
    lra.
Qed.

(** One over the denominator, times the separation on an axis, is at most
    one over softening squared. *)
Lemma softened_term_bound (e dx dy : R) :
  0 < e ->
  Rabs (dx * pow_neg_1_5 (dx ^ 2 + dy ^ 2 + e ^ 2)) <= / e ^ 2.
Proof.
  intros He.
  set (base := dx ^ 2 + dy ^ 2 + e ^ 2).
  assert (He2 : 0 < e ^ 2) by (apply pow_lt; exact He).
  assert (Hb : e ^ 2 <= base).
  { unfold base. pose proof (pow2_ge_0 dx). pose proof (pow2_ge_0 dy). lra. }
  assert (Hpos : 0 < base) by lra.
  assert (Hs : 0 < sqrt base) by (apply sqrt_lt_R0; exact Hpos).
  assert (Hdx : Rabs dx <= sqrt base).
  { rewrite <- sqrt_Rsqr_abs. apply sqrt_le_1_alt.
    unfold Rsqr, base. pose proof (pow2_ge_0 dy). lra. }
  rewrite pow_neg_1_5_inv, Rpower_1_5 by exact Hpos.
  rewrite Rabs_mult, (Rabs_right (/ (base * sqrt base))).
  2:{ apply Rle_ge, Rlt_le, Rinv_0_lt_compat, Rmult_lt_0_compat; assumption. }
  apply Rle_trans with (sqrt base * / (base * sqrt base)).
  - apply Rmult_le_compat_r; [|exact Hdx].
    apply Rlt_le, Rinv_0_lt_compat, Rmult_lt_0_compat; assumption.
  - replace (sqrt base * / (base * sqrt base)) with (/ base)
      by (field; lra).
    apply Rinv_le_contravar; assumption.
Qed.

Lemma pair_accel_bound (s : state) (i j : nat) :
  0 < softening s -> 0 <= G s -> 0 <= nth j (masses s) 0 ->
  Rabs (fst (pair_accel s i j)) <= G s * nth j (masses s) 0 / softening s ^ 2
  /\ Rabs (snd (pair_accel s i j))
     <= G s * nth j (masses s) 0 / softening s ^ 2.
Proof.
  intros He HG Hm. unfold pair_accel. cbn [fst snd].
  set (pi := nth i (positions s) (0, 0)).
  set (pj := nth j (positions s) (0, 0)).
  set (m := nth j (masses s) 0) in *.
  assert (He2 : 0 < softening s ^ 2) by (apply pow_lt; exact He).
  assert (Hq : 0 <= G s * m / softening s ^ 2).
  { apply Rmult_le_pos; [apply Rmult_le_pos; assumption|].
    apply Rlt_le, Rinv_0_lt_compat. exact He2. }
  destruct (j =? i)%nat.
  - replace (G s * (fst pj - fst pi) * 0 * m) with 0 by ring.
    replace (G s * (snd pj - snd pi) * 0 * m) with 0 by ring.
    rewrite Rabs_R0. split; exact Hq.
  - unfold softened_dist2.
    pose proof (softened_term_bound (softening s) (fst pj - fst pi)
                  (snd pj - snd pi) He) as Bx.
    pose proof (softened_term_bound (softening s) (snd pj - snd pi)
                  (fst pj - fst pi) He) as By.
    replace ((snd pj - snd pi) ^ 2 + (fst pj - fst pi) ^ 2 + softening s ^ 2)
      with ((fst pj - fst pi) ^ 2 + (snd pj - snd pi) ^ 2 + softening s ^ 2)
      in By by ring.
    set (w := pow_neg_1_5 _) in *.
    assert (HGm : 0 <= G s * m) by (apply Rmult_le_pos; assumption).
    split.
    + replace (G s * (fst pj - fst pi) * w * m)
        with ((G s * m) * ((fst pj - fst pi) * w)) by ring.
      rewrite Rabs_mult, (Rabs_right (G s * m)) by (apply Rle_ge; exact HGm).
      unfold Rdiv. apply Rmult_le_compat_l; assumption.
    + replace (G s * (snd pj - snd pi) * w * m)
        with ((G s * m) * ((snd pj - snd pi) * w)) by ring.
      rewrite Rabs_mult, (Rabs_right (G s * m)) by (apply Rle_ge; exact HGm).
      unfold Rdiv. apply Rmult_le_compat_l; assumption.
Qed.

(** Softening bounds the force: with softening > 0, G >= 0 and masses
    >= 0, the contribution of body j to the acceleration of body i is at
    most G * m_j / softening^2 on each axis, however close the two bodies
    are, and the acceleration that a step computes for body i is at most
    G * (sum of all masses) / softening^2 on each axis. *)
Theorem softening_bounds_acceleration (s : state) (i : nat) :
  wf s -> (i < num_bodies s)%nat ->
  0 < softening s -> 0 <= G s -> Forall (fun m => 0 <= m) (masses s) ->
  let a := nth i (accelerations (Standalone.update s)) (0, 0) in
  let bound := G s * sum (masses s) / softening s ^ 2 in
  (forall j, (j < num_bodies s)%nat ->
     Rabs (fst (pair_accel s i j))
       <= G s * nth j (masses s) 0 / softening s ^ 2
     /\ Rabs (snd (pair_accel s i j))
        <= G s * nth j (masses s) 0 / softening s ^ 2)
  /\ Rabs (fst a) <= bound /\ Rabs (snd a) <= bound.
Proof.
  intros Hwf Hi He HG Hm a bound.
  pose proof Hwf as (_ & _ & Lm & _).
  assert (Hmj : forall j, (j < num_bodies s)%nat -> 0 <= nth j (masses s) 0).
  { intros j Hj. rewrite Forall_forall in Hm. apply Hm, nth_In. lia. }
  assert (Hb : sum (map (fun j => G s * nth j (masses s) 0 / softening s ^ 2)
                        (seq 0 (num_bodies s))) = bound).
  { unfold bound. rewrite (sum_map_seq (masses s)), Lm.
    rewrite <- sum_map_scal.
    unfold Rdiv. rewrite Rmult_comm, <- sum_map_scal.
    apply sum_map_ext. intros j _. ring. }
  split.
  - intros j Hj. apply pair_accel_bound; auto.
  - unfold a. rewrite update_accelerations_pairs by assumption.
    cbn [fst snd]. rewrite <- Hb.
    split; apply Rabs_sum_map_le; intros j Hj; apply in_seq in Hj;
      apply pair_accel_bound; auto; apply Hmj; lia.
Qed.

Lemma softening_bounds_acceleration_witness :
  wf coincident_pair /\ (0 < num_bodies coincident_pair)%nat
  /\ 0 < softening coincident_pair /\ 0 <= G coincident_pair
  /\ Forall (fun m => 0 <= m) (masses coincident_pair)
  /\ Rabs (fst (nth 0 (accelerations (Standalone.update coincident_pair))
                     (0, 0)))
     <= G coincident_pair * sum (masses coincident_pair)
        / softening coincident_pair ^ 2.
Proof.
  assert (Hwf : wf coincident_pair) by (repeat split).
  assert (Hi : (0 < num_bodies coincident_pair)%nat) by (simpl; lia).
  assert (He : 0 < softening coincident_pair) by (simpl; lra).
  assert (HG : 0 <= G coincident_pair) by (simpl; lra).
  assert (Hm : Forall (fun m => 0 <= m) (masses coincident_pair))
    by (repeat constructor; simpl; lra).
  split; [exact Hwf|]. split; [exact Hi|]. split; [exact He|].
  split; [exact HG|]. split; [exact Hm|].
  exact (proj1 (proj2 (softening_bounds_acceleration coincident_pair 0
                         Hwf Hi He HG Hm))).
Defined.

(** ** What only [reset] changes *)

Lemma apply_boundary_frame (rnd : random_source) (condition : string)
    (s : state) :
  let s' := Standalone.apply_boundary_conditions rnd condition s in
  num_bodies s' = num_bodies s /\ masses s' = masses s
  /\ colors s' = colors s /\ max_trail_length s' = max_trail_length s
  /\ G s' = G s /\ dt s' = dt s /\ softening s' = softening s
  /\ boundary s' = boundary s.
Proof.
  by_condition condition; cbv zeta; try (repeat split; reflexivity).
  destruct (Standalone.replace_too_far _ _ _ _ _ _ _) as [[pos' vel'] tr'].
  repeat split; reflexivity.
Qed.

Lemma run_frame (c : call) (s : state) :
  match c with
  | Reset _ _ => True
  | _ => num_bodies (run c s) = num_bodies s
         /\ masses (run c s) = masses s
         /\ colors (run c s) = colors s
         /\ boundary (run c s) = boundary s
  end.
Proof.
  destruct c; cbn [run]; try exact I; try (repeat split; reflexivity).
  destruct (apply_boundary_frame rnd condition s)
    as (H1 & H2 & H3 & _ & _ & _ & _ & H4).
  repeat split; assumption.
Qed.

Lemma reachable_colors (s : state) :
  reachable s -> length (colors s) = num_bodies s.
Proof.
  induction 1 as [rnd n dt0 e b | c s Hs IH].
  - pose proof (reset_wf rnd (Some n)
                  (mkState 6.67 dt0 e b 0 [] [] [] [] [] 0 [] 0 0))
      as (_ & _ & Hm & _).
    unfold Standalone.init, Standalone.reset in *.
    cbn [colors masses num_bodies] in *. rewrite length_map. exact Hm.
  - pose proof (run_frame c s) as H. destruct c;
      try (destruct H as (H1 & _ & H3 & _); rewrite H1, H3; exact IH).
    cbn [run].
    pose proof (reset_wf rnd num s) as (_ & _ & Hm & _).
    unfold Standalone.reset in *.
    cbn [colors masses num_bodies] in *. rewrite length_map. exact Hm.
Qed.

(** In every state an engine can reach, positions, velocities, masses,
    colors, trails and accelerations all have length num_bodies; and no
    call other than [reset] changes the number of bodies, the masses, the
    colors or the boundary. *)
Theorem only_reset_changes_bodies (s : state) (c : call) :
  reachable s ->
  wf s /\ length (colors s) = num_bodies s
  /\ match c with
     | Reset _ (Some n) => num_bodies (run c s) = n
     | Reset _ None => num_bodies (run c s) = num_bodies s
     | _ => num_bodies (run c s) = num_bodies s
            /\ masses (run c s) = masses s
            /\ colors (run c s) = colors s
            /\ boundary (run c s) = boundary s
     end.
Proof.
  intros Hr. split; [apply reachable_invariant; exact Hr|].
  split; [apply reachable_colors; exact Hr|].
  pose proof (run_frame c s) as H.
  destruct c; try exact H.
  destruct num; reflexivity.
Qed.

Lemma only_reset_changes_bodies_witness :
  let s := Standalone.init sample_source 2 0.01 0.1 200 in
  reachable s /\ wf s /\ masses (run Update s) = masses s.
Proof.
  intros s.
  assert (Hr : reachable s) by apply reach_init.
  destruct (only_reset_changes_bodies s Update Hr) as (Hwf & _ & _ & Hm & _).
  split; [exact Hr|]. split; [exact Hwf | exact Hm].
Defined.

(** ** Open boundary, continued *)

Lemma replace_too_far_self_index (rnd : random_source) (b : R) (i : nat)
    (idxs : list nat) :
  NoDup idxs -> In i idxs ->
  forall (k : nat) (pos vel : list vec2) (tr : list (list vec2)),
    (i < length pos)%nat -> (i < length vel)%nat -> (i < length tr)%nat ->
    let r := Standalone.replace_too_far rnd k idxs b pos vel tr in
    exists m : nat,
      nth i (fst (fst r)) (0, 0)
        = (cos (uniform rnd (k + 3 * m)) * (b / 2 * 0.9),
           sin (uniform rnd (k + 3 * m)) * (b / 2 * 0.9))
      /\ nth i (snd (fst r)) (0, 0)
        = (- cos (uniform rnd (k + 3 * m)) * uniform rnd (k + 3 * m + 1),
           - sin (uniform rnd (k + 3 * m)) * uniform rnd (k + 3 * m + 2))
      /\ nth i (snd r) [] = [].
Proof.
  induction idxs as [|i0 idxs IH]; intros Hnd Hin k pos vel tr Lp Lv Lt;
    cbn [Standalone.replace_too_far].
  - destruct Hin.
  - inversion Hnd as [|? ? Hnot Hnd']; subst.
    cbv zeta. cbv zeta in IH.
    destruct Hin as [->|Hin].
    + exists 0%nat. replace (k + 3 * 0)%nat with k by lia.
      destruct (replace_too_far_other rnd b i idxs Hnot (k + 3)%nat
        (set_item i (cos (uniform rnd k) * (b / 2 * 0.9),
                     sin (uniform rnd k) * (b / 2 * 0.9)) pos)
        (set_item i (- cos (uniform rnd k) * uniform rnd (k + 1),
                     - sin (uniform rnd k) * uniform rnd (k + 2)) vel)
        (set_item i [] tr)) as (H1 & H2 & H3).
      rewrite H1, H2, H3, !nth_set_item_eq by assumption. auto.
    + destruct (IH Hnd' Hin (k + 3)%nat
        (set_item i0 (cos (uniform rnd k) * (b / 2 * 0.9),
                      sin (uniform rnd k) * (b / 2 * 0.9)) pos)
        (set_item i0 (- cos (uniform rnd k) * uniform rnd (k + 1),
                      - sin (uniform rnd k) * uniform rnd (k + 2)) vel)
        (set_item i0 [] tr))
        as (m & H); try (rewrite set_item_length; assumption).
      exists (S m).
      replace (k + 3 * S m)%nat with (k + 3 + 3 * m)%nat by lia.
      exact H.
Qed.

(** Open mode leaves alone every body whose distance from the origin is
    at most 2 * boundary: its position, velocity and trail are those
    before the call, whatever happens to the other bodies. *)
Theorem open_keeps_near_bodies (rnd : random_source) (s : state) (i : nat) :
  wf s -> (i < num_bodies s)%nat ->
  let s' := Standalone.apply_boundary_conditions rnd "open" s in
  let p := nth i (positions s) (0, 0) in
  sqrt (fst p ^ 2 + snd p ^ 2) <= boundary s * 2 ->
  nth i (positions s') (0, 0) = p
  /\ nth i (velocities s') (0, 0) = nth i (velocities s) (0, 0)
  /\ nth i (trails s') [] = nth i (trails s) [].
Proof.
  intros Hwf Hi s' p Hnear.
  exact (proj1 (open_boundary_body rnd s i Hwf Hi) Hnear).
Qed.

Lemma open_keeps_near_bodies_witness :
  let s' := Standalone.apply_boundary_conditions skewed_source "open"
                                                 two_body in
  wf two_body /\ (1 < num_bodies two_body)%nat
  /\ nth 1 (positions s') (0, 0) = nth 1 (positions two_body) (0, 0).
Proof.
  intros s'.
  assert (Hwf : wf two_body) by (repeat split).
  assert (Hi : (1 < num_bodies two_body)%nat) by (simpl; lia).
  split; [exact Hwf|]. split; [exact Hi|].
  apply (open_keeps_near_bodies skewed_source two_body 1 Hwf Hi).
  simpl.
  replace (1 * (1 * 1) + 0 * (0 * 1)) with (1 * 1) by ring.
  rewrite sqrt_square; lra.
Defined.

(** Open mode and a body farther than 2 * boundary from the origin, when
    the generator delivers each magnitude in [0.1, 0.5): the body lands on
    the circle of radius 0.9 * boundary / 2 around the origin, its trail
    is emptied, its speed is in [0.1, 0.5), and for boundary > 0 its
    velocity has a negative component along its new position, so it moves
    closer to the origin. *)
Theorem open_replaces_far_body (rnd : random_source) (s : state) (i : nat) :
  wf s -> (i < num_bodies s)%nat ->
  (forall m, 0.1 <= uniform rnd (3 * m + 1) < 0.5
             /\ 0.1 <= uniform rnd (3 * m + 2) < 0.5) ->
  let b := boundary s in
  let s' := Standalone.apply_boundary_conditions rnd "open" s in
  let p := nth i (positions s) (0, 0) in
  let p' := nth i (positions s') (0, 0) in
  let v' := nth i (velocities s') (0, 0) in
  sqrt (fst p ^ 2 + snd p ^ 2) > b * 2 ->
  fst p' ^ 2 + snd p' ^ 2 = (0.9 * b / 2) ^ 2
  /\ nth i (trails s') [] = []
  /\ 0.1 ^ 2 <= fst v' ^ 2 + snd v' ^ 2 < 0.5 ^ 2
  /\ (0 < b -> fst v' * fst p' + snd v' * snd p' < 0).
Proof.
  intros Hwf Hi Hu b s' p p' v' Hfar.
  pose proof Hwf as (Hp & Hv & Hm & Ht & Ha).
  set (too_far := map (fun q : vec2 => gtb (sqrt (fst q ^ 2 + snd q ^ 2))
                                           (b * 2)) (positions s)).
  assert (Hin : In i (where_true too_far)).
  { rewrite where_true_In. unfold too_far. rewrite length_map.
    rewrite (nth_map_in _ _ i (0, 0)) by lia. fold p. unfold gtb.
    destruct (Rgt_dec _ _); [split; [lia | reflexivity] | lra]. }
  pose proof (replace_too_far_self_index rnd b i _ (where_true_NoDup too_far)
                Hin 0%nat (positions s) (velocities s) (trails s)
                ltac:(lia) ltac:(lia) ltac:(lia)) as H.
  assert (Hs' : s' = let '(pos', vel', tr') :=
                       Standalone.replace_too_far rnd 0 (where_true too_far) b
                         (positions s) (velocities s) (trails s) in
                     mkState (G s) (dt s) (softening s) b (num_bodies s)
                             pos' vel' (masses s) (colors s) tr'
                             (max_trail_length s) (accelerations s)
                             (kinetic_energy s) (potential_energy s))
    by reflexivity.
  unfold p', v'. rewrite Hs'.
  destruct (Standalone.replace_too_far _ _ _ _ _ _ _) as [[pos' vel'] tr'].
  cbn [fst snd positions velocities trails] in *.
  destruct H as (m & Ep & Ev & Et). rewrite Ep, Ev, Et. cbn [fst snd].
  cbn [Nat.add] in *.
  destruct (Hu m) as [[U1 U1'] [U2 U2']].
  set (c := cos (uniform rnd (3 * m))).
  set (d := sin (uniform rnd (3 * m))).
  set (u1 := uniform rnd (3 * m + 1)) in *.
  set (u2 := uniform rnd (3 * m + 2)) in *.
  assert (H1 : d * d + c * c = 1) by apply (sin2_cos2 (uniform rnd (3 * m))).
  assert (Hc : 0 <= c * c) by apply Rle_0_sqr.
  assert (Hd : 0 <= d * d) by apply Rle_0_sqr.
  assert (L1 : 0.01 <= u1 * u1 < 0.25) by nra.
  assert (L2 : 0.01 <= u2 * u2 < 0.25) by nra.
  repeat split.
  - replace ((c * (b / 2 * 0.9)) ^ 2 + (d * (b / 2 * 0.9)) ^ 2)
      with ((d * d + c * c) * (0.9 * b / 2) ^ 2) by field.
    rewrite H1. ring.
  - replace ((- c * u1) ^ 2 + (- d * u2) ^ 2)
      with ((c * c) * (u1 * u1) + (d * d) * (u2 * u2)) by ring.
    nra.
  - replace ((- c * u1) ^ 2 + (- d * u2) ^ 2)
      with ((c * c) * (u1 * u1) + (d * d) * (u2 * u2)) by ring.
    destruct (Req_dec (c * c) 0) as [Z|NZ]; nra.
  - intros Hb.
    replace (- c * u1 * (c * (b / 2 * 0.9)) + - d * u2 * (d * (b / 2 * 0.9)))
      with (- (b / 2 * 0.9) * ((c * c) * u1 + (d * d) * u2)) by field.
    assert (0 < (c * c) * u1 + (d * d) * u2) by nra.
    nra.
Qed.

Lemma skewed_source_magnitudes (m : nat) :
  0.1 <= uniform skewed_source (3 * m + 1) < 0.5
  /\ 0.1 <= uniform skewed_source (3 * m + 2) < 0.5.
Proof.
  destruct m as [|m].
  - simpl. lra.
  - replace (3 * S m + 1)%nat with (S (S (S (3 * m + 1)))) by lia.
    replace (3 * S m + 2)%nat with (S (S (S (3 * m + 2)))) by lia.
    simpl. lra.
Defined.

Lemma open_replaces_far_body_witness :
  let s' := Standalone.apply_boundary_conditions skewed_source "open"
                                                 far_body in
  wf far_body /\ (0 < num_bodies far_body)%nat
  /\ nth 0 (trails s') [] = [].
Proof.
  intros s'.
  assert (Hwf : wf far_body) by (repeat split).
  assert (Hi : (0 < num_bodies far_body)%nat) by (simpl; lia).
  split; [exact Hwf|]. split; [exact Hi|].
  apply (open_replaces_far_body skewed_source far_body 0 Hwf Hi
           skewed_source_magnitudes).
  simpl. apply sqrt_gt; lra.
Defined.

(** * The widget *)

(** ** The tick *)

Lemma last_tl {A : Type} (l : list A) (d : A) :
  (2 <= length l)%nat -> last (tl l) d = last l d.
Proof.
  destruct l as [|x [|y l]]; simpl; try lia. reflexivity.
Qed.

Lemma last_push_trail (cap : nat) (t : list vec2) (p d : vec2) :
  (1 <= cap)%nat -> last (push_trail cap t p) d = p.
Proof.
  intros Hc. unfold push_trail.
  destruct (Nat.ltb_spec cap (length (t ++ [p]))) as [Hgt|Hle].
  - rewrite last_tl by lia. apply last_last.
  - apply last_last.
Qed.

(** One tick of the timer in n_body_simulator.py, when not paused, is a
    step followed by the bounce, and the bounce does not touch the trails:
    with a cap of at least 1 the newest trail entry of every body is its
    position before the boundary correction, so for a body reflected at
    the right wall (boundary >= 0) the position after the tick is
    boundary minus the x of its newest trail entry.  While paused a tick
    changes nothing. *)
Theorem tick_records_position_before_bounce (rnd : random_source) (w : view)
    (s : state) (i : nat) :
  wf s -> (i < num_bodies s)%nat -> (1 <= max_trail_length s)%nat ->
  let s' := Widget.update_simulation rnd w s in
  (paused w = true -> s' = s)
  /\ (paused w = false ->
      let newest := last (nth i (trails s') []) (0, 0) in
      s' = Standalone.apply_boundary_conditions rnd "bounce"
             (Standalone.update s)
      /\ trails s' = trails (Standalone.update s)
      /\ newest = nth i (positions (Standalone.update s)) (0, 0)
      /\ (0 <= boundary s -> fst newest > boundary s / 2 ->
          fst (nth i (positions s') (0, 0)) = boundary s - fst newest)).
Proof.
  intros Hwf Hi Hc s'. unfold s', Widget.update_simulation. split.
  - intros ->. reflexivity.
  - intros ->. cbn [negb]. unfold for_range. cbn [seq fold_left].
    cbv zeta.
    assert (Hn : last (nth i (trails (Standalone.update s)) []) (0, 0)
                 = nth i (positions (Standalone.update s)) (0, 0)).
    { rewrite standalone_update_integrate at 1.
      rewrite integrate_trails by exact Hwf.
      rewrite (nth_map_in _ _ _ 0%nat) by (rewrite length_seq; exact Hi).
      rewrite seq_nth by exact Hi. cbn [Nat.add].
      rewrite <- standalone_update_integrate.
      apply last_push_trail. exact Hc. }
    split; [reflexivity|]. split; [reflexivity|].
    change (trails (Standalone.apply_boundary_conditions rnd "bounce"
                      (Standalone.update s)))
      with (trails (Standalone.update s)).
    split; [exact Hn|].
    intros Hb Hx. rewrite Hn in *.
    pose proof (update_wf s Hwf) as Hwf'.
    destruct (bounce_nth rnd (Standalone.update s) i Hwf' Hi) as [Ep _].
    rewrite Ep. cbn [fst snd].
    change (boundary (Standalone.update s)) with (boundary s).
    unfold gtb, ltb.
    destruct (Rgt_dec _ _), (Rlt_dec _ _); lra.
Qed.

Lemma tick_records_position_before_bounce_witness :
  let s' := Widget.update_simulation sample_source Widget.init two_body in
  wf two_body /\ (0 < num_bodies two_body)%nat
  /\ (1 <= max_trail_length two_body)%nat
  /\ last (nth 0 (trails s') []) (0, 0)
     = nth 0 (positions (Standalone.update two_body)) (0, 0).
Proof.
  intros s'.
  assert (Hwf : wf two_body) by (repeat split).
  assert (Hi : (0 < num_bodies two_body)%nat) by (simpl; lia).
  assert (Hc : (1 <= max_trail_length two_body)%nat) by (simpl; lia).
  split; [exact Hwf|]. split; [exact Hi|]. split; [exact Hc|].
  destruct (tick_records_position_before_bounce sample_source Widget.init
              two_body 0 Hwf Hi Hc) as [_ H].
  exact (proj1 (proj2 (proj2 (H eq_refl)))).
Defined.

(** ** Zoom and pan *)

Lemma clamp_inside (x : R) :
  0.1 <= x <= 10 -> Rmax 0.1 (Rmin 10.0 x) = x.
Proof.
  intros H. unfold Rmax, Rmin.
  destruct (Rle_dec 10.0 x).
  - destruct (Rle_dec 0.1 10.0); lra.
  - destruct (Rle_dec 0.1 x); lra.
Qed.

(** The wheel keeps the scale factor within [0.1, 10] whatever it was,
    and changes nothing else of the view; inside the range a notch in and
    a notch out cancel: from a factor in [0.11, 10] zooming in and then
    out gives the factor back. *)
Theorem wheel_zoom_clamped (dy dy' : Z) (w : view) :
  let w' := Widget.wheelEvent dy w in
  0.1 <= scale_factor w' <= 10
  /\ offset_x w' = offset_x w /\ offset_y w' = offset_y w
  /\ paused w' = paused w
  /\ ((dy > 0)%Z -> (dy' <= 0)%Z -> 0.11 <= scale_factor w <= 10 ->
      scale_factor (Widget.wheelEvent dy' w') = scale_factor w).
Proof.
  intros w'. unfold w', Widget.wheelEvent. cbn [scale_factor offset_x
    offset_y paused].
  split; [|split; [reflexivity|split; [reflexivity|split; [reflexivity|]]]].
  - unfold Rmax, Rmin.
    destruct (Rle_dec _ _), (Rle_dec _ _); lra.
  - intros Hdy Hdy' Hs.
    destruct (Z.gtb_spec dy 0) as [_|]; [|lia].
    destruct (Z.gtb_spec dy' 0) as [|_]; [lia|].
    assert (E : scale_factor w / 1.1 * 1.1 = scale_factor w) by (field; lra).
    assert (0.1 <= scale_factor w / 1.1 <= 10) by lra.
    rewrite (clamp_inside (scale_factor w / 1.1)) by assumption.
    rewrite E. apply clamp_inside. lra.
Qed.

Lemma wheel_zoom_clamped_witness :
  (120 > 0)%Z /\ (-120 <= 0)%Z /\ 0.11 <= scale_factor Widget.init <= 10
  /\ scale_factor (Widget.wheelEvent (-120) (Widget.wheelEvent 120 Widget.init))
     = scale_factor Widget.init.
Proof.
  assert (H1 : (120 > 0)%Z) by lia.
  assert (H2 : (-120 <= 0)%Z) by lia.
  assert (H3 : 0.11 <= scale_factor Widget.init <= 10) by (simpl; lra).
  split; [exact H1|]. split; [exact H2|]. split; [exact H3|].
  exact (proj2 (proj2 (proj2 (proj2 (wheel_zoom_clamped 120 (-120)
                                       Widget.init)))) H1 H2 H3).
Defined.

Lemma last_cons_default {A : Type} (p a : A) (ps : list A) :
  last (p :: ps) a = last ps p.
Proof.
  revert p a. induction ps as [|q ps IH]; intros p a.
  - reflexivity.
  - change (last (p :: q :: ps) a) with (last (q :: ps) a).
    rewrite (IH q a), (IH q p). reflexivity.
Qed.

Lemma drag_moves (ps : list vec2) :
  forall (w : view) (a : vec2),
    dragging w = true -> last_mouse_pos w = Some a ->
    let w' := fold_left (fun v p => Widget.mouseMoveEvent p v) ps w in
    offset_x w' = offset_x w + (fst (last ps a) - fst a)
    /\ offset_y w' = offset_y w + (snd (last ps a) - snd a)
    /\ last_mouse_pos w' = Some (last ps a)
    /\ dragging w' = true
    /\ scale_factor w' = scale_factor w.
Proof.
  induction ps as [|p ps IH]; intros w a Hd Hl.
  - cbn. repeat split; try assumption; ring.
  - cbn [fold_left]. rewrite last_cons_default.
    set (w1 := mkView (scale_factor w)
                 (offset_x w + (fst p - fst a))
                 (offset_y w + (snd p - snd a)) (show_trails w)
                 (show_vectors w) (paused w) (Some p) true).
    assert (E : Widget.mouseMoveEvent p w = w1).
    { unfold Widget.mouseMoveEvent. rewrite Hd, Hl. reflexivity. }
    rewrite E.
    destruct (IH w1 p eq_refl eq_refl) as (Hx & Hy & Hp & Hdr & Hs).
    cbv zeta. rewrite Hx, Hy, Hp, Hdr, Hs.
    unfold w1. cbn [offset_x offset_y scale_factor].
    repeat split; ring.
Qed.

(** Panning: after a press of the left button at a, any sequence of mouse
    moves shifts the view offset by (last position - a), whatever the path
    in between, and leaves the zoom alone; once the button is released,
    and before any press, a move changes nothing. *)
Theorem drag_shifts_view (w : view) (a : vec2) (ps : list vec2) (q : vec2) :
  let pressed := Widget.mousePressEvent true a w in
  let w' := fold_left (fun v p => Widget.mouseMoveEvent p v) ps pressed in
  offset_x w' = offset_x w + (fst (last ps a) - fst a)
  /\ offset_y w' = offset_y w + (snd (last ps a) - snd a)
  /\ scale_factor w' = scale_factor w
  /\ Widget.mouseMoveEvent q (Widget.mouseReleaseEvent true w')
     = Widget.mouseReleaseEvent true w'
  /\ Widget.mouseMoveEvent q Widget.init = Widget.init.
Proof.
  intros pressed w'.
  destruct (drag_moves ps pressed a eq_refl eq_refl)
    as (Hx & Hy & _ & _ & Hs).
  fold w' in Hx, Hy, Hs.
  repeat split; try assumption.
Qed.

(** The drawing keeps the orientation of the simulation on x and turns y
    upside down: for a widget of positive size, a positive boundary and a
    positive scale factor, a body further right is drawn further right, a
    body further up is drawn further up (smaller screen y), and the origin
    is drawn at the centre moved by the pan offset. *)
Theorem to_screen_orientation (width height boundary : R) (w : view)
    (p q : vec2) :
  0 < width -> 0 < height -> 0 < boundary -> 0 < scale_factor w ->
  let sp := Widget.to_screen width height boundary w p in
  let sq := Widget.to_screen width height boundary w q in
  (fst p < fst q <-> fst sp < fst sq)
  /\ (snd p < snd q <-> snd sq < snd sp)
  /\ Widget.to_screen width height boundary w (0, 0)
     = (width / 2 + offset_x w, height / 2 + offset_y w).
Proof.
  intros Hw Hh Hb Hs sp sq. unfold sp, sq, Widget.to_screen. cbn [fst snd].
  set (scale := Rmin width height / (boundary * scale_factor w)).
  assert (Hscale : 0 < scale).
  { unfold scale. apply Rdiv_lt_0_compat.
    - apply Rmin_glb_lt; assumption.
    - apply Rmult_lt_0_compat; assumption. }
  split; [|split].
  - split; intros H.
    + assert (fst p * scale < fst q * scale)
        by (apply Rmult_lt_compat_r; assumption). lra.
    + apply (Rmult_lt_reg_r scale); [exact Hscale|]. lra.
  - split; intros H.
    + assert (snd p * scale < snd q * scale)
        by (apply Rmult_lt_compat_r; assumption). lra.
    + apply (Rmult_lt_reg_r scale); [exact Hscale|]. lra.
  - f_equal; ring.
Qed.

Lemma to_screen_orientation_witness :
  0 < 800 /\ 0 < 600 /\ 0 < 200 /\ 0 < scale_factor Widget.init
  /\ Widget.to_screen 800 600 200 Widget.init (0, 0)
     = (800 / 2 + offset_x Widget.init, 600 / 2 + offset_y Widget.init).
Proof.
  assert (H1 : 0 < 800) by lra. assert (H2 : 0 < 600) by lra.
  assert (H3 : 0 < 200) by lra.
  assert (H4 : 0 < scale_factor Widget.init) by (simpl; lra).
  split; [exact H1|]. split; [exact H2|]. split; [exact H3|].
  split; [exact H4|].
  exact (proj2 (proj2 (to_screen_orientation 800 600 200 Widget.init
                         (0, 0) (0, 0) H1 H2 H3 H4))).
Defined.

(** * Softening in the step and in the energies *)

Lemma row_entry_quotient (s : state) (i j : nat) :
  wf s -> (j < num_bodies s)%nat -> j <> i ->
  let ri := nth i (positions s) (0, 0) in
  let rj := nth j (positions s) (0, 0) in
  nth j (fst (Base.calculate_acceleration s i)) 0
  = G s * (fst rj - fst ri) * nth j (masses s) 0 / accel_denominator s i j
  /\ nth j (snd (Base.calculate_acceleration s i)) 0
     = G s * (snd rj - snd ri) * nth j (masses s) 0 / accel_denominator s i j.
Proof.
  intros Hwf Hj Hne ri rj. subst ri rj.
  pose proof (row_nth s i Hwf j Hj) as H. unfold pair_accel in H.
  rewrite (proj2 (Nat.eqb_neq j i) Hne) in H.
  rewrite inv_r3_denominator in H.
  pose proof (f_equal fst H) as Ex. pose proof (f_equal snd H) as Ey.
  cbn [fst snd] in Ex, Ey. rewrite Ex, Ey. unfold Rdiv. split; ring.
Qed.

(** C8, as the code has it, for a state with softening > 0 and any two
    bodies i, j (equal or coincident ones included).  In the step: the
    acceleration that [update] stores for body i is the sum of the row
    that [calculate_acceleration] builds, every entry j <> i of that row is
    a quotient by the power 1.5 of dx^2 + dy^2 + softening^2, that sum is
    at least softening^2 > 0 and its power 1.5 at least softening^3 > 0.
    In [calculate_energy], on the state given and on the state the step
    returns: the potential energy is minus the sum over the pairs i < j of
    G * m_i * m_j over the square root of the same sum, and that root is at
    least softening > 0.  So no division is by zero and no root or power
    has a negative base. *)
Theorem softening_guards_divisions (s : state) (i j : nat) :
  wf s -> 0 < softening s ->
  (i < num_bodies s)%nat -> (j < num_bodies s)%nat ->
  let e := softening s in
  let ri := nth i (positions s) (0, 0) in
  let rj := nth j (positions s) (0, 0) in
  let row := Base.calculate_acceleration s i in
  let s' := Standalone.update s in
  nth i (accelerations s') (0, 0) = (sum (fst row), sum (snd row))
  /\ (j <> i ->
      nth j (fst row) 0
      = G s * (fst rj - fst ri) * nth j (masses s) 0 / accel_denominator s i j
      /\ nth j (snd row) 0
         = G s * (snd rj - snd ri) * nth j (masses s) 0
           / accel_denominator s i j)
  /\ 0 < e ^ 2 <= softened_dist2 e ri rj
  /\ 0 < e ^ 3 <= accel_denominator s i j
  /\ Base.calculate_energy s = Standalone.calculate_energy s
  /\ potential_energy (Standalone.calculate_energy s) = - pair_potential_sum s
  /\ potential_energy s' = - pair_potential_sum s'
  /\ 0 < e <= potential_denominator s i j
  /\ 0 < e <= potential_denominator s' i j.
Proof.
  intros Hwf He Hi Hj e ri rj row s'.
  destruct (softened_denominators s i j He) as (B1 & _ & B2 & _ & B3 & _).
  assert (He' : 0 < softening s') by exact He.
  destruct (softened_denominators s' i j He') as (_ & _ & _ & _ & B4 & _).
  change (softening s') with e in B4. fold e ri rj in B1, B2, B3.
  assert (He2 : 0 < e ^ 2) by (apply pow_lt; exact He).
  assert (He3 : 0 < e ^ 3) by (apply pow_lt; exact He).
  split.
  { unfold s', row.
    rewrite standalone_update_accelerations by exact Hwf.
    rewrite (nth_map_in _ _ _ 0%nat) by (rewrite length_seq; exact Hi).
    rewrite seq_nth by exact Hi. cbn [Nat.add]. f_equal; ring. }
  split.
  { intros Hne. apply row_entry_quotient; assumption. }
  split; [split; assumption|]. split; [split; assumption|].
  split; [reflexivity|]. split; [apply potential_energy_pairs|].
  split.
  { change s' with (Standalone.calculate_energy s') at 1.
    apply potential_energy_pairs. }
  split; split; assumption.
Qed.

Lemma softening_guards_divisions_witness :
  let s := close_pair in
  wf s /\ 0 < softening s /\ (0 < num_bodies s)%nat /\ (1 < num_bodies s)%nat
  /\ nth 1 (fst (Base.calculate_acceleration s 0)) 0
     = G s * (fst (nth 1 (positions s) (0, 0)) - fst (nth 0 (positions s) (0, 0)))
       * nth 1 (masses s) 0 / accel_denominator s 0 1
  /\ 0 < softening s ^ 3 <= accel_denominator s 0 1
  /\ 0 < softening s <= potential_denominator (Standalone.update s) 0 1.
Proof.
  intros s.
  assert (Hwf : wf s) by (repeat split).
  assert (He : 0 < softening s) by (simpl; lra).
  assert (Hi : (0 < num_bodies s)%nat) by (simpl; lia).
  assert (Hj : (1 < num_bodies s)%nat) by (simpl; lia).
  destruct (softening_guards_divisions s 0 1 Hwf He Hi Hj)
    as (_ & Hrow & _ & Ha & _ & _ & _ & _ & Hp).
  split; [exact Hwf|]. split; [exact He|]. split; [exact Hi|].
  split; [exact Hj|].
  split; [exact (proj1 (Hrow (Nat.neq_succ_0 0)))|].
  split; [exact Ha | exact Hp].
Defined.

(** C8, as stated, fails: with the default softening 0.1 > 0 and two
    bodies 0.1 apart, the entry of body 1 in the row of body 0 is a
    quotient by (0.1^2 + 0.1^2)^1.5, which is below softening^2 = 0.01. *)
Lemma force_denominator_below_softening_squared :
  let s := close_pair in
  nth 1 (fst (Base.calculate_acceleration s 0)) 0
  = G s * (0.1 - 0) * nth 1 (masses s) 0 / accel_denominator s 0 1
  /\ accel_denominator s 0 1 < softening s ^ 2
  /\ ~ (0 < softening s ->
        softening s ^ 2 <= accel_denominator s 0 1
        /\ softening s <= potential_denominator s 0 1).
Proof.
  intros s.
  assert (Hwf : wf s) by (repeat split).
  assert (Hlt : accel_denominator s 0 1 < softening s ^ 2).
  { unfold accel_denominator, softened_dist2, s, close_pair.
    cbn [softening positions nth fst snd].
    replace ((0.1 - 0) ^ 2 + (0 - 0) ^ 2 + 0.1 ^ 2) with 0.02
      by (simpl; lra).
    rewrite Rpower_1_5 by lra.
    assert (sqrt 0.02 < 0.5).
    { rewrite <- (sqrt_square 0.5) by lra. apply sqrt_lt_1_alt. lra. }
    lra. }
  split; [|split].
  - exact (proj1 (row_entry_quotient s 0 1 Hwf (Nat.lt_succ_diag_r 1)
                    (Nat.neq_succ_0 0))).
  - exact Hlt.
  - intros H. assert (He : 0 < softening s) by (simpl; lra).
    destruct (H He) as [Ha _]. lra.
Qed.
